(** * Moses syntax decoder, tree-to-string manager

    A shallow embedding of [moses/Syntax/T2S/Manager-inl.h]
    (template class [Manager<RuleMatcher>]) and the properties its
    specification states about it.

    Conventions of the embedding.
    - Raw pointers ([SVertex *], [SHyperedge *], [const PVertex *]) are
      natural-number addresses into an explicit heap; a read or write through
      an address that is not allocated, the deletion of what is not
      allocated, and a failed [assert], make the operation return [None].
    - A stack owns its vertices (its elements are [boost::shared_ptr]s that
      the manager never copies) and a vertex owns its incoming hyperedges:
      [clear()], a shrinking [resize()] and [delete] release what they
      destroy.
    - Exceptions are outcomes of their own; a vector sized beyond its
      [max_size()] throws [std::length_error], and every other allocation
      is taken to succeed.
    - [std::size_t] values that enter arithmetic are integers reduced modulo
      [2^64]; counters that are only incremented below a bound are [nat].
    - Hyperedge scores ([float] in the source) are taken in a totally ordered
      domain, here [Z]; only their comparisons are used by the manager. *)

From stdpp Require Import base gmap list sorting strings pretty.
From Stdlib Require Import ZArith Lia.

Local Open Scope Z_scope.

(** ** Machine integers *)

Definition size_t_modulus : Z := 2 ^ 64.

(** Reduction of an integer to the range of [std::size_t]. *)
Definition to_size_t (z : Z) : Z := z mod size_t_modulus.

Definition size_mul (a b : Z) : Z := to_size_t (a * b).
Definition size_sub (a b : Z) : Z := to_size_t (a - b).

Definition is_size_t (z : Z) : Prop := 0 ≤ z < size_t_modulus.

(** ** Data model *)

(** Addresses. *)
Abbreviation vptr := nat (only parsing).   (* SVertex *        *)
Abbreviation hptr := nat (only parsing).   (* SHyperedge *     *)
Abbreviation pvptr := nat (only parsing).  (* const PVertex *, the index of the owning node *)

(** [std::vector<FFState*>]: one state value per stateful feature function. *)
Abbreviation FFStates := (list Z) (only parsing).

(** The span of a [PVertex], through the two accessors the manager calls. *)
Record Span := {
  GetStartPos : Z;
  GetNumWordsCovered : Z
}.

Record SVertex := {
  best : option hptr;
  recombined : list hptr;
  pvertex : option pvptr;
  state : FFStates
}.

Record SHyperedge := {
  head : vptr;
  tail : list vptr;
  score : Z
}.

Abbreviation SVertexStack := (list nat) (only parsing).

Record Heap := {
  vertices : gmap vptr SVertex;
  hyperedges : gmap hptr SHyperedge
}.

(** [InputTree::Node]; children are indices into [InputTree::nodes]. *)
Record Node := {
  node_symbol : nat;                    (* pvertex.symbol, as a label number *)
  node_span : Span;
  children : list nat
}.

(** A target phrase as the n-best alignment code reads it. *)
Record TargetPhrase := {
  tp_words : list bool;                 (* IsNonTerminal() of each word *)
  sourceIndex2Pos : list nat;           (* GetAlignNonTerm().GetSourceIndex2PosMap() *)
  nonTermIndexMap : list nat;           (* GetAlignNonTerm().GetNonTermIndexMap() *)
  alignTerm : list (nat * nat)          (* GetAlignTerm(), in iteration order *)
}.

(** [KBestExtractor::Derivation], with the hyperedge data it points to
    resolved: a derivation is immutable once extracted. *)
#[local] Unset Elimination Schemes.
Inductive Derivation := MkDerivation {
  d_head_span : Span;                   (* edge->shyperedge.head->pvertex->span *)
  d_tail_spans : list Span;             (* edge->shyperedge.tail[i]->pvertex->span *)
  d_translation : TargetPhrase;         (* edge->shyperedge.translation *)
  d_khead_span : Span;                  (* edge->head->svertex.pvertex->span *)
  subderivations : list Derivation
}.
#[local] Set Elimination Schemes.

(** The state of a [Manager]: the source sentence size, the input tree, the
    stack map keyed by the address of each node's [pvertex], and the objects
    its pointers refer to. *)
Record Manager := {
  m_source_size : Z;                    (* m_source.GetSize() *)
  m_inputTree : list Node;              (* m_inputTree.nodes, in post-order *)
  m_stackMap : gmap pvptr SVertexStack;
  m_heap : Heap
}.

(** ** Heap access *)

Definition empty_heap : Heap := {| vertices := ∅; hyperedges := ∅ |}.

Definition set_vertex (σ : Heap) (v : vptr) (sv : SVertex) : Heap :=
  {| vertices := <[v := sv]> (vertices σ); hyperedges := hyperedges σ |}.

Definition set_hyperedge (σ : Heap) (h : hptr) (e : SHyperedge) : Heap :=
  {| vertices := vertices σ; hyperedges := <[h := e]> (hyperedges σ) |}.

(** [new SVertex()]: the object is placed at an unused address. *)
Definition new_vertex (σ : Heap) (sv : SVertex) : vptr * Heap :=
  let v := fresh (dom (vertices σ)) in (v, set_vertex σ v sv).

(** The heap once the memory of a hyperedge, or of a vertex, is returned. *)
Definition free_hyperedge (σ : Heap) (h : hptr) : Heap :=
  {| vertices := vertices σ; hyperedges := delete h (hyperedges σ) |}.

Definition free_vertex (σ : Heap) (v : vptr) : Heap :=
  {| vertices := delete v (vertices σ); hyperedges := hyperedges σ |}.

(** [delete h] on a hyperedge, which owns nothing the manager refers to;
    deleting what is not allocated is a fault. *)
Definition delete_hyperedge (σ : Heap) (h : hptr) : option Heap :=
  _ ← hyperedges σ !! h; Some (free_hyperedge σ h).

Fixpoint delete_hyperedges (σ : Heap) (hs : list hptr) : option Heap :=
  match hs with
  | [] => Some σ
  | h :: rest => σ' ← delete_hyperedge σ h; delete_hyperedges σ' rest
  end.

(** Modelled from the spec: the destructor of [SVertex], whose definition
    is not among the sources.  A vertex owns its incoming hyperedges
    ([best] is a "raw owning pointer", section 9; a vertex that is discarded
    must have "its ownership released exactly once", section 4.4): the
    destructor deletes [best], unless it is null, and every hyperedge of
    [recombined]. *)
Definition owned (sv : SVertex) : list hptr :=
  option_list (best sv) ++ recombined sv.

(** [delete v]: the destructor runs, then the vertex is released.  This is
    why the manager sets [best] to null before it deletes a duplicate
    vertex, whose hyperedge goes on under the stored vertex. *)
Definition delete_vertex (σ : Heap) (v : vptr) : option Heap :=
  sv ← vertices σ !! v;
  σ' ← delete_hyperedges σ (owned sv);
  Some (free_vertex σ' v).

(** The destruction of elements of a stack, first to last, as [clear()] and
    a shrinking [resize()] do it.  An element is a
    [boost::shared_ptr<SVertex>]; the manager builds one for every vertex it
    puts on a stack (lines 79 and 278) and copies none, so that the element
    is the only owner and its destruction deletes the vertex. *)
Fixpoint release_stack (σ : Heap) (stack : list vptr) : option Heap :=
  match stack with
  | [] => Some σ
  | v :: rest => σ' ← delete_vertex σ v; release_stack σ' rest
  end.

Definition with_best (sv : SVertex) (b : option hptr) : SVertex :=
  {| best := b; recombined := recombined sv; pvertex := pvertex sv;
     state := state sv |}.

Definition push_recombined (sv : SVertex) (h : hptr) : SVertex :=
  {| best := best sv; recombined := recombined sv ++ [h];
     pvertex := pvertex sv; state := state sv |}.

Definition with_pvertex (sv : SVertex) (p : option pvptr) : SVertex :=
  {| best := best sv; recombined := recombined sv; pvertex := p;
     state := state sv |}.

Definition with_head (e : SHyperedge) (v : vptr) : SHyperedge :=
  {| head := v; tail := tail e; score := score e |}.

(** [v->best->score]. *)
Definition best_score (σ : Heap) (v : vptr) : option Z :=
  sv ← vertices σ !! v;
  h ← best sv;
  e ← hyperedges σ !! h;
  Some (score e).

(** ** Collaborators of the manager

    The classes below are declared in headers that the manager includes; the
    manager depends on them through the interfaces given here. *)

(** [SVertexRecombinationOrderer]: the comparison object of the
    recombination map.  [std::map] requires a strict weak ordering. *)
Class RecombinationOrderer := {
  orderer : FFStates → FFStates → bool;
  orderer_irrefl : ∀ x, orderer x x = false;
  orderer_trans : ∀ x y z,
    orderer x y = true → orderer y z = true → orderer x z = true;
  orderer_incomparable_trans : ∀ x y z,
    orderer x y = false → orderer y x = false →
    orderer y z = false → orderer z y = false →
    orderer x z = false ∧ orderer z x = false
}.

(** Two states fall in one recombination class when neither is ordered before
    the other. *)
Definition equivalent `{RecombinationOrderer} (x y : FFStates) : Prop :=
  orderer x y = false ∧ orderer y x = false.

#[global] Instance equivalent_dec `{RecombinationOrderer} x y :
  Decision (equivalent x y).
Proof. unfold equivalent. apply _. Defined.

(** What [std::sort] requires of its comparison object. *)
Record StrictWeakOrder {A} (cmp : A → A → bool) : Prop := {
  swo_irrefl : ∀ x, cmp x x = false;
  swo_trans : ∀ x y z, cmp x y = true → cmp y z = true → cmp x z = true;
  swo_incomparable_trans : ∀ x y z,
    cmp x y = false → cmp y x = false → cmp y z = false → cmp z y = false →
    cmp x z = false ∧ cmp z x = false
}.

(** [std::sort(first, last, comp)]: the result is a rearrangement of the
    range in which no element is ordered before an earlier one.  The order of
    elements that compare equivalent is left open. *)
Class StdSort := {
  std_sort : ∀ {A}, (A → A → bool) → list A → list A;
  std_sort_perm : ∀ A (cmp : A → A → bool) l, std_sort cmp l ≡ₚ l;
  std_sort_sorted : ∀ A (cmp : A → A → bool) l,
    StrictWeakOrder cmp →
    StronglySorted (λ x y, cmp y x = false) (std_sort cmp l)
}.

(** [CubeQueue]: a lazy stream of scored hyperedges.  [Pop] creates the
    hyperedge and its head vertex; [remaining] is the number of hyperedges the
    queue can still produce. *)
Class CubeQueueOps (Q : Type) := {
  IsEmpty : Q → bool;
  Pop : Q → Heap → hptr * Q * Heap;
  remaining : Q → nat;
  IsEmpty_remaining : ∀ q, IsEmpty q = true ↔ remaining q = 0%nat;
  Pop_remaining : ∀ q σ h q' σ',
    IsEmpty q = false → Pop q σ = (h, q', σ') → S (remaining q') = remaining q;
  Pop_allocated : ∀ q σ h q' σ',
    IsEmpty q = false → Pop q σ = (h, q', σ') →
    ∃ e, hyperedges σ' !! h = Some e ∧ is_Some (vertices σ' !! head e)
}.

(** ** InitializeStacks *)

(** The vertex of a terminal node once [best] and [pvertex] are assigned; [p]
    is the address of the node's [pvertex]. *)
Definition terminal_vertex (p : pvptr) : SVertex :=
  {| best := None; recombined := []; pvertex := Some p; state := [] |}.

(** One iteration of the loop over [m_inputTree.nodes]; [p] is the address of
    the node's [pvertex].  [m_stackMap[p]] yields the stack stored under [p],
    creating an empty one when there is none. *)
Definition InitializeStacks_node (st : Heap * gmap pvptr SVertexStack)
    (entry : pvptr * Node) : Heap * gmap pvptr SVertexStack :=
  let '(σ, stackMap) := st in
  let '(p, node) := entry in
  let stack := default [] (stackMap !! p) in
  match children node with
  | [] =>
      let '(v, σ') :=
        new_vertex σ {| best := None; recombined := []; pvertex := None;
                        state := [] |} in
      let σ' := set_vertex σ' v (terminal_vertex p) in
      (σ', <[p := stack ++ [v]]> stackMap)
  | _ => (σ, <[p := stack]> stackMap)
  end.

(** The nodes of the tree paired with the addresses of their [pvertex]. *)
Definition addressed_nodes (nodes : list Node) : list (pvptr * Node) :=
  imap (λ i node, (i, node)) nodes.

Definition InitializeStacks (m : Manager) : option Manager :=
  match m_inputTree m with
  | [] => None                          (* assert(!m_inputTree.nodes.empty()) *)
  | nodes =>
      let '(σ, stackMap) :=
        foldl InitializeStacks_node (m_heap m, m_stackMap m)
          (addressed_nodes nodes) in
      Some {| m_source_size := m_source_size m; m_inputTree := m_inputTree m;
              m_stackMap := stackMap; m_heap := σ |}
  end.

(** What the loop has established once it has visited [nodes], started from
    the heap [σ0] and an empty stack map. *)
Definition stacks_initialized (σ0 : Heap) (nodes : list Node)
    (st : Heap * gmap pvptr SVertexStack) : Prop :=
  (∀ v sv, vertices σ0 !! v = Some sv → vertices st.1 !! v = Some sv)
  ∧ hyperedges st.1 = hyperedges σ0
  ∧ (∀ i, (length nodes ≤ i)%nat → st.2 !! i = None)
  ∧ (∀ i node, nodes !! i = Some node →
       match children node with
       | [] => ∃ v, st.2 !! i = Some [v]
                    ∧ vertices st.1 !! v = Some (terminal_vertex i)
                    ∧ vertices σ0 !! v = None
       | _ => st.2 !! i = Some []
       end).

(** ** Decode: rule matching and the glue rule

    The rule trie, the rule matcher, the callback with its bounded container
    and the glue rule synthesizer are declared in headers of their own; the
    part of [Decode] that drives them is embedded over the model below. *)

(** Modelled from the spec: rule patterns.  A pattern either matches at a
    node of the input tree, and then binds the tail of the hyperedge, or it
    does not; the glue rule of a node is "a structural rule guaranteed to
    combine the node's children as-is". *)
Class RulePatterns := {
  Pattern : Type;
  Pattern_eq_dec :: EqDecision Pattern;
  Pattern_countable :: Countable Pattern;
  matches : Pattern → list Node → nat → option (list pvptr);
  glue_pattern : list Node → nat → Pattern;
  glue_pattern_matches : ∀ nodes i node,
    nodes !! i = Some node →
    matches (glue_pattern nodes i) nodes i = Some (children node)
}.

(** A grammar rule, through the score estimate the callback reads. *)
Record Rule := { future_score : Z }.

(** A partial hyperedge: the tail and the rules of the matched pattern. *)
Record PHyperedge := {
  ph_tail : list pvptr;
  ph_translations : list Rule
}.

(** A hyperedge bundle: the stack of each tail position and the rules. *)
Record SHyperedgeBundle := {
  b_stacks : list (list vptr);
  b_translations : list Rule
}.

Section Matching.
Context `{RulePatterns}.

(** Modelled from the spec: the bounded priority container "retains only the
    top [ruleLimit] groupings by an estimated priority" and "exceeding the
    bound evicts the current worst entry"; it is kept in priority order. *)
Fixpoint insert_by_priority (entry : Z * SHyperedgeBundle)
    (container : list (Z * SHyperedgeBundle)) : list (Z * SHyperedgeBundle) :=
  match container with
  | [] => [entry]
  | e :: rest =>
      if e.1 <? entry.1 then entry :: container
      else e :: insert_by_priority entry rest
  end.

Definition SwapIn (limit : nat) (container : list (Z * SHyperedgeBundle))
    (bundle : SHyperedgeBundle) (priority : Z) : list (Z * SHyperedgeBundle) :=
  take limit (insert_by_priority (priority, bundle) container).

(** Modelled from the spec: the callback turns a partial hyperedge into a
    bundle, which pairs each tail position with its result stack, and hands
    it to the container under the estimate of its best score. *)
Definition callback (ruleLimit : nat) (stackMap : gmap pvptr (list vptr))
    (estimate : SHyperedgeBundle → Z)
    (container : list (Z * SHyperedgeBundle)) (hyperedge : PHyperedge)
    : list (Z * SHyperedgeBundle) :=
  let bundle :=
    {| b_stacks := (λ p, default [] (stackMap !! p)) <$> ph_tail hyperedge;
       b_translations := ph_translations hyperedge |} in
  SwapIn ruleLimit container bundle (estimate bundle).

(** Modelled from the spec: the rule matcher "enumerates every grammar rule
    whose pattern matches" at the node and "reports each as a partial
    hyperedge via a callback"; the trie maps each pattern to its rules. *)
Definition EnumerateHyperedges (ruleLimit : nat)
    (stackMap : gmap pvptr (list vptr)) (estimate : SHyperedgeBundle → Z)
    (trie : gmap Pattern (list Rule)) (nodes : list Node) (i : nat)
    (container : list (Z * SHyperedgeBundle)) : list (Z * SHyperedgeBundle) :=
  foldl (λ container entry,
           match matches entry.1 nodes i with
           | Some tail =>
               callback ruleLimit stackMap estimate container
                 {| ph_tail := tail; ph_translations := entry.2 |}
           | None => container
           end)
    container (map_to_list trie).

(** Modelled from the spec: the synthesizer makes "exactly one structural
    rule" for the node and "registers it in a dedicated always-present rule
    trie". *)
Definition SynthesizeRule (glueRuleTrie : gmap Pattern (list Rule))
    (nodes : list Node) (i : nat) : gmap Pattern (list Rule) :=
  <[glue_pattern nodes i := [ {| future_score := 0 |} ]]> glueRuleTrie.

(** Lines 128-144 of [Decode] for the internal node at index [i]: the
    container is cleared, every rule matcher is run, the one over the glue
    rule trie last, and a glue rule is synthesized and matched when nothing
    was found.  The result is the container and the glue rule trie. *)
Definition Decode_match_node (ruleLimit : nat)
    (stackMap : gmap pvptr (list vptr)) (estimate : SHyperedgeBundle → Z)
    (tries : list (gmap Pattern (list Rule)))
    (glueRuleTrie : gmap Pattern (list Rule))
    (nodes : list Node) (i : nat)
    : option (list (Z * SHyperedgeBundle) * gmap Pattern (list Rule)) :=
  let bundles := [] in                                (* ClearContainer() *)
  let bundles :=
    foldl (λ bundles trie,
             EnumerateHyperedges ruleLimit stackMap estimate trie nodes i bundles)
      bundles (tries ++ [glueRuleTrie]) in
  if decide (length bundles = 0%nat) then
    let glueRuleTrie := SynthesizeRule glueRuleTrie nodes i in
    let bundles :=
      EnumerateHyperedges ruleLimit stackMap estimate glueRuleTrie nodes i
        bundles in
    if decide (length bundles = 1%nat)                (* the assert *)
    then Some (bundles, glueRuleTrie)
    else None
  else Some (bundles, glueRuleTrie).

(** The number of trie entries whose pattern matches at the node. *)
Definition matching_count (entries : list (Pattern * list Rule))
    (nodes : list Node) (i : nat) : nat :=
  length (filter (λ entry, is_Some (matches entry.1 nodes i)) entries).

End Matching.

(** ** Decode: the cube-pruning pop loop *)

Section PopLoop.
Context {Q : Type} `{CubeQueueOps Q}.

(** [hyperedge->head->pvertex = &(node.pvertex)]. *)
Definition set_head_pvertex (σ : Heap) (h : hptr) (p : pvptr) : option Heap :=
  e ← hyperedges σ !! h;
  sv ← vertices σ !! head e;
  Some (set_vertex σ (head e) (with_pvertex sv (Some p))).

(** [while (count < popLimit && !cubeQueue.IsEmpty())], by recursion on
    [popLimit - count]. *)
Fixpoint pop_loop (budget : nat) (cubeQueue : Q) (σ : Heap) (p : pvptr)
    (buffer : list hptr) : option (list hptr * Q * Heap) :=
  match budget with
  | O => Some (buffer, cubeQueue, σ)
  | S budget' =>
      if IsEmpty cubeQueue then Some (buffer, cubeQueue, σ)
      else
        let '(hyperedge, cubeQueue', σ') := Pop cubeQueue σ in
        σ'' ← set_head_pvertex σ' hyperedge p;
        pop_loop budget' cubeQueue' σ'' p (buffer ++ [hyperedge])
  end.

(** A queue that creates the hyperedge it yields together with its head
    vertex, and leaves every other vertex and hyperedge as it is. *)
Definition queue_creates : Prop :=
  ∀ (q : Q) σ h q' σ', IsEmpty q = false → Pop q σ = (h, q', σ') →
    (∀ v sv, vertices σ !! v = Some sv → vertices σ' !! v = Some sv)
    ∧ (∀ h0 e0, hyperedges σ !! h0 = Some e0 → hyperedges σ' !! h0 = Some e0)
    ∧ hyperedges σ !! h = None
    ∧ ∀ e, hyperedges σ' !! h = Some e → vertices σ !! head e = None.

End PopLoop.

(** ** RecombineAndSort *)

Section Recombination.
Context `{RecombinationOrderer} `{StdSort}.

(** [std::map<SVertex *, SVertex *, SVertexRecombinationOrderer>]: the
    entries in key order.  Keys are compared through the vertices they point
    to. *)
Abbreviation RecombinationMap := (list (nat * nat)) (only parsing).

(** [map.insert(Map::value_type(v, v))]: the updated map, the mapped value of
    the entry found or created, and whether it was created. *)
Fixpoint map_insert (σ : Heap) (v : vptr) (map : RecombinationMap)
    : option (RecombinationMap * vptr * bool) :=
  match map with
  | [] => Some ([(v, v)], v, true)
  | (key, value) :: map' =>
      sv ← vertices σ !! v;
      sk ← vertices σ !! key;
      if orderer (state sv) (state sk) then Some ((v, v) :: map, v, true)
      else if orderer (state sk) (state sv) then
        '(map'', stored, inserted) ← map_insert σ v map';
        Some ((key, value) :: map'', stored, inserted)
      else Some (map, value, false)
  end.

(** The body of the loop of step 1, for the buffer entry [h]. *)
Definition recombine_step (st : Heap * RecombinationMap) (h : hptr)
    : option (Heap * RecombinationMap) :=
  let '(σ, map) := st in
  eh ← hyperedges σ !! h;
  let v := head eh in
  sv ← vertices σ !! v;
  if decide (best sv = Some h ∧ recombined sv = []) then   (* the two asserts *)
    '(map', storedVertex, inserted) ← map_insert σ v map;
    if inserted : bool then Some (σ, map')
    else
      ss ← vertices σ !! storedVertex;
      hb ← best ss;
      eb ← hyperedges σ !! hb;
      let ss' :=
        if score eb <? score eh
        then with_best (push_recombined ss hb) (Some h)
        else push_recombined ss h in
      let σ := set_vertex σ storedVertex ss' in
      (* h->head->best = 0; *)
      eh ← hyperedges σ !! h;
      sv ← vertices σ !! head eh;
      let σ := set_vertex σ (head eh) (with_best sv None) in
      (* delete h->head; *)
      σ ← delete_vertex σ (head eh);
      (* h->head = storedVertex; *)
      eh ← hyperedges σ !! h;
      let σ := set_hyperedge σ h (with_head eh storedVertex) in
      Some (σ, map')
  else None.

Fixpoint recombine_loop (st : Heap * RecombinationMap) (buffer : list hptr)
    : option (Heap * RecombinationMap) :=
  match buffer with
  | [] => Some st
  | h :: rest => st' ← recombine_step st h; recombine_loop st' rest
  end.

(** Modelled from the spec: [SVertexStackContentOrderer], declared with
    [SVertexStack]; the stack is sorted "by descending best-hyperedge score",
    so a vertex is ordered before another when its best score is greater. *)
Definition SVertexStackContentOrderer (x y : vptr * Z) : bool :=
  x.2 >? y.2.

(** Step 3.  The comparison object reads [x->best->score]; on a range of
    fewer than two elements [std::sort] compares nothing. *)
Definition sort_stack (σ : Heap) (stack : SVertexStack) : option SVertexStack :=
  if decide (length stack ≤ 1)%nat then Some stack
  else
    scored ← mapM (λ v, s ← best_score σ v; Some (v, s)) stack;
    Some ((std_sort SVertexStackContentOrderer scored).*1).

(** [stack] is what the stack passed in holds on entry: step 2 clears it,
    which destroys its elements, before the keys of the map are copied to
    it. *)
Definition RecombineAndSort (σ : Heap) (buffer : list hptr)
    (stack : SVertexStack) : option (Heap * SVertexStack) :=
  '(σ, map) ← recombine_loop (σ, []) buffer;
  σ ← release_stack σ stack;                          (* stack.clear() *)
  let stack := map.*1 in
  stack ← sort_stack σ stack;
  Some (σ, stack).

(** [stack.resize(n)] on a stack of more than [n] elements: the elements
    beyond the first [n] are destroyed. *)
Definition resize_stack (σ : Heap) (stack : SVertexStack) (n : nat)
    : option (Heap * SVertexStack) :=
  σ ← release_stack σ (drop n stack);
  Some (σ, take n stack).

(** Lines 161-168 of [Decode]: recombine the buffer into the node's stack,
    then prune the stack,
    [if (stackLimit > 0 && stack.size() > stackLimit) stack.resize(stackLimit)]. *)
Definition RecombineSortPrune (stackLimit : nat) (σ : Heap)
    (buffer : list hptr) (stack : SVertexStack)
    : option (Heap * SVertexStack) :=
  '(σ, stack) ← RecombineAndSort σ buffer stack;
  if decide (0 < stackLimit ∧ stackLimit < length stack)%nat
  then resize_stack σ stack stackLimit
  else Some (σ, stack).

(** The vertices that the pruning step keeps of a stack. *)
Definition PruneStack (stackLimit : nat) (stack : SVertexStack) : SVertexStack :=
  if decide (0 < stackLimit ∧ stackLimit < length stack)%nat
  then take stackLimit stack
  else stack.

(** *** The buffer and the map, read as items and classes

    The definitions below are the vocabulary of the statements about
    [RecombineAndSort]: what a buffer entry is on entry, and what a map entry
    stands for. *)

(** A buffer entry as the cube queue hands it over: the hyperedge, its own
    head vertex, that vertex's state and the hyperedge's score. *)
Record Item := { ih : hptr; iv : vptr; ist : FFStates; isc : Z }.

Definition item_at (σ : Heap) (h : hptr) : option Item :=
  e ← hyperedges σ !! h;
  sv ← vertices σ !! head e;
  Some {| ih := h; iv := head e; ist := state sv; isc := score e |}.

(** The state of the head vertex of [h] on entry: the recombination class of
    [h]. *)
Definition edge_state (σ : Heap) (h : hptr) : option FFStates :=
  ist <$> item_at σ h.

Definition edge_score (σ : Heap) (h : hptr) : option Z :=
  isc <$> item_at σ h.

(** [h] falls in the class of the state [st]. *)
Definition in_class (σ : Heap) (st : FFStates) (h : hptr) : bool :=
  match edge_state σ h with
  | Some st' => negb (orderer st' st) && negb (orderer st st')
  | None => false
  end.

(** The two assertions at the head of the loop hold for every entry, and no
    hyperedge is listed twice. *)
Definition fresh_buffer (σ : Heap) (buffer : list hptr) : Prop :=
  NoDup buffer
  ∧ ∀ h, h ∈ buffer →
      ∃ e sv, hyperedges σ !! h = Some e ∧ vertices σ !! head e = Some sv
              ∧ best sv = Some h ∧ recombined sv = [].

(** A map entry together with what its vertex holds. *)
Record Class := {
  c_rep : vptr; c_state : FFStates; c_best : hptr; c_score : Z;
  c_rec : list hptr
}.

Definition new_class (it : Item) : Class :=
  {| c_rep := iv it; c_state := ist it; c_best := ih it; c_score := isc it;
     c_rec := [] |}.

Definition merge_class (it : Item) (c : Class) : Class :=
  if c_score c <? isc it
  then {| c_rep := c_rep c; c_state := c_state c; c_best := ih it;
          c_score := isc it; c_rec := c_rec c ++ [c_best c] |}
  else {| c_rep := c_rep c; c_state := c_state c; c_best := c_best c;
          c_score := c_score c; c_rec := c_rec c ++ [ih it] |}.

Fixpoint class_insert (it : Item) (cs : list Class) : list Class :=
  match cs with
  | [] => [new_class it]
  | c :: cs' =>
      if orderer (ist it) (c_state c) then new_class it :: cs
      else if orderer (c_state c) (ist it) then c :: class_insert it cs'
      else merge_class it c :: cs'
  end.

Definition classes_of (items : list Item) : list Class :=
  foldl (λ cs it, class_insert it cs) [] items.

Definition map_of (cs : list Class) : list (vptr * vptr) :=
  (λ c, (c_rep c, c_rep c)) <$> cs.

(** What the map stands for once the items [done] have been merged: the
    classes are in strictly increasing state order, every item has its class,
    and each class holds exactly the items of its state, the best-scoring one
    as [c_best]. *)
Definition class_ok (done : list Item) (c : Class) : Prop :=
  c_best c :: c_rec c
    ≡ₚ ih <$> filter (λ it, equivalent (ist it) (c_state c)) done
  ∧ (∃ it, it ∈ done ∧ ih it = c_best c ∧ isc it = c_score c
           ∧ equivalent (ist it) (c_state c))
  ∧ (∀ it, it ∈ done → equivalent (ist it) (c_state c) → isc it ≤ c_score c)
  ∧ (∃ it, it ∈ done ∧ iv it = c_rep c ∧ ist it = c_state c).

Definition classes_ok (done : list Item) (cs : list Class) : Prop :=
  StronglySorted (λ s1 s2, orderer s1 s2 = true) (c_state <$> cs)
  ∧ (∀ it, it ∈ done → ∃ c, c ∈ cs ∧ equivalent (ist it) (c_state c))
  ∧ Forall (class_ok done) cs.

(** The heap holds the class [c] at its representative vertex. *)
Definition holds_class (σ : Heap) (c : Class) : Prop :=
  (∃ pv, vertices σ !! c_rep c
         = Some {| best := Some (c_best c); recombined := c_rec c;
                   pvertex := pv; state := c_state c |})
  ∧ (∃ e, hyperedges σ !! c_best c = Some e ∧ score e = c_score c).

(** The heap holds the item [it] as it was on entry. *)
Definition holds_item (σ : Heap) (it : Item) : Prop :=
  ∃ e pv, hyperedges σ !! ih it = Some e ∧ head e = iv it ∧ score e = isc it
    ∧ vertices σ !! iv it
      = Some {| best := Some (ih it); recombined := []; pvertex := pv;
                state := ist it |}.

(** The loop state [(σ, map)] in front of the buffer entries [todo]. *)
Definition represents (σ : Heap) (map : list (vptr * vptr))
    (cs : list Class) (todo : list Item) : Prop :=
  map = map_of cs
  ∧ Forall (holds_class σ) cs
  ∧ Forall (holds_item σ) todo
  ∧ NoDup (c_rep <$> cs)
  ∧ (∀ c it, c ∈ cs → it ∈ todo → c_rep c ≠ iv it).

(** The map entries paired with the scores the comparison object reads. *)
Definition scored_classes (cs : list Class) : list (vptr * Z) :=
  (λ c, (c_rep c, c_score c)) <$> cs.

(** The stack lists its vertices by descending best-hyperedge score. *)
Definition sorted_by_score (σ : Heap) (stack : SVertexStack) : Prop :=
  ∃ scores, Forall2 (λ v s, best_score σ v = Some s) stack scores
            ∧ StronglySorted Z.ge scores.

(** Lines 161-168 of [Decode] on the manager: [stack] is a reference to
    [m_stackMap[&(node.pvertex)]], so that the stack stored under the
    address [p] of the node's [pvertex] is replaced by the recombined, sorted
    and pruned one. *)
Definition Decode_store_stack (stackLimit : nat) (m : Manager) (p : pvptr)
    (buffer : list hptr) : option Manager :=
  let stack := default [] (m_stackMap m !! p) in
  '(σ', stack) ← RecombineSortPrune stackLimit (m_heap m) buffer stack;
  Some {| m_source_size := m_source_size m; m_inputTree := m_inputTree m;
          m_stackMap := <[p := stack]> (m_stackMap m); m_heap := σ' |}.

(** [v] is, on entry, the head vertex of a hyperedge of the buffer. *)
Definition entry_head (σ : Heap) (buffer : list hptr) (v : vptr) : Prop :=
  ∃ h e, h ∈ buffer ∧ hyperedges σ !! h = Some e ∧ head e = v.

(** The hyperedges owned by the vertices of a stack. *)
Definition owned_by (σ : Heap) (stack : SVertexStack) : list hptr :=
  stack ≫= λ v, from_option owned [] (vertices σ !! v).

(** The heap without the hyperedges [hs], and without the vertices of a
    stack and the hyperedges they own. *)
Definition without_hyperedges (σ : Heap) (hs : list hptr) : Heap :=
  {| vertices := vertices σ; hyperedges := foldr delete (hyperedges σ) hs |}.

Definition released (σ : Heap) (stack : SVertexStack) : Heap :=
  {| vertices := foldr delete (vertices σ) stack;
     hyperedges := foldr delete (hyperedges σ) (owned_by σ stack) |}.

(** The elements of [stack] can be destroyed: its vertices are allocated
    and pairwise distinct, and so are the hyperedges they own. *)
Definition releasable (σ : Heap) (stack : SVertexStack) : Prop :=
  NoDup stack
  ∧ (∀ v, v ∈ stack → is_Some (vertices σ !! v))
  ∧ NoDup (owned_by σ stack)
  ∧ (∀ h, h ∈ owned_by σ stack → is_Some (hyperedges σ !! h)).

(** The stack handed to [RecombineAndSort] can be cleared, and clearing it
    leaves the buffer alone: none of its vertices is the head of a
    hyperedge of the buffer, and none of them owns one. *)
Definition clearable (σ : Heap) (buffer : list hptr) (stack : SVertexStack)
    : Prop :=
  releasable σ stack
  ∧ (∀ v, v ∈ stack → ¬ entry_head σ buffer v)
  ∧ (∀ h, h ∈ owned_by σ stack → h ∉ buffer).

(** What the loop of step 1 leaves alone, whatever the buffer holds: [σ] is
    the heap on entry, [σ'] the heap and [map] the map at some later point of
    the loop. *)
Definition untouched (σ : Heap) (buffer : list hptr) (σ' : Heap)
    (map : list (vptr * vptr)) : Prop :=
  dom (hyperedges σ') = dom (hyperedges σ)
  ∧ (∀ h e, hyperedges σ !! h = Some e →
       ∃ e', hyperedges σ' !! h = Some e'
         ∧ score e' = score e ∧ tail e' = tail e
         ∧ (h ∉ buffer → e' = e)
         ∧ (h ∈ buffer → entry_head σ buffer (head e')))
  ∧ (∀ v sv', vertices σ' !! v = Some sv' →
       ∃ sv, vertices σ !! v = Some sv
         ∧ state sv' = state sv ∧ pvertex sv' = pvertex sv)
  ∧ (∀ v, ¬ entry_head σ buffer v → vertices σ' !! v = vertices σ !! v)
  ∧ Forall (λ kv, entry_head σ buffer kv.1 ∧ entry_head σ buffer kv.2) map.

(** Where the hyperedges and the head vertices of the items [done] have
    gone: each hyperedge points to the vertex of its class, and each head
    vertex either stands for a class or has been deleted. *)
Definition heads_ok (σ : Heap) (cs : list Class) (done : list Item) : Prop :=
  ∀ it, it ∈ done →
    (∃ e c, hyperedges σ !! ih it = Some e ∧ c ∈ cs ∧ head e = c_rep c
            ∧ equivalent (ist it) (c_state c))
    ∧ ((∃ c, c ∈ cs ∧ c_rep c = iv it) ∨ vertices σ !! iv it = None).

End Recombination.

(** ** InitializeRuleMatchers and Decode *)

Section Decoding.
Context `{RulePatterns} `{RecombinationOrderer} `{StdSort}.
Context {Q : Type} `{CubeQueueOps Q}.

(** What [ff->GetTable()] points to when it is not null: a [RuleTrie], or a
    rule table of another class, on which the [dynamic_cast] yields null. *)
Inductive RuleTable :=
  | RuleTrieTable (trie : gmap Pattern (list Rule))
  | OtherRuleTable.

(** The trie a rule matcher was constructed over: the table of the
    [RuleTableFF] at index [i], or the glue rule trie that [m_glueRuleTrie]
    owned at the time. *)
Inductive TrieRef :=
  | TableTrie (i : nat)
  | GlueTrie.

(** The members of the manager that hold the rule matchers.
    [m_glueRuleMatcher] points to an element of [m_ruleMatchers] and is kept
    as its index; a null pointer is [None]. *)
Record Matchers := {
  m_ruleMatchers : list TrieRef;
  m_glueRuleTrie : option (gmap Pattern (list Rule));
  m_glueRuleMatcher : option nat
}.

(** The members as the constructor leaves them. *)
Definition no_matchers : Matchers :=
  {| m_ruleMatchers := []; m_glueRuleTrie := None; m_glueRuleMatcher := None |}.

(** The body of the loop over [RuleTableFF::Instances()], with its two
    assertions. *)
Definition InitializeRuleMatchers_ff (matchers : list TrieRef)
    (entry : nat * option RuleTable) : option (list TrieRef) :=
  let '(i, table) := entry in
  match table with
  | None => None                                      (* assert(table) *)
  | Some OtherRuleTable => None                       (* assert(trie) *)
  | Some (RuleTrieTable _) => Some (matchers ++ [TableTrie i])
  end.

Fixpoint InitializeRuleMatchers_loop (matchers : list TrieRef)
    (entries : list (nat * option RuleTable)) : option (list TrieRef) :=
  match entries with
  | [] => Some matchers
  | entry :: rest =>
      matchers' ← InitializeRuleMatchers_ff matchers entry;
      InitializeRuleMatchers_loop matchers' rest
  end.

(** [ffs] holds, for each instance of [RuleTableFF], what [GetTable()]
    returns.  [m_glueRuleTrie.reset] destroys the trie owned so far and
    takes a new, empty one. *)
Definition InitializeRuleMatchers (ffs : list (option RuleTable))
    (rm : Matchers) : option Matchers :=
  matchers ← InitializeRuleMatchers_loop (m_ruleMatchers rm)
                (imap (λ i ff, (i, ff)) ffs);
  _ ← ffs !! 0%nat;                                   (* ffs[0] *)
  Some {| m_ruleMatchers := matchers ++ [GlueTrie];
          m_glueRuleTrie := Some ∅;
          m_glueRuleMatcher := Some (length matchers) |}.

(** The tries of the rule tables that are [RuleTrie]s, in the order of the
    instances. *)
Definition table_tries (ffs : list (option RuleTable))
    : list (gmap Pattern (list Rule)) :=
  omap (λ ff, match ff with
              | Some (RuleTrieTable trie) => Some trie
              | _ => None
              end) ffs.

(** The matchers once the glue rule trie has been written to. *)
Definition with_glue (rm : Matchers) (glue : gmap Pattern (list Rule))
    : Matchers :=
  {| m_ruleMatchers := m_ruleMatchers rm; m_glueRuleTrie := Some glue;
     m_glueRuleMatcher := m_glueRuleMatcher rm |}.

(** [popLimit], [ruleLimit] and [stackLimit] of [StaticData], the score
    estimate of the callback, the constructor of [CubeQueue] over the
    bundles of the container, and the rule tables. *)
Variables popLimit ruleLimit stackLimit : nat.
Variable estimate : SHyperedgeBundle → Z.
Variable CubeQueue_new : list SHyperedgeBundle → Q.
Variable ffs : list (option RuleTable).

(** The trie that the matcher at index [q] of [m_ruleMatchers] reads.  A
    matcher over a glue rule trie reads a live object only while
    [m_glueRuleTrie] still owns that trie, that is while [m_glueRuleMatcher]
    points to this matcher. *)
Definition matcher_trie (rm : Matchers) (q : nat) (ref : TrieRef)
    : option (gmap Pattern (list Rule)) :=
  match ref with
  | TableTrie i =>
      match ffs !! i with
      | Some (Some (RuleTrieTable trie)) => Some trie
      | _ => None
      end
  | GlueTrie =>
      if decide (m_glueRuleMatcher rm = Some q) then m_glueRuleTrie rm
      else None
  end.

(** Lines 128-144 of [Decode] over the matchers of the manager. *)
Definition Decode_match (stackMap : gmap pvptr (list vptr)) (rm : Matchers)
    (nodes : list Node) (i : nat)
    : option (list (Z * SHyperedgeBundle) * Matchers) :=
  tries ← mapM (λ entry, matcher_trie rm entry.1 entry.2)
             (imap (λ q ref, (q, ref)) (m_ruleMatchers rm));
  let bundles :=
    foldl (λ bundles trie,
             EnumerateHyperedges ruleLimit stackMap estimate trie nodes i bundles)
      [] tries in
  if decide (length bundles = 0%nat) then
    glue ← m_glueRuleTrie rm;
    let rm := {| m_ruleMatchers := m_ruleMatchers rm;
                 m_glueRuleTrie := Some (SynthesizeRule glue nodes i);
                 m_glueRuleMatcher := m_glueRuleMatcher rm |} in
    q ← m_glueRuleMatcher rm;
    ref ← m_ruleMatchers rm !! q;
    trie ← matcher_trie rm q ref;
    let bundles :=
      EnumerateHyperedges ruleLimit stackMap estimate trie nodes i bundles in
    if decide (length bundles = 1%nat)                (* the assert *)
    then Some (bundles, rm)
    else None
  else Some (bundles, rm).

(** Every vertex and hyperedge of [σ] is in [σ'] as it is in [σ]. *)
Definition adds_only (σ σ' : Heap) : Prop :=
  (∀ v sv, vertices σ !! v = Some sv → vertices σ' !! v = Some sv)
  ∧ (∀ h e, hyperedges σ !! h = Some e → hyperedges σ' !! h = Some e).

(** What [Decode] relies on in the stack of the node whose [pvertex] is at
    [p]: no vertex twice, vertices by descending best-hyperedge score, each
    one allocated, with a best hyperedge, and referring back to the node. *)
Definition stack_ok (σ : Heap) (p : pvptr) (stack : SVertexStack) : Prop :=
  NoDup stack ∧ sorted_by_score σ stack
  ∧ ∀ v, v ∈ stack →
      ∃ sv hb, vertices σ !! v = Some sv ∧ pvertex sv = Some p
               ∧ best sv = Some hb.

(** What the loop of [Decode] updates. *)
Record DecodeState := {
  d_heap : Heap;
  d_stackMap : gmap pvptr (list vptr);
  d_matchers : Matchers
}.

(** The stacks of the internal nodes among [entries] are empty, as
    [InitializeStacks] leaves them on a stack map that was empty. *)
Definition unvisited_empty (st : DecodeState) (entries : list (pvptr * Node))
    : Prop :=
  ∀ p node, (p, node) ∈ entries → children node ≠ [] →
    default [] (d_stackMap st !! p) = [].

(** The body of the loop over the nodes, lines 117-168; [p] is the address
    of the node's [pvertex]. *)
Definition Decode_node (nodes : list Node) (st : DecodeState)
    (entry : pvptr * Node) : option DecodeState :=
  let '(p, node) := entry in
  match children node with
  | [] => Some st                                     (* continue *)
  | _ :: _ =>
      '(bundles, rm) ← Decode_match (d_stackMap st) (d_matchers st) nodes p;
      let cubeQueue := CubeQueue_new (bundles.*2) in
      '(buffer, _, σ) ← pop_loop popLimit cubeQueue (d_heap st) p [];
      let stack := default [] (d_stackMap st !! p) in (* m_stackMap[&pvertex] *)
      '(σ, stack) ← RecombineSortPrune stackLimit σ buffer stack;
      Some {| d_heap := σ; d_stackMap := <[p := stack]> (d_stackMap st);
              d_matchers := rm |}
  end.

Fixpoint Decode_loop (nodes : list Node) (st : DecodeState)
    (entries : list (pvptr * Node)) : option DecodeState :=
  match entries with
  | [] => Some st
  | entry :: rest =>
      st' ← Decode_node nodes st entry; Decode_loop nodes st' rest
  end.

(** [inputTree] is the tree that [InputTreeBuilder::Build] leaves in
    [m_inputTree]. *)
Definition Decode (m : Manager) (rm : Matchers) (inputTree : list Node)
    : option (Manager * Matchers) :=
  let m := {| m_source_size := m_source_size m; m_inputTree := inputTree;
              m_stackMap := m_stackMap m; m_heap := m_heap m |} in
  m ← InitializeStacks m;
  rm ← InitializeRuleMatchers ffs rm;
  st ← Decode_loop (m_inputTree m)
         {| d_heap := m_heap m; d_stackMap := m_stackMap m; d_matchers := rm |}
         (addressed_nodes (m_inputTree m));
  Some ({| m_source_size := m_source_size m; m_inputTree := m_inputTree m;
           m_stackMap := d_stackMap st; m_heap := d_heap st |},
        d_matchers st).

End Decoding.

(** ** Exceptions and outcomes *)

(** [std::vector<T>::max_size()] for the two element types of which the
    manager sizes a vector; the library's implementation fixes the values.
    A constructor or a [reserve] that is asked for more elements throws
    [std::length_error].  A request within [max_size()] is taken to be
    served, like every [new] of the manager. *)
Class VectorLimits := {
  offsets_max_size : Z;     (* std::vector<std::size_t>::max_size() *)
  kbest_max_size : Z        (* KBestExtractor::KBestVec::max_size() *)
}.

(** What [OutputAlignmentNBest] throws: at one of its three
    [UTIL_THROW_IF2] sites, or [std::length_error] where it constructs its
    two offset vectors. *)
Inductive Error :=
  | CountMismatch            (* sourceInd2pos.size() != subderivations.size() *)
  | MissingNonTermIndex      (* targetPos >= targetPos2SourceInd.size() *)
  | DuplicateAlignmentPoint  (* !ret.second *)
  | OffsetsLengthError.      (* std::vector<std::size_t>(n, 0), n > max_size() *)

(** How a call ends: it returns, it throws, or it indexes a vector out of
    range, which the language leaves undefined. *)
Inductive Outcome (A : Type) :=
  | Returned (a : A)
  | Thrown (e : Error)
  | Undefined.
Arguments Returned {A} a.
Arguments Thrown {A} e.
Arguments Undefined {A}.

(** What [ExtractKBest] and the output functions throw: the check of the
    output phrase in [OutputNBestList], what [OutputAlignmentNBest] throws,
    and [std::length_error] from [bigList.reserve] in [ExtractKBest]. *)
Inductive OutputError :=
  | ShortOutputPhrase                  (* outputPhrase.GetSize() < 2 *)
  | AlignmentError (e : Error)
  | ReserveLengthError.                (* bigList.reserve(n), n > max_size() *)

(** How [ExtractKBest] or an output function ends: it completes, it throws,
    or it reads through a null pointer or fails an assertion. *)
Inductive Completion (A : Type) :=
  | Completed (a : A)
  | Threw (e : OutputError)
  | Failed.
Arguments Completed {A} a.
Arguments Threw {A} e.
Arguments Failed {A}.

(** ** ExtractKBest *)

Section KBest.
Context {Phrase : Type} `{Countable Phrase} `{VectorLimits}.

(** [KBestExtractor::Extract(stack, k, out)]: up to [k] derivations of the
    stack, best first. *)
Variable Extract : SVertexStack → Z → list Derivation.
(** [KBestExtractor::GetOutputPhrase]. *)
Variable GetOutputPhrase : Derivation → Phrase.
(** [StaticData::GetNBestFactor()]. *)
Variable nBestFactor : Z.

(** The copy loop of the distinct branch: [distinct] is the
    [std::set<Phrase>], [kBestList] the output built so far. *)
Fixpoint copy_distinct (k : Z) (bigList : list Derivation)
    (distinct : gset Phrase) (kBestList : list Derivation) : list Derivation :=
  match bigList with
  | [] => kBestList
  | derivation :: rest =>
      if Z.of_nat (length kBestList) <? k then
        let translation := GetOutputPhrase derivation in
        if decide (translation ∈ distinct)
        then copy_distinct k rest distinct kBestList
        else copy_distinct k rest ({[translation]} ∪ distinct)
               (kBestList ++ [derivation])
      else kBestList
  end.

(** The stack of the root node, [m_inputTree.nodes.back()], with the two
    assertions that follow the lookup. *)
Definition root_stack (m : Manager) : option SVertexStack :=
  match m_inputTree m with
  | [] => None
  | _ => match m_stackMap m !! (length (m_inputTree m) - 1)%nat with
         | None => None                            (* p != m_stackMap.end() *)
         | Some [] => None                         (* !stack.empty() *)
         | Some stack => Some stack
         end
  end.

Definition numDerivations (k : Z) : Z :=
  if nBestFactor =? 0 then size_mul k 1000 else size_mul k nBestFactor.

(** [kBestList0] is the content of the output vector on entry.  In the
    distinct branch [bigList.reserve(numDerivations)] comes before the
    extraction and throws when [numDerivations] exceeds what the vector can
    hold. *)
Definition ExtractKBest (m : Manager) (k : Z) (kBestList0 : list Derivation)
    (onlyDistinct : bool) : Completion (list Derivation) :=
  let kBestList := @nil Derivation in              (* kBestList.clear() *)
  if (k =? 0) || (m_source_size m =? 0) then Completed kBestList
  else
    match root_stack m with
    | None => Failed                               (* the two assertions *)
    | Some stack =>
        if negb onlyDistinct then Completed (Extract stack k)
        else if decide (kbest_max_size < numDerivations k)
        then Threw ReserveLengthError              (* bigList.reserve *)
        else
          let bigList := Extract stack (numDerivations k) in
          Completed (copy_distinct k bigList ∅ kBestList)
    end.

(** The distinct filter in the words of the specification: scan in order and
    keep the first occurrence of each distinct surface string. *)
Fixpoint first_occurrences (l : list Derivation) : list Derivation :=
  match l with
  | [] => []
  | d :: rest =>
      d :: filter (λ d', GetOutputPhrase d' ≠ GetOutputPhrase d)
             (first_occurrences rest)
  end.

End KBest.

(** ** GetBestSHyperedge *)

(** [stack[0]->best] of the root stack, after the two assertions; the inner
    option is the pointer returned, which is null for a vertex without an
    incoming hyperedge. *)
Definition GetBestSHyperedge (m : Manager) : option (option hptr) :=
  stack ← root_stack m;
  v ← stack !! 0%nat;
  sv ← vertices (m_heap m) !! v;
  Some (best sv).

(** The number of terminal nodes of a tree. *)
Definition terminal_count (nodes : list Node) : nat :=
  length (filter (λ node, children node = []) nodes).

(** ** CalcSourceSize *)

(** The loop [ret -= (childSize - 1)] over the tail, in [std::size_t]. *)
Fixpoint CalcSourceSize_loop (ret : Z) (tail_spans : list Span) : Z :=
  match tail_spans with
  | [] => ret
  | sp :: rest =>
      let childSize := GetNumWordsCovered sp in
      CalcSourceSize_loop (size_sub ret (size_sub childSize 1)) rest
  end.

Definition CalcSourceSize (d : Derivation) : Z :=
  let ret := to_size_t (GetNumWordsCovered (d_head_span d)) in
  CalcSourceSize_loop ret (d_tail_spans d).

(** The same quantity in unbounded integers, as the specification words it:
    the head's covered word count minus the sum over the tail of
    (child covered count - 1). *)
Definition source_symbols (d : Derivation) : Z :=
  GetNumWordsCovered (d_head_span d)
  - foldr Z.add 0 ((λ sp, GetNumWordsCovered sp - 1) <$> d_tail_spans d).

(** ** OutputAlignmentNBest *)

(** [BaseManager::ShiftOffsets], which rewrites a vector of offsets in place:
    the vector keeps its size. *)
Class OffsetShifter := {
  ShiftOffsets : list Z → Z → list Z;
  ShiftOffsets_length : ∀ offsets shift,
    length (ShiftOffsets offsets shift) = length offsets
}.

Section Alignment.
Context `{OffsetShifter} `{VectorLimits}.

(** The state of the loop over target positions: the alignment set, the two
    offset vectors and [totalTargetSize]. *)
Record LoopState := {
  ls_align : gset (Z * Z);
  ls_sourceOffsets : list Z;
  ls_targetOffsets : list Z;
  ls_total : Z
}.


(** The loop over the target positions from [targetPos] on.  [sub_calls]
    holds the recursive call for each sub-derivation and [sub_sizes] the
    covered word count of each sub-derivation's head. *)
Fixpoint target_loop (tp : TargetPhrase)
    (sub_calls : list (gset (Z * Z) → Z → Outcome (gset (Z * Z) * Z)))
    (sub_sizes : list Z) (startTarget : Z)
    (words : list bool) (targetPos : nat) (st : LoopState)
    : Outcome LoopState :=
  match words with
  | [] => Returned st
  | true :: rest =>
      if decide (length (nonTermIndexMap tp) ≤ targetPos)%nat
      then Thrown MissingNonTermIndex
      else
        match nonTermIndexMap tp !! targetPos with
        | None => Undefined
        | Some sourceInd =>
            match sourceIndex2Pos tp !! sourceInd,
                  sub_calls !! sourceInd, sub_sizes !! sourceInd with
            | Some sourcePos, Some call, Some sourceSize =>
                if decide (sourcePos < length (ls_sourceOffsets st))%nat then
                  let sourceOffsets :=
                    <[sourcePos := sourceSize]> (ls_sourceOffsets st) in
                  let currStartTarget :=
                    to_size_t (startTarget + ls_total st) in
                  match call (ls_align st) currStartTarget with
                  | Returned (retAlign, targetSize) =>
                      target_loop tp sub_calls sub_sizes startTarget rest
                        (S targetPos)
                        {| ls_align := retAlign;
                           ls_sourceOffsets := sourceOffsets;
                           ls_targetOffsets :=
                             <[targetPos := targetSize]> (ls_targetOffsets st);
                           ls_total := to_size_t (ls_total st + targetSize) |}
                  | Thrown e => Thrown e
                  | Undefined => Undefined
                  end
                else Undefined
            | _, _, _ => Undefined
            end
        end
  | false :: rest =>
      target_loop tp sub_calls sub_sizes startTarget rest (S targetPos)
        {| ls_align := ls_align st;
           ls_sourceOffsets := ls_sourceOffsets st;
           ls_targetOffsets := ls_targetOffsets st;
           ls_total := to_size_t (ls_total st + 1) |}
  end.

(** The loop over the terminal alignments of the rule. *)
Fixpoint insert_alignments (aiTerm : list (nat * nat))
    (sourceOffsets targetOffsets : list Z) (retAlign : gset (Z * Z))
    : Outcome (gset (Z * Z)) :=
  match aiTerm with
  | [] => Returned retAlign
  | (relSource, relTarget) :: rest =>
      match sourceOffsets !! relSource, targetOffsets !! relTarget with
      | Some absSource, Some absTarget =>
          if decide ((absSource, absTarget) ∈ retAlign)
          then Thrown DuplicateAlignmentPoint
          else insert_alignments rest sourceOffsets targetOffsets
                 ({[(absSource, absTarget)]} ∪ retAlign)
      | _, _ => Undefined
      end
  end.

(** The two offset vectors are constructed, with [thisSourceSize] and
    [tp.GetSize()] elements, before the count of the sub-derivations is
    checked; [CalcSourceSize] may have wrapped around. *)
Fixpoint OutputAlignmentNBest (derivation : Derivation)
    (retAlign : gset (Z * Z)) (startTarget : Z)
    : Outcome (gset (Z * Z) * Z) :=
  match derivation with
  | MkDerivation head_span tail_spans tp khead_span subs =>
      let startSource := GetStartPos head_span in
      let thisSourceSize := CalcSourceSize derivation in
      if decide (offsets_max_size < thisSourceSize
                 ∨ offsets_max_size < Z.of_nat (length (tp_words tp)))
      then Thrown OffsetsLengthError
      else
      let sourceOffsets := replicate (Z.to_nat thisSourceSize) 0 in
      let targetOffsets := replicate (length (tp_words tp)) 0 in
      if decide (length (sourceIndex2Pos tp) ≠ length subs)
      then Thrown CountMismatch
      else
        match target_loop tp (OutputAlignmentNBest <$> subs)
                ((λ sub, GetNumWordsCovered (d_khead_span sub)) <$> subs)
                startTarget (tp_words tp) 0
                {| ls_align := retAlign; ls_sourceOffsets := sourceOffsets;
                   ls_targetOffsets := targetOffsets; ls_total := 0 |} with
        | Returned st =>
            let sourceOffsets :=
              ShiftOffsets (ls_sourceOffsets st) startSource in
            let targetOffsets :=
              ShiftOffsets (ls_targetOffsets st) startTarget in
            match insert_alignments (alignTerm tp) sourceOffsets targetOffsets
                    (ls_align st) with
            | Returned retAlign => Returned (retAlign, ls_total st)
            | Thrown e => Thrown e
            | Undefined => Undefined
            end
        | Thrown e => Thrown e
        | Undefined => Undefined
        end
  end.

End Alignment.

(** *** Consistent and inconsistent derivations *)

(** The length a target word contributes: 1 for a terminal, the length of
    the sub-derivation it stands for otherwise. *)
Definition word_length (tp : TargetPhrase) (sub_lengths : list Z)
    (targetPos : nat) (nonTerminal : bool) : Z :=
  if nonTerminal
  then default 0 (sourceInd ← nonTermIndexMap tp !! targetPos;
                  sub_lengths !! sourceInd)
  else 1.

(** The total target length of a derivation: the number of terminal words of
    its yield. *)
Fixpoint target_length (d : Derivation) : Z :=
  match d with
  | MkDerivation _ _ tp _ subs =>
      foldr Z.add 0 (imap (word_length tp (target_length <$> subs)) (tp_words tp))
  end.

(** The alignment points a target word contributes: none for a terminal,
    those of the sub-derivation it stands for otherwise. *)
Definition word_points (tp : TargetPhrase) (sub_points : list nat)
    (targetPos : nat) (nonTerminal : bool) : nat :=
  if nonTerminal
  then default 0%nat (sourceInd ← nonTermIndexMap tp !! targetPos;
                      sub_points !! sourceInd)
  else 0%nat.

(** The number of terminal alignments of the rules that the recursion
    visits, each sub-derivation counted once for every non-terminal target
    word that stands for it. *)
Fixpoint point_count (d : Derivation) : nat :=
  match d with
  | MkDerivation _ _ tp _ subs =>
      (length (alignTerm tp)
       + foldr Nat.add 0
           (imap (word_points tp (point_count <$> subs)) (tp_words tp)))%nat
  end.

(** The target position is one the loop passes: a terminal, or a
    non-terminal whose indices are all in range and whose sub-derivation
    satisfies [sub_ok]. *)
Definition pos_ok (tp : TargetPhrase) (sourceSize : nat) (sub_ok : list Prop)
    (targetPos : nat) (nonTerminal : bool) : Prop :=
  nonTerminal = false
  ∨ ∃ sourceInd sourcePos P,
      nonTermIndexMap tp !! targetPos = Some sourceInd
      ∧ sourceIndex2Pos tp !! sourceInd = Some sourcePos
      ∧ (sourcePos < sourceSize)%nat
      ∧ sub_ok !! sourceInd = Some P ∧ P.

(** The target position is one at which the loop throws for a reason other
    than a colliding point: a non-terminal outside the non-terminal index
    map, or one whose sub-derivation is itself inconsistent. *)
Definition pos_error (tp : TargetPhrase) (sourceSize : nat)
    (sub_error : list Prop) (targetPos : nat) (nonTerminal : bool) : Prop :=
  nonTerminal = true
  ∧ ((length (nonTermIndexMap tp) ≤ targetPos)%nat
     ∨ ∃ sourceInd sourcePos P,
         nonTermIndexMap tp !! targetPos = Some sourceInd
         ∧ sourceIndex2Pos tp !! sourceInd = Some sourcePos
         ∧ (sourcePos < sourceSize)%nat
         ∧ sub_error !! sourceInd = Some P ∧ P).

(** A derivation is consistent when, at every derivation the recursion
    reaches, the rule has as many source non-terminals as there are
    sub-derivations, every non-terminal target position is covered by the
    non-terminal index map, and every index used is in range. *)
Fixpoint consistent (d : Derivation) : Prop :=
  match d with
  | MkDerivation _ _ tp _ subs =>
      let sourceSize := Z.to_nat (CalcSourceSize d) in
      length (sourceIndex2Pos tp) = length subs
      ∧ (∀ targetPos w, tp_words tp !! targetPos = Some w →
           pos_ok tp sourceSize (consistent <$> subs) targetPos w)
      ∧ (∀ relSource relTarget, (relSource, relTarget) ∈ alignTerm tp →
           (relSource < sourceSize)%nat
           ∧ (relTarget < length (tp_words tp))%nat)
  end.

(** A derivation is inconsistent when the recursion reaches a derivation
    whose rule disagrees with its sub-derivations on the number of
    non-terminals, or a non-terminal target position that the non-terminal
    index map does not cover. *)
Fixpoint inconsistent (d : Derivation) : Prop :=
  match d with
  | MkDerivation _ _ tp _ subs =>
      let sourceSize := Z.to_nat (CalcSourceSize d) in
      length (sourceIndex2Pos tp) ≠ length subs
      ∨ ∃ targetPos w,
          tp_words tp !! targetPos = Some w
          ∧ pos_error tp sourceSize (inconsistent <$> subs) targetPos w
          ∧ ∀ q w', (q < targetPos)%nat → tp_words tp !! q = Some w' →
              pos_ok tp sourceSize (consistent <$> subs) q w'
  end.




(** What an outcome of the loop over target positions, started at
    [targetPos] on the remaining [words], says about those positions. *)
Definition loop_spec (tp : TargetPhrase) (subs : list Derivation)
    (sourceSize : nat) (words : list bool) (targetPos : nat)
    (st : LoopState) (out : Outcome LoopState) : Prop :=
  match out with
  | Returned st' =>
      (∀ i w, words !! i = Some w →
         pos_ok tp sourceSize (consistent <$> subs) (targetPos + i) w)
      ∧ ls_total st'
        = to_size_t
            (ls_total st
             + foldr Z.add 0
                 (imap (λ i, word_length tp (target_length <$> subs)
                               (targetPos + i)) words))
      ∧ ls_align st ⊆ ls_align st'
      ∧ length (ls_sourceOffsets st') = length (ls_sourceOffsets st)
      ∧ length (ls_targetOffsets st') = length (ls_targetOffsets st)
  | Thrown DuplicateAlignmentPoint => True
  | Thrown OffsetsLengthError => True
  | Thrown _ =>
      ∃ i w, words !! i = Some w
        ∧ pos_error tp sourceSize (inconsistent <$> subs) (targetPos + i) w
        ∧ ∀ j w', (j < i)%nat → words !! j = Some w' →
            pos_ok tp sourceSize (consistent <$> subs) (targetPos + j) w'
  | Undefined =>
      ∃ i w, words !! i = Some w
        ∧ ¬ pos_ok tp sourceSize (consistent <$> subs) (targetPos + i) w
        ∧ ¬ pos_error tp sourceSize (inconsistent <$> subs) (targetPos + i) w
        ∧ ∀ j w', (j < i)%nat → words !! j = Some w' →
            pos_ok tp sourceSize (consistent <$> subs) (targetPos + j) w'
  end.



(** What an outcome of [OutputAlignmentNBest] says about the derivation. *)
Definition outcome_spec (d : Derivation) (retAlign : gset (Z * Z))
    (out : Outcome (gset (Z * Z) * Z)) : Prop :=
  match out with
  | Returned (retAlign', n) =>
      consistent d ∧ n = to_size_t (target_length d) ∧ retAlign ⊆ retAlign'
  | Thrown DuplicateAlignmentPoint => True
  | Thrown OffsetsLengthError => True
  | Thrown _ => inconsistent d
  | Undefined => ¬ consistent d ∧ ¬ inconsistent d
  end.

(** ** Output

    [OutputNBest], [OutputNBestList] and [OutputDetailedTranslationReport]
    write through an [OutputCollector], which may be a null pointer. *)

(** [OutputCollector]: whether it writes to [std::cout], and the records
    handed to [Write] so far, each a source id and a text. *)
Record OutputCollector := {
  OutputIsCout : bool;
  written : list (Z * string)
}.

Definition Write (collector : OutputCollector) (sourceId : Z) (text : string)
    : OutputCollector :=
  {| OutputIsCout := OutputIsCout collector;
     written := written collector ++ [(sourceId, text)] |}.

(** The order in which a [std::set] of pairs is iterated. *)
Definition pair_le (x y : Z * Z) : Prop :=
  x.1 < y.1 ∨ (x.1 = y.1 ∧ x.2 ≤ y.2).

#[global] Instance pair_le_dec : RelDecision pair_le.
Proof. intros x y. unfold pair_le. apply _. Defined.

(** The loop that prints the alignment points, each as [source-target] and
    a space. *)
Definition alignment_text (align : gset (Z * Z)) : string :=
  foldr (λ q text, pretty q.1 +:+ "-" +:+ pretty q.2 +:+ " " +:+ text) ""
    (merge_sort pair_le (elements align)).

(** [std::endl]. *)
Definition endl : string := String (Ascii.ascii_of_nat 10) EmptyString.

Section Output.
Context {Word : Type} `{Countable Word} `{OffsetShifter} `{VectorLimits}.

(** [KBestExtractor::Extract] and [KBestExtractor::GetOutputPhrase], the
    n-best settings of [StaticData], and the printers the manager calls:
    [OutputSurface] for the given factor order, [OutputAllFeatureScores] and
    the stream insertion of a score, which depend on whether [FixPrecision]
    was applied to the stream, the string of the output tree, and
    [DerivationWriter::Write]. *)
Variable Extract : SVertexStack → Z → list Derivation.
Variable GetOutputPhrase : Derivation → list Word.
Variables nBestFactor NBestSize : Z.
Variables DistinctNBest includeWordAlignment PrintNBestTrees : bool.
Variable OutputSurface : list Word → string.
Variable OutputAllFeatureScores : bool → Derivation → string.
Variable score_text : bool → Derivation → string.
Variable GetOutputTree : Derivation → string.
Variable DerivationWriter_Write : Heap → hptr → Z → string.

(** The body of the loop of [OutputNBestList]: the line of one derivation.
    [fixed] tells whether [FixPrecision] was applied. *)
Definition nbest_line (fixed : bool) (translationId : Z)
    (derivation : Derivation) : Completion string :=
  let outputPhrase := GetOutputPhrase derivation in
  if decide (length outputPhrase < 2)%nat then Threw ShortOutputPhrase
  else
    let outputPhrase := delete 0%nat outputPhrase in  (* RemoveWord(0) *)
    let outputPhrase := delete (length outputPhrase - 1)%nat outputPhrase in
    let out :=
      pretty translationId +:+ " ||| " +:+ OutputSurface outputPhrase
      +:+ " ||| " +:+ OutputAllFeatureScores fixed derivation
      +:+ " ||| " +:+ score_text fixed derivation in
    let tree :=
      if PrintNBestTrees then " ||| " +:+ GetOutputTree derivation else "" in
    if includeWordAlignment then
      match OutputAlignmentNBest derivation ∅ 0 with
      | Returned (align, _) =>
          Completed (out +:+ " ||| " +:+ alignment_text align +:+ tree
                     +:+ endl)
      | Thrown e => Threw (AlignmentError e)
      | Undefined => Failed
      end
    else Completed (out +:+ tree +:+ endl).

Fixpoint nbest_lines (fixed : bool) (translationId : Z)
    (nBestList : list Derivation) (out : string) : Completion string :=
  match nBestList with
  | [] => Completed out
  | derivation :: rest =>
      match nbest_line fixed translationId derivation with
      | Completed line =>
          nbest_lines fixed translationId rest (out +:+ line)
      | Threw e => Threw e
      | Failed => Failed
      end
  end.

(** [collector->OutputIsCout()] is read before the assertion on
    [collector], and the text is handed to the collector once the loop is
    through, so that a call that throws has written nothing. *)
Definition OutputNBestList (collector : option OutputCollector)
    (nBestList : list Derivation) (translationId : Z)
    : Completion OutputCollector :=
  match collector with
  | None => Failed
  | Some collector =>
      match nbest_lines (OutputIsCout collector) translationId nBestList ""
      with
      | Completed out => Completed (Write collector translationId out)
      | Threw e => Threw e
      | Failed => Failed
      end
  end.

(** [translationId] is [m_source.GetTranslationId()]. *)
Definition OutputNBest (m : Manager) (collector : option OutputCollector)
    (translationId : Z) : Completion (option OutputCollector) :=
  match collector with
  | None => Completed None
  | Some _ =>
      match ExtractKBest Extract GetOutputPhrase nBestFactor m NBestSize []
              DistinctNBest with
      | Completed nBestList =>
          match OutputNBestList collector nBestList translationId with
          | Completed collector => Completed (Some collector)
          | Threw e => Threw e
          | Failed => Failed
          end
      | Threw e => Threw e
      | Failed => Failed
      end
  end.

(** [GetBestSHyperedge] is called before the two pointers are tested. *)
Definition OutputDetailedTranslationReport (m : Manager)
    (collector : option OutputCollector) (translationId : Z)
    : option (option OutputCollector) :=
  best ← GetBestSHyperedge m;
  match best, collector with
  | Some best, Some collector =>
      Some (Some (Write collector translationId
                    (DerivationWriter_Write (m_heap m) best translationId)))
  | _, _ => Some collector
  end.

(** What [OutputNBestList] needs of a derivation to print its line. *)
Definition printable (derivation : Derivation) : Prop :=
  (2 ≤ length (GetOutputPhrase derivation))%nat
  ∧ (includeWordAlignment = true →
       ∃ result, OutputAlignmentNBest derivation ∅ 0 = Returned result).

End Output.

(** ** Reference collaborators

    Executable stand-ins for the collaborators, used to run the manager on
    concrete inputs. *)

(** States compared lexicographically, a proper prefix first. *)
Fixpoint lex_lt (x y : list Z) : bool :=
  match x, y with
  | [], [] => false
  | [], _ :: _ => true
  | _ :: _, [] => false
  | a :: x', b :: y' =>
      if a <? b then true else if b <? a then false else lex_lt x' y'
  end.

(** Sorting by insertion: an element goes in front of the first one it is
    ordered before. *)
Fixpoint sort_insert {A} (cmp : A → A → bool) (x : A) (l : list A) : list A :=
  match l with
  | [] => [x]
  | y :: l' => if cmp x y then x :: l else y :: sort_insert cmp x l'
  end.

Definition insertion_sort {A} (cmp : A → A → bool) (l : list A) : list A :=
  foldr (sort_insert cmp) [] l.

(** The vector limits of libstdc++ on a 64-bit target, [PTRDIFF_MAX /
    sizeof(T)]: a [std::size_t] takes 8 bytes, a [boost::shared_ptr] 16. *)
Definition lp64_limits : VectorLimits :=
  {| offsets_max_size := 2 ^ 60 - 1; kbest_max_size := 2 ^ 59 - 1 |}.

(** Offsets shifted as the base manager does it: an entry of 0 is a single
    word and receives the current position, any other entry is the width of
    a gap and is stepped over. *)
Fixpoint shift_offsets (offsets : list Z) (currPos : Z) : list Z :=
  match offsets with
  | [] => []
  | o :: rest =>
      if o =? 0 then currPos :: shift_offsets rest (to_size_t (currPos + 1))
      else o :: shift_offsets rest (to_size_t (currPos + o))
  end.

(** Patterns of depth one: the symbol of a node and the symbols of its
    children. *)
Definition child_symbols (nodes : list Node) (node : Node) : list nat :=
  (λ c, default 0%nat (node_symbol <$> nodes !! c)) <$> children node.

Definition depth_one_pattern (nodes : list Node) (i : nat) : nat * list nat :=
  match nodes !! i with
  | Some node => (node_symbol node, child_symbols nodes node)
  | None => (0%nat, [])
  end.

Definition depth_one_matches (pattern : nat * list nat) (nodes : list Node)
    (i : nat) : option (list nat) :=
  node ← nodes !! i;
  if decide (pattern = (node_symbol node, child_symbols nodes node))
  then Some (children node) else None.

(** A queue over precomputed candidates: the score of each hyperedge still to
    come and the state of its head vertex.  [Pop] creates the hyperedge and a
    head vertex of its own. *)
Definition list_queue_pop (q : list (Z * list Z)) (σ : Heap)
    : nat * list (Z * list Z) * Heap :=
  match q with
  | [] => (0%nat, [], σ)
  | (s, st) :: q' =>
      let v := fresh (dom (vertices σ)) in
      let h := fresh (dom (hyperedges σ)) in
      let σ := set_vertex σ v
                 {| best := Some h; recombined := []; pvertex := None;
                    state := st |} in
      let σ := set_hyperedge σ h {| head := v; tail := []; score := s |} in
      (h, q', σ)
  end.

(** ** Sample data

    Concrete inputs on which the statements below are exercised. *)

Module Sample.

(** Three hyperedges popped for one node: the first and the third lead to
    vertices of the same state. *)
Definition popped : Heap :=
  {| vertices :=
       {[ 10%nat := {| best := Some 0%nat; recombined := [];
                       pvertex := Some 2%nat; state := [1] |};
          11%nat := {| best := Some 1%nat; recombined := [];
                       pvertex := Some 2%nat; state := [2] |};
          12%nat := {| best := Some 2%nat; recombined := [];
                       pvertex := Some 2%nat; state := [1] |} ]};
     hyperedges :=
       {[ 0%nat := {| head := 10%nat; tail := []; score := -5 |};
          1%nat := {| head := 11%nat; tail := []; score := -7 |};
          2%nat := {| head := 12%nat; tail := []; score := -3 |} ]} |}.

Definition buffer : list nat := [0; 1; 2]%nat.

(** The same heap at a second visit of the node: its stack still holds a
    vertex of an earlier visit, which owns two hyperedges. *)
Definition revisited : Heap :=
  {| vertices :=
       <[ 20%nat := {| best := Some 7%nat; recombined := [8%nat];
                       pvertex := Some 2%nat; state := [9] |} ]>
         (vertices popped);
     hyperedges :=
       <[ 7%nat := {| head := 20%nat; tail := []; score := -1 |} ]>
         (<[ 8%nat := {| head := 20%nat; tail := []; score := -2 |} ]>
            (hyperedges popped)) |}.

Definition previous : list nat := [20%nat].

Definition candidates : list (Z * list Z) := [(-3, [1]); (-5, [1]); (-7, [2])].


Definition span_of (start covered : Z) : Span :=
  {| GetStartPos := start; GetNumWordsCovered := covered |}.

Definition no_translation : TargetPhrase :=
  {| tp_words := []; sourceIndex2Pos := []; nonTermIndexMap := [];
     alignTerm := [] |}.

(** A rule application over a seven-word span with two gaps of three and
    two words. *)
Definition two_gaps : Derivation :=
  MkDerivation (span_of 0 7) [span_of 0 3; span_of 4 2]
    no_translation (span_of 0 7) [].

(** Five ranked derivations of one sentence; the start position stands for
    the surface string, so the first and third translate alike. *)
Definition ranked (surface : Z) : Derivation :=
  MkDerivation (span_of surface 4) [] no_translation (span_of surface 4) [].

Definition five_best : list Derivation :=
  [ranked 10; ranked 20; ranked 10; ranked 30; ranked 40].

Definition surface (d : Derivation) : Z := GetStartPos (d_head_span d).

Definition extract_five (_ : SVertexStack) (n : Z) : list Derivation :=
  take (Z.to_nat n) five_best.

Definition decoded : Manager :=
  {| m_source_size := 4;
     m_inputTree := [ {| node_symbol := 7; node_span := span_of 0 4;
                       children := [] |} ];
     m_stackMap := {[ 0%nat := [7%nat] ]};
     m_heap := set_vertex empty_heap 7%nat
                 {| best := None; recombined := []; pvertex := Some 0%nat;
                    state := [] |} |}.

(** A tree with a single, childless node, before decoding. *)
Definition leaf_only : Manager :=
  {| m_source_size := 1;
     m_inputTree := [ {| node_symbol := 7; node_span := span_of 0 1;
                       children := [] |} ];
     m_stackMap := ∅;
     m_heap := empty_heap |}.

(** Two leaves under one root, in post-order. *)
Definition small_root : Node :=
  {| node_symbol := 1; node_span := span_of 0 2; children := [0; 1]%nat |}.

Definition small_nodes : list Node :=
  [ {| node_symbol := 7; node_span := span_of 0 1; children := [] |};
    {| node_symbol := 8; node_span := span_of 1 1; children := [] |};
    small_root ].

(** The same tree in a manager, before decoding. *)
Definition small_tree : Manager :=
  {| m_source_size := 2;
     m_inputTree := small_nodes;
     m_stackMap := ∅;
     m_heap := empty_heap |}.

(** The sample tree with the three hyperedges popped for its root. *)
Definition popped_root : Manager :=
  {| m_source_size := 2;
     m_inputTree := small_nodes;
     m_stackMap := ∅;
     m_heap := popped |}.

(** A one-word derivation whose word is aligned to its source word. *)
Definition word : Derivation :=
  MkDerivation (span_of 1 1) []
    {| tp_words := [false]; sourceIndex2Pos := []; nonTermIndexMap := [];
       alignTerm := [(0, 0)%nat] |}
    (span_of 1 1) [].

(** The rule "a X b" over three words, its gap filled by [word]. *)
Definition a_X_b : Derivation :=
  MkDerivation (span_of 0 3) [span_of 1 1]
    {| tp_words := [false; true; false]; sourceIndex2Pos := [1%nat];
       nonTermIndexMap := [0; 0]%nat;
       alignTerm := [(0, 0); (2, 2)]%nat |}
    (span_of 0 3) [word].


(** A rule application whose one gap covers more words than its head:
    [CalcSourceSize] wraps around.  Its rule has no non-terminal, although
    there is a sub-derivation. *)
Definition overfull : Derivation :=
  MkDerivation (span_of 0 1) [span_of 0 3] no_translation (span_of 0 1)
    [word].

End Sample.

(** * Properties *)

(** ** Machine integers *)

Lemma to_size_t_small z : is_size_t z → to_size_t z = z.
Proof. intros Hz. apply Z.mod_small. exact Hz. Qed.

Lemma to_size_t_range z : is_size_t (to_size_t z).
Proof. apply Z.mod_pos_bound. reflexivity. Qed.

Lemma size_sub_sub a b : size_sub a (size_sub b 1) = to_size_t (a - (b - 1)).
Proof. unfold size_sub, to_size_t. apply Zminus_mod_idemp_r. Qed.

Lemma size_sub_to_size_t a b : size_sub (to_size_t a) b = to_size_t (a - b).
Proof. unfold size_sub, to_size_t. apply Zminus_mod_idemp_l. Qed.

(** ** Lists *)

Lemma filter_all {A} (P : A → Prop) `{!∀ x, Decision (P x)} (l : list A) :
  (∀ x, P x) → filter P l = l.
Proof.
  intros HP. induction l as [|x l IH]; [done|].
  by rewrite filter_cons_True, IH.
Qed.

Lemma filter_none {A} (P : A → Prop) `{!∀ x, Decision (P x)} (l : list A) :
  (∀ x, x ∈ l → ¬ P x) → filter P l = [].
Proof.
  intros HP. induction l as [|x l IH]; [done|].
  rewrite filter_cons_False by (apply HP; by left).
  apply IH. intros y Hy. apply HP. by right.
Qed.

(** ** CalcSourceSize *)

Lemma CalcSourceSize_loop_spec tl : ∀ a,
  CalcSourceSize_loop (to_size_t a) tl
  = to_size_t (a - foldr Z.add 0 ((λ sp, GetNumWordsCovered sp - 1) <$> tl)).
Proof.
  induction tl as [|sp tl IH]; intros a; simpl.
  - f_equal. lia.
  - rewrite size_sub_sub.
    change (to_size_t (to_size_t a - (GetNumWordsCovered sp - 1)))
      with (size_sub (to_size_t a) (GetNumWordsCovered sp - 1)).
    rewrite size_sub_to_size_t, IH. apply (f_equal to_size_t).
    unfold fmap. lia.
Qed.

(** C7. [CalcSourceSize] returns the head vertex's covered word count minus
    the sum, over the tail children, of (child covered count - 1): always so
    in [std::size_t] arithmetic, and as an unbounded integer whenever that
    difference is itself a [std::size_t] value (the children cover no more
    than the head does). *)
Theorem CalcSourceSize_correct (d : Derivation) :
  CalcSourceSize d = to_size_t (source_symbols d)
  ∧ (is_size_t (source_symbols d) → CalcSourceSize d = source_symbols d).
Proof.
  assert (Hmod : CalcSourceSize d = to_size_t (source_symbols d)).
  { unfold CalcSourceSize, source_symbols. cbv zeta.
    apply CalcSourceSize_loop_spec. }
  split; [exact Hmod|].
  intros Hr. rewrite Hmod. apply to_size_t_small, Hr.
Qed.

Lemma CalcSourceSize_correct_witness :
  is_size_t (source_symbols Sample.two_gaps)
  ∧ CalcSourceSize Sample.two_gaps = 4.
Proof.
  assert (Hr : is_size_t (source_symbols Sample.two_gaps))
    by (vm_compute; split; congruence).
  split; [exact Hr|].
  rewrite (proj2 (CalcSourceSize_correct Sample.two_gaps) Hr). reflexivity.
Defined.

(** ** ExtractKBest *)

Section KBestProperties.
Context {Phrase : Type} `{Countable Phrase} `{VectorLimits}.
Variable Extract : SVertexStack → Z → list Derivation.
Variable GetOutputPhrase : Derivation → Phrase.
Variable nBestFactor : Z.

Abbreviation first_occ := (first_occurrences GetOutputPhrase).
Abbreviation phrase := GetOutputPhrase.

Lemma first_occurrences_phrases l p :
  p ∈ phrase <$> first_occ l ↔ p ∈ phrase <$> l.
Proof.
  induction l as [|d l IH]; simpl; [done|].
  rewrite !elem_of_cons, <- IH, !list_elem_of_fmap.
  split.
  - intros [->|(x & -> & Hx)]; [by left|].
    apply list_elem_of_filter in Hx as [_ Hx]. right. eauto.
  - intros [->|(x & -> & Hx)]; [by left|].
    destruct (decide (phrase x = phrase d)) as [Heq|Hne]; [by left|].
    right. exists x. split; [done|]. by apply list_elem_of_filter.
Qed.

Lemma first_occurrences_NoDup l : NoDup (phrase <$> first_occ l).
Proof.
  induction l as [|d l IH]; simpl; [constructor|].
  constructor.
  - rewrite list_elem_of_fmap. intros (x & Hx & Hin).
    apply list_elem_of_filter in Hin as [Hne _]. congruence.
  - eapply sublist_NoDup; [exact IH|]. apply fmap_sublist, sublist_filter.
Qed.

Lemma first_occurrences_sublist l : sublist (first_occ l) l.
Proof.
  induction l as [|d l IH]; simpl; [constructor|].
  constructor. etrans; [apply sublist_filter|exact IH].
Qed.

(** Scanning one more derivation keeps it exactly when no earlier one has
    the same surface string. *)
Lemma first_occurrences_snoc l d :
  first_occ (l ++ [d])
  = first_occ l ++ (if decide (phrase d ∈ phrase <$> l) then [] else [d]).
Proof.
  induction l as [|x l IH]; simpl.
  - by rewrite filter_nil.
  - rewrite IH, filter_app. f_equal. f_equal.
    destruct (decide (phrase d ∈ phrase <$> l)) as [Hin|Hnin].
    + rewrite decide_True by (by right). by rewrite filter_nil.
    + destruct (decide (phrase d = phrase x)) as [Heq|Hne].
      * rewrite decide_True by (rewrite Heq; by left).
        rewrite filter_cons_False by (intros Hc; by apply Hc).
        by rewrite filter_nil.
      * rewrite decide_False.
        2:{ intros Hc. apply elem_of_cons in Hc as [?|?]; done. }
        rewrite filter_cons_True by done. by rewrite filter_nil.
Qed.

Lemma copy_distinct_spec k l : ∀ distinct kBestList,
  copy_distinct GetOutputPhrase k l distinct kBestList
  = kBestList
    ++ take (Z.to_nat k - length kBestList)%nat
         (filter (λ d, phrase d ∉ distinct) (first_occ l)).
Proof.
  induction l as [|d l IH]; intros seen acc; simpl.
  - by rewrite filter_nil, take_nil, app_nil_r.
  - destruct (Z.ltb_spec (Z.of_nat (length acc)) k) as [Hlt|Hge].
    + destruct (decide (phrase d ∈ seen)) as [Hin|Hnin].
      * rewrite IH. rewrite filter_cons_False by (intros Hc; by apply Hc).
        f_equal. f_equal. symmetry. apply list_filter_filter_l.
        intros x Hx Heq. apply Hx. by rewrite Heq.
      * rewrite IH. rewrite filter_cons_True by done.
        rewrite length_app. simpl. rewrite <- app_assoc. simpl.
        replace (Z.to_nat k - length acc)%nat
          with (S (Z.to_nat k - (length acc + 1)))%nat by lia.
        simpl. f_equal. f_equal. f_equal. rewrite list_filter_filter.
        apply list_filter_iff. intros x. rewrite not_elem_of_union.
        rewrite not_elem_of_singleton. tauto.
    + replace (Z.to_nat k - length acc)%nat with 0%nat by lia.
      by rewrite take_0, app_nil_r.
Qed.

(** C10. With [k = 0] or an empty source sentence the output list is
    cleared and returned empty whatever the stack map holds, also when the
    root stack is missing or empty. *)
Theorem ExtractKBest_nothing_requested (m : Manager) (k : Z)
    (kBestList0 : list Derivation) (onlyDistinct : bool) :
  k = 0 ∨ m_source_size m = 0 →
  ExtractKBest Extract GetOutputPhrase nBestFactor m k kBestList0 onlyDistinct
  = Completed [].
Proof.
  intros Hk. unfold ExtractKBest.
  destruct Hk as [-> | ->]; [done|].
  by rewrite orb_true_r.
Qed.

(** C2. In distinct-output mode [ExtractKBest] extracts [k * 1000]
    derivations when [nBestFactor] is 0 and [k * nBestFactor] otherwise
    (products taken in [std::size_t]), and returns the first [k] of the
    first occurrences of each surface translation in that list: a
    subsequence of the extracted list, without repeated translations, of
    length [min k (number of distinct translations extracted)]; a short
    result is returned as a result, not an error.  This is what happens
    whenever the vector can hold the number of derivations to extract;
    otherwise [bigList.reserve] throws before anything is extracted. *)
Theorem ExtractKBest_distinct (m : Manager) (k : Z)
    (kBestList0 : list Derivation) (stack : SVertexStack) :
  k ≠ 0 → m_source_size m ≠ 0 → root_stack m = Some stack →
  let factor := if nBestFactor =? 0 then 1000 else nBestFactor in
  let bigList := Extract stack (to_size_t (k * factor)) in
  let kBestList := take (Z.to_nat k) (first_occ bigList) in
  ExtractKBest Extract GetOutputPhrase nBestFactor m k kBestList0 true
  = (if decide (to_size_t (k * factor) ≤ kbest_max_size)
     then Completed kBestList
     else Threw ReserveLengthError)
  ∧ (is_size_t (k * factor) → to_size_t (k * factor) = k * factor)
  ∧ sublist kBestList bigList
  ∧ NoDup (phrase <$> kBestList)
  ∧ length kBestList
    = (Z.to_nat k `min` length (remove_dups (phrase <$> bigList)))%nat.
Proof.
  intros Hk Hsrc Hroot factor bigList kBestList.
  split; [|split; [|split; [|split]]].
  - unfold ExtractKBest.
    apply Z.eqb_neq in Hk, Hsrc. rewrite Hk, Hsrc, Hroot. simpl.
    assert (Hnum : numDerivations nBestFactor k = to_size_t (k * factor)).
    { unfold numDerivations, size_mul. subst factor.
      by destruct (nBestFactor =? 0). }
    rewrite Hnum. destruct (decide (to_size_t (k * factor) ≤ kbest_max_size)).
    + rewrite decide_False by lia.
      rewrite copy_distinct_spec. simpl. rewrite Nat.sub_0_r.
      f_equal.
      by rewrite filter_all by (intros x; apply not_elem_of_empty).
    + by rewrite decide_True by lia.
  - apply to_size_t_small.
  - etrans; [apply sublist_take|apply first_occurrences_sublist].
  - eapply sublist_NoDup; [apply first_occurrences_NoDup|].
    apply fmap_sublist, sublist_take.
  - unfold kBestList. rewrite length_take. f_equal.
    rewrite <- (length_fmap phrase).
    apply Permutation_length, NoDup_Permutation.
    + apply first_occurrences_NoDup.
    + apply NoDup_remove_dups.
    + intros p. by rewrite first_occurrences_phrases, elem_of_remove_dups.
Qed.

(** The first occurrence of a surface string is its earliest derivation. *)
Lemma first_occurrences_earliest l d :
  d ∈ first_occ l →
  ∃ i, l !! i = Some d
    ∧ ∀ j d', (j < i)%nat → l !! j = Some d' → phrase d' ≠ phrase d.
Proof.
  induction l as [|x l IH]; simpl; [by intros ?%elem_of_nil|].
  intros [->|Hin]%elem_of_cons.
  - exists 0%nat. split; [done|]. intros j d' Hj. lia.
  - apply list_elem_of_filter in Hin as [Hne Hin].
    destruct (IH Hin) as (i & Hi & Hbefore).
    exists (S i). split; [done|]. intros [|j] d' Hj Hd'.
    + injection Hd' as <-. congruence.
    + apply (Hbefore j); [lia|done].
Qed.

Lemma root_stack_Some (m : Manager) :
  is_Some (root_stack m)
  ↔ m_inputTree m ≠ []
    ∧ ∃ v stack,
        m_stackMap m !! (length (m_inputTree m) - 1)%nat = Some (v :: stack).
Proof.
  unfold root_stack. destruct (m_inputTree m) as [|n nodes].
  - split; [by intros [? ?]|by intros [? _]].
  - destruct (m_stackMap m !! _) as [[|v stack]|].
    + split; [by intros [? ?]|by intros [_ (? & ? & ?)]].
    + split; [by eauto|]. by eauto.
    + split; [by intros [? ?]|by intros [_ (? & ? & ?)]].
Qed.

(** X1. [ExtractKBest] completes exactly when nothing is requested ([k = 0]
    or an empty source sentence), or the stack of the root node, the last
    node of the input tree, is present in the stack map and not empty and,
    in distinct mode, the vector can hold the number of derivations to
    extract.  It throws exactly when, with a root stack in place, distinct
    mode asks for more derivations than the vector can hold, and then what
    it throws is the [std::length_error] of [reserve]; in every other case
    one of its two assertions fails. *)
Theorem ExtractKBest_completes (m : Manager) (k : Z)
    (kBestList0 : list Derivation) (onlyDistinct : bool) :
  let out :=
    ExtractKBest Extract GetOutputPhrase nBestFactor m k kBestList0
      onlyDistinct in
  let requested := k ≠ 0 ∧ m_source_size m ≠ 0 in
  let rooted :=
    m_inputTree m ≠ []
    ∧ ∃ v stack,
        m_stackMap m !! (length (m_inputTree m) - 1)%nat = Some (v :: stack) in
  let oversized :=
    onlyDistinct = true ∧ kbest_max_size < numDerivations nBestFactor k in
  ((∃ kBestList, out = Completed kBestList)
   ↔ ¬ requested ∨ (rooted ∧ ¬ oversized))
  ∧ ((∃ e, out = Threw e) ↔ requested ∧ rooted ∧ oversized)
  ∧ (∀ e, out = Threw e → e = ReserveLengthError)
  ∧ (out = Failed ↔ requested ∧ ¬ rooted).
Proof.
  intros out requested rooted oversized.
  assert (Hrooted : is_Some (root_stack m) ↔ rooted)
    by apply root_stack_Some.
  subst out requested oversized. unfold ExtractKBest.
  destruct (Z.eqb_spec k 0) as [->|Hk]; simpl.
  { split; [|split; [|split]].
    - split; [intros _; left; tauto|by eauto].
    - split; [by intros [? ?]|tauto].
    - by intros e ?.
    - split; [done|tauto]. }
  destruct (Z.eqb_spec (m_source_size m) 0) as [Hs|Hs]; simpl.
  { split; [|split; [|split]].
    - split; [intros _; left; tauto|by eauto].
    - split; [by intros [? ?]|tauto].
    - by intros e ?.
    - split; [done|tauto]. }
  destruct (root_stack m) as [stack|]; simpl.
  - assert (Hr : rooted) by (apply Hrooted; eauto).
    destruct onlyDistinct; simpl.
    + destruct (decide (kbest_max_size < numDerivations nBestFactor k)).
      * split; [|split; [|split]].
        -- split; [by intros [? ?]|]. intros [?|[_ Hn]]; [tauto|].
           destruct Hn. by split.
        -- split; [done|by eauto].
        -- intros e He. by injection He as <-.
        -- split; [done|tauto].
      * split; [|split; [|split]].
        -- split; [|by eauto]. intros _. right. split; [done|].
           intros [_ ?]. lia.
        -- split; [by intros [? ?]|]. intros (_ & _ & _ & ?). lia.
        -- by intros e ?.
        -- split; [done|tauto].
    + split; [|split; [|split]].
      * split; [|by eauto]. intros _. right. split; [done|]. by intros [? _].
      * split; [by intros [? ?]|]. by intros (_ & _ & ? & _).
      * by intros e ?.
      * split; [done|tauto].
  - assert (Hr : ¬ rooted).
    { intros Hr. apply Hrooted in Hr. by destruct Hr. }
    split; [|split; [|split]].
    + split; [by intros [? ?]|]. intros [?|[? _]]; tauto.
    + split; [by intros [? ?]|tauto].
    + by intros e ?.
    + split; [done|]. by intros _.
Qed.

(** X2. In distinct-output mode every derivation that is returned is the
    earliest one of the extracted list with its surface translation, and
    when fewer than [k] derivations are returned every translation of the
    extracted list is among the returned ones. *)
Theorem ExtractKBest_distinct_earliest (m : Manager) (k : Z)
    (kBestList0 kBestList : list Derivation) (stack : SVertexStack) :
  m_source_size m ≠ 0 → root_stack m = Some stack →
  ExtractKBest Extract GetOutputPhrase nBestFactor m k kBestList0 true
  = Completed kBestList →
  let bigList := Extract stack (numDerivations nBestFactor k) in
  (∀ d, d ∈ kBestList →
     ∃ i, bigList !! i = Some d
       ∧ ∀ j d', (j < i)%nat → bigList !! j = Some d' → phrase d' ≠ phrase d)
  ∧ ((length kBestList < Z.to_nat k)%nat →
       ∀ d, d ∈ bigList → phrase d ∈ phrase <$> kBestList).
Proof.
  intros Hsrc Hroot Hrun bigList. unfold ExtractKBest in Hrun.
  apply Z.eqb_neq in Hsrc. rewrite Hsrc, Hroot in Hrun.
  destruct (k =? 0) eqn:Hk; simpl in Hrun.
  { injection Hrun as <-. split; [by intros d ?%elem_of_nil|].
    apply Z.eqb_eq in Hk as ->. simpl. lia. }
  case_decide; [done|].
  injection Hrun as <-. fold bigList.
  rewrite copy_distinct_spec. simpl. rewrite Nat.sub_0_r.
  rewrite filter_all by (intros x; apply not_elem_of_empty).
  split.
  - intros d Hd. apply first_occurrences_earliest.
    apply elem_of_take in Hd as (i & Hi & _).
    by eapply list_elem_of_lookup_2.
  - intros Hshort d Hd. rewrite length_take in Hshort.
    rewrite take_ge by lia.
    apply first_occurrences_phrases, list_elem_of_fmap. by exists d.
Qed.

End KBestProperties.

#[global] Existing Instance lp64_limits.

Lemma ExtractKBest_nothing_requested_witness :
  ExtractKBest Sample.extract_five Sample.surface 0 Sample.decoded 0
    Sample.five_best true = Completed [].
Proof.
  apply (ExtractKBest_nothing_requested Sample.extract_five Sample.surface 0
           Sample.decoded 0 Sample.five_best true).
  left. reflexivity.
Defined.

Lemma ExtractKBest_distinct_witness :
  ExtractKBest Sample.extract_five Sample.surface 0 Sample.decoded 3 [] true
  = Completed [Sample.ranked 10; Sample.ranked 20; Sample.ranked 30].
Proof.
  assert (Hk : (3 : Z) ≠ 0) by discriminate.
  assert (Hsrc : m_source_size Sample.decoded ≠ 0) by discriminate.
  assert (Hroot : root_stack Sample.decoded = Some [7%nat]) by reflexivity.
  destruct (ExtractKBest_distinct Sample.extract_five Sample.surface 0
              Sample.decoded 3 [] [7%nat] Hk Hsrc Hroot) as [Hrun _].
  rewrite Hrun. reflexivity.
Defined.

(** In distinct mode a request for [2^60] derivations asks [reserve] for
    [2^60 * 1000] elements, that is [2^63] in [std::size_t] arithmetic, and
    the call throws before anything is extracted; in plain mode nothing is
    reserved. *)
Example ExtractKBest_reserve_throws :
  ExtractKBest Sample.extract_five Sample.surface 0 Sample.decoded (2 ^ 60)
    [] true = Threw ReserveLengthError
  ∧ ExtractKBest Sample.extract_five Sample.surface 0 Sample.decoded (2 ^ 60)
      [] false = Completed Sample.five_best.
Proof. split; reflexivity. Qed.

Lemma ExtractKBest_distinct_earliest_witness :
  ∃ i, Sample.extract_five [7%nat] (numDerivations 0 3) !! i
       = Some (Sample.ranked 30)
    ∧ ∀ j d', (j < i)%nat →
        Sample.extract_five [7%nat] (numDerivations 0 3) !! j = Some d' →
        Sample.surface d' ≠ Sample.surface (Sample.ranked 30).
Proof.
  assert (Hsrc : m_source_size Sample.decoded ≠ 0) by discriminate.
  assert (Hroot : root_stack Sample.decoded = Some [7%nat]) by reflexivity.
  assert (Hrun : ExtractKBest Sample.extract_five Sample.surface 0
                   Sample.decoded 3 [] true
                 = Completed
                     [Sample.ranked 10; Sample.ranked 20; Sample.ranked 30])
    by reflexivity.
  destruct (ExtractKBest_distinct_earliest Sample.extract_five Sample.surface 0
              Sample.decoded 3 [] _ [7%nat] Hsrc Hroot Hrun) as [Hearliest _].
  apply Hearliest. rewrite !elem_of_cons. auto.
Defined.

(** ** InitializeStacks *)

Lemma addressed_nodes_snoc nodes node :
  addressed_nodes (nodes ++ [node])
  = addressed_nodes nodes ++ [(length nodes, node)].
Proof.
  unfold addressed_nodes. rewrite imap_app. simpl.
  by rewrite Nat.add_0_r.
Qed.

Lemma new_vertex_fresh σ sv v σ' :
  new_vertex σ sv = (v, σ') → vertices σ !! v = None.
Proof.
  unfold new_vertex. intros [= <- _].
  apply not_elem_of_dom, is_fresh.
Qed.

Lemma InitializeStacks_loop_spec σ0 nodes :
  stacks_initialized σ0 nodes
    (foldl InitializeStacks_node (σ0, ∅) (addressed_nodes nodes)).
Proof.
  induction nodes as [|node nodes IH] using rev_ind.
  - repeat split; simpl; done.
  - rewrite addressed_nodes_snoc, foldl_app. simpl.
    destruct (foldl InitializeStacks_node (σ0, ∅) (addressed_nodes nodes))
      as [σ stackMap].
    destruct IH as (Hold & Hhyp & Hnone & Hdone). simpl in *.
    assert (Hfree : stackMap !! length nodes = None) by (apply Hnone; lia).
    rewrite Hfree. simpl.
    destruct (children node) as [|c cs] eqn:Hch.
    + set (v := fresh (dom (vertices σ))).
      assert (Hv : vertices σ !! v = None) by apply not_elem_of_dom, is_fresh.
      repeat split; simpl.
      * intros w sw Hw. rewrite insert_insert_eq.
        rewrite lookup_insert_ne; [by apply Hold|].
        intros <-. apply Hold in Hw. congruence.
      * done.
      * intros i Hi. rewrite length_app in Hi. simpl in Hi.
        rewrite lookup_insert_ne by lia. apply Hnone. lia.
      * intros i n Hn. apply lookup_app_Some in Hn as [Hn|[Hlen Hn]].
        -- specialize (Hdone i n Hn).
           assert (i ≠ length nodes) by (apply lookup_lt_Some in Hn; lia).
           rewrite lookup_insert_ne by done.
           destruct (children n); [|done].
           destruct Hdone as (w & Hs & Hw & Hw0). exists w.
           split; [done|]. split; [|done].
           rewrite insert_insert_eq, lookup_insert_ne; [done|].
           intros <-. congruence.
        -- apply list_lookup_singleton_Some in Hn as [Hi ->].
           assert (i = length nodes) as -> by lia.
           rewrite Hch. exists v. rewrite lookup_insert_eq.
           split; [done|]. rewrite insert_insert_eq, lookup_insert_eq.
           split; [done|].
           destruct (vertices σ0 !! v) eqn:H0; [|done].
           apply Hold in H0. congruence.
    + repeat split; simpl; try done.
      * intros i Hi. rewrite length_app in Hi. simpl in Hi.
        rewrite lookup_insert_ne by lia. apply Hnone. lia.
      * intros i n Hn. apply lookup_app_Some in Hn as [Hn|[Hlen Hn]].
        -- specialize (Hdone i n Hn).
           assert (i ≠ length nodes) by (apply lookup_lt_Some in Hn; lia).
           by rewrite lookup_insert_ne.
        -- apply list_lookup_singleton_Some in Hn as [Hi ->].
           assert (i = length nodes) as -> by lia.
           by rewrite Hch, lookup_insert_eq.
Qed.

(** C9 (as amended). Run on a manager whose stack map is still empty,
    [InitializeStacks] gives every childless node a stack of exactly one
    vertex, which has no incoming hyperedge (a null [best]), nothing
    recombined and a back-reference to the node, and gives every other node
    an empty stack. *)
Theorem InitializeStacks_stacks (m : Manager) :
  m_stackMap m = ∅ → m_inputTree m ≠ [] →
  ∃ m', InitializeStacks m = Some m'
    ∧ ∀ i node, m_inputTree m !! i = Some node →
        (children node = [] →
           ∃ v, m_stackMap m' !! i = Some [v]
                ∧ vertices (m_heap m') !! v = Some (terminal_vertex i)
                ∧ best (terminal_vertex i) = None)
        ∧ (children node ≠ [] → m_stackMap m' !! i = Some []).
Proof.
  intros Hempty Hnodes. unfold InitializeStacks. rewrite Hempty.
  pose proof (InitializeStacks_loop_spec (m_heap m) (m_inputTree m)) as Hinv.
  destruct (m_inputTree m) as [|n0 nodes] eqn:Htree; [done|].
  destruct (foldl _ _ _) as [σ stackMap].
  destruct Hinv as (_ & _ & _ & Hdone). simpl in Hdone.
  eexists. split; [reflexivity|]. simpl.
  intros i node Hi. specialize (Hdone i node Hi).
  destruct (children node) as [|c cs].
  - split; [|done]. intros _. destruct Hdone as (v & Hs & Hv & _).
    exists v. by repeat split.
  - split; [done|]. by intros _.
Qed.

Lemma InitializeStacks_stacks_witness :
  ∃ m', InitializeStacks Sample.small_tree = Some m'
    ∧ m_stackMap m' !! 2%nat = Some [].
Proof.
  assert (Hempty : m_stackMap Sample.small_tree = ∅) by reflexivity.
  assert (Hnodes : m_inputTree Sample.small_tree ≠ []) by discriminate.
  destruct (InitializeStacks_stacks Sample.small_tree Hempty Hnodes)
    as (m' & Hrun & Hstacks).
  exists m'. split; [exact Hrun|].
  apply (Hstacks 2%nat Sample.small_root); [reflexivity|discriminate].
Defined.

(** C9 as stated fails: the single vertex of a terminal node has a null
    [best], so there is no best hyperedge whose score could be 0. *)
Lemma InitializeStacks_leaf_has_no_score :
  ∃ m' v, InitializeStacks Sample.leaf_only = Some m'
    ∧ m_stackMap m' !! 0%nat = Some [v]
    ∧ best_score (m_heap m') v = None
    ∧ best_score (m_heap m') v ≠ Some 0.
Proof.
  eexists _, _.
  split; [reflexivity|]. split; [reflexivity|].
  split; [reflexivity|]. vm_compute. discriminate.
Qed.

(** *** Stacks and heap objects that exist on entry *)

Lemma terminal_count_snoc nodes node :
  terminal_count (nodes ++ [node])
  = (terminal_count nodes + if decide (children node = []) then 1 else 0)%nat.
Proof.
  unfold terminal_count. rewrite filter_app, length_app. f_equal.
  destruct (decide (children node = [])) as [Hleaf|Hinner].
  - by rewrite filter_cons_True.
  - by rewrite filter_cons_False.
Qed.

(** The loop of [InitializeStacks] started on any heap and any stack map. *)
Lemma InitializeStacks_loop_extends σ0 (stackMap0 : gmap nat (list nat)) nodes :
  ∀ σ stackMap,
    foldl InitializeStacks_node (σ0, stackMap0) (addressed_nodes nodes)
    = (σ, stackMap) →
    (∀ v sv, vertices σ0 !! v = Some sv → vertices σ !! v = Some sv)
    ∧ hyperedges σ = hyperedges σ0
    ∧ size (vertices σ) = (size (vertices σ0) + terminal_count nodes)%nat
    ∧ (∀ i, (length nodes ≤ i)%nat → stackMap !! i = stackMap0 !! i)
    ∧ (∀ i node, nodes !! i = Some node →
         match children node with
         | [] => ∃ v, stackMap !! i = Some (default [] (stackMap0 !! i) ++ [v])
                      ∧ vertices σ !! v = Some (terminal_vertex i)
                      ∧ vertices σ0 !! v = None
         | _ => stackMap !! i = Some (default [] (stackMap0 !! i))
         end).
Proof.
  induction nodes as [|node nodes IH] using rev_ind; intros σ' stackMap' Hrun.
  - injection Hrun as <- <-. unfold terminal_count. simpl.
    rewrite Nat.add_0_r. by repeat split.
  - rewrite addressed_nodes_snoc, foldl_app in Hrun. simpl in Hrun.
    destruct (foldl InitializeStacks_node (σ0, stackMap0) (addressed_nodes nodes))
      as [σ stackMap].
    destruct (IH _ _ eq_refl) as (Hold & Hhyp & Hsize & Hrest & Hdone).
    assert (Hhere : stackMap !! length nodes = stackMap0 !! length nodes)
      by (apply Hrest; lia).
    unfold InitializeStacks_node in Hrun.
    rewrite Hhere in Hrun. rewrite terminal_count_snoc.
    destruct (children node) as [|c cs] eqn:Hch.
    + simpl in Hrun. injection Hrun as <- <-.
      set (v := fresh (dom (vertices σ))).
      assert (Hv : vertices σ !! v = None) by apply not_elem_of_dom, is_fresh.
      simpl. rewrite insert_insert_eq.
      split; [|split; [|split; [|split]]].
      * intros w sw Hw. rewrite lookup_insert_ne; [by apply Hold|].
        intros <-. apply Hold in Hw. congruence.
      * done.
      * rewrite map_size_insert_None by done. rewrite Hsize. simpl. lia.
      * intros i Hi. rewrite length_app in Hi. simpl in Hi.
        rewrite lookup_insert_ne by lia. apply Hrest. lia.
      * intros i n Hn. apply lookup_app_Some in Hn as [Hn|[Hlen Hn]].
        -- specialize (Hdone i n Hn).
           assert (i ≠ length nodes) by (apply lookup_lt_Some in Hn; lia).
           rewrite lookup_insert_ne by done.
           destruct (children n); [|done].
           destruct Hdone as (w & Hs & Hw & Hw0). exists w.
           split; [done|]. split; [|done].
           rewrite lookup_insert_ne; [done|]. intros <-. congruence.
        -- apply list_lookup_singleton_Some in Hn as [Hi ->].
           assert (i = length nodes) as -> by lia.
           rewrite Hch. exists v. rewrite !lookup_insert_eq.
           split; [done|]. split; [done|].
           destruct (vertices σ0 !! v) eqn:H0; [|done].
           apply Hold in H0. congruence.
    + simpl in Hrun. injection Hrun as <- <-.
      split; [done|]. split; [done|]. split; [simpl; lia|]. split.
      * intros i Hi. rewrite length_app in Hi. simpl in Hi.
        rewrite lookup_insert_ne by lia. apply Hrest. lia.
      * intros i n Hn. apply lookup_app_Some in Hn as [Hn|[Hlen Hn]].
        -- specialize (Hdone i n Hn).
           assert (i ≠ length nodes) by (apply lookup_lt_Some in Hn; lia).
           by rewrite lookup_insert_ne.
        -- apply list_lookup_singleton_Some in Hn as [Hi ->].
           assert (i = length nodes) as -> by lia.
           by rewrite Hch, lookup_insert_eq.
Qed.

(** X3. [InitializeStacks] completes exactly on a tree that has nodes, and
    it only ever adds: the hyperedges and the vertices that exist on entry
    are kept, stacks stored under other keys are untouched, the stack of an
    internal node keeps what it held, and the stack of each terminal node
    receives, after what it held, one vertex that is newly allocated for
    that node; one vertex is allocated per terminal node. *)
Theorem InitializeStacks_extends (m : Manager) :
  (is_Some (InitializeStacks m) ↔ m_inputTree m ≠ [])
  ∧ ∀ m', InitializeStacks m = Some m' →
      m_inputTree m' = m_inputTree m
      ∧ hyperedges (m_heap m') = hyperedges (m_heap m)
      ∧ (∀ v sv, vertices (m_heap m) !! v = Some sv →
           vertices (m_heap m') !! v = Some sv)
      ∧ size (vertices (m_heap m'))
        = (size (vertices (m_heap m)) + terminal_count (m_inputTree m))%nat
      ∧ (∀ i, (length (m_inputTree m) ≤ i)%nat →
           m_stackMap m' !! i = m_stackMap m !! i)
      ∧ (∀ i node, m_inputTree m !! i = Some node →
           let held := default [] (m_stackMap m !! i) in
           (children node = [] →
              ∃ v, m_stackMap m' !! i = Some (held ++ [v])
                   ∧ vertices (m_heap m) !! v = None
                   ∧ vertices (m_heap m') !! v = Some (terminal_vertex i))
           ∧ (children node ≠ [] → m_stackMap m' !! i = Some held)).
Proof.
  unfold InitializeStacks.
  destruct (m_inputTree m) as [|n0 nodes] eqn:Htree.
  { split; [split; [by intros [? ?]|done]|done]. }
  destruct (foldl _ _ _) as [σ stackMap] eqn:Hloop.
  split; [split; [done|by eauto]|].
  intros m' [= <-]. simpl.
  destruct (InitializeStacks_loop_extends _ _ _ _ _ Hloop)
    as (Hold & Hhyp & Hsize & Hrest & Hdone).
  repeat (split; [done|]).
  intros i node Hi. specialize (Hdone i node Hi).
  destruct (children node) as [|c cs].
  - split; [|done]. intros _. destruct Hdone as (v & Hs & Hv & Hv0).
    by exists v.
  - split; [done|]. by intros _.
Qed.

(** X4. Between [InitializeStacks], run on an empty stack map, and the
    visit of the root node by [Decode], [GetBestSHyperedge] returns a null
    pointer when the root of the tree is a terminal node, and fails its
    second assertion when the root is an internal node, whose stack is still
    empty. *)
Theorem GetBestSHyperedge_undecoded (m m' : Manager) (root : Node) :
  m_stackMap m = ∅ → InitializeStacks m = Some m' →
  last (m_inputTree m) = Some root →
  (children root = [] → GetBestSHyperedge m' = Some None)
  ∧ (children root ≠ [] → GetBestSHyperedge m' = None).
Proof.
  intros Hempty Hrun Hlast. rewrite last_lookup in Hlast.
  replace (pred (length (m_inputTree m)))
    with (length (m_inputTree m) - 1)%nat in Hlast by lia.
  unfold InitializeStacks in Hrun.
  destruct (m_inputTree m) as [|n0 nodes] eqn:Htree; [done|].
  destruct (foldl _ _ _) as [σ stackMap] eqn:Hloop.
  injection Hrun as <-.
  destruct (InitializeStacks_loop_extends _ _ _ _ _ Hloop)
    as (_ & _ & _ & _ & Hdone).
  specialize (Hdone _ _ Hlast). rewrite Hempty, lookup_empty in Hdone.
  unfold GetBestSHyperedge, root_stack.
  cbn [m_inputTree m_stackMap m_heap].
  destruct (children root) as [|c cs].
  - destruct Hdone as (v & -> & Hv & _). simpl. rewrite Hv. by split.
  - rewrite Hdone. by split.
Qed.

Lemma GetBestSHyperedge_undecoded_witness :
  ∃ m', InitializeStacks Sample.small_tree = Some m'
    ∧ GetBestSHyperedge m' = None.
Proof.
  destruct (InitializeStacks Sample.small_tree) as [m'|] eqn:Hrun;
    [|discriminate].
  exists m'. split; [reflexivity|].
  assert (Hempty : m_stackMap Sample.small_tree = ∅) by reflexivity.
  assert (Hlast : last (m_inputTree Sample.small_tree) = Some Sample.small_root)
    by reflexivity.
  apply (GetBestSHyperedge_undecoded Sample.small_tree m' Sample.small_root
           Hempty Hrun Hlast).
  discriminate.
Defined.

(** ** Decode: rule matching and the glue rule *)

Section MatchingProperties.
Context `{RulePatterns}.
Variable ruleLimit : nat.
Variable stackMap : gmap pvptr (list vptr).
Variable estimate : SHyperedgeBundle → Z.

Lemma insert_by_priority_length entry container :
  length (insert_by_priority entry container) = S (length container).
Proof.
  induction container as [|e container IH]; simpl; [done|].
  destruct (e.1 <? entry.1); simpl; by rewrite ?IH.
Qed.

Lemma SwapIn_length limit container bundle priority :
  length (SwapIn limit container bundle priority)
  = (limit `min` S (length container))%nat.
Proof. unfold SwapIn. by rewrite length_take, insert_by_priority_length. Qed.

Lemma enumerate_entries_length entries nodes i : ∀ container,
  (length container ≤ ruleLimit)%nat →
  length
    (foldl (λ container entry,
              match matches entry.1 nodes i with
              | Some tail =>
                  callback ruleLimit stackMap estimate container
                    {| ph_tail := tail; ph_translations := entry.2 |}
              | None => container
              end) container entries)
  = (ruleLimit `min` (length container + matching_count entries nodes i))%nat.
Proof.
  unfold matching_count.
  induction entries as [|entry entries IH]; intros container Hle; simpl.
  - lia.
  - destruct (matches entry.1 nodes i) as [tail|] eqn:Hm.
    + rewrite filter_cons_True by (rewrite Hm; eauto).
      rewrite IH; unfold callback; rewrite SwapIn_length; simpl; lia.
    + rewrite filter_cons_False by (rewrite Hm; by intros [? ?]).
      by apply IH.
Qed.

Lemma EnumerateHyperedges_length trie nodes i container :
  (length container ≤ ruleLimit)%nat →
  length (EnumerateHyperedges ruleLimit stackMap estimate trie nodes i container)
  = (ruleLimit `min`
       (length container + matching_count (map_to_list trie) nodes i))%nat.
Proof. apply enumerate_entries_length. Qed.

Lemma matchers_length tries nodes i : ∀ container,
  (length container ≤ ruleLimit)%nat →
  (length
     (foldl (λ bundles trie,
               EnumerateHyperedges ruleLimit stackMap estimate trie nodes i
                 bundles) container tries) ≤ ruleLimit)%nat.
Proof.
  induction tries as [|trie tries IH]; intros container Hle; simpl; [done|].
  apply IH. rewrite EnumerateHyperedges_length by done. lia.
Qed.

(** A trie without a match at the node does not hold the node's glue
    pattern. *)
Lemma no_match_no_glue_pattern (trie : gmap Pattern (list Rule)) nodes i node :
  nodes !! i = Some node →
  matching_count (map_to_list trie) nodes i = 0%nat →
  trie !! glue_pattern nodes i = None.
Proof.
  intros Hnode Hcount.
  destruct (trie !! glue_pattern nodes i) as [rules|] eqn:Hlookup; [|done].
  apply elem_of_map_to_list in Hlookup.
  unfold matching_count in Hcount. apply length_zero_iff_nil in Hcount.
  exfalso.
  eapply (filter_nil_not_elem_of _ _ (glue_pattern nodes i, rules) Hcount);
    [|exact Hlookup].
  simpl. rewrite (glue_pattern_matches _ _ _ Hnode). eauto.
Qed.

Lemma matching_count_synthesized (trie : gmap Pattern (list Rule)) nodes i node :
  nodes !! i = Some node →
  matching_count (map_to_list trie) nodes i = 0%nat →
  matching_count (map_to_list (SynthesizeRule trie nodes i)) nodes i = 1%nat.
Proof.
  intros Hnode Hcount. unfold SynthesizeRule, matching_count in *.
  rewrite map_to_list_insert by by eapply no_match_no_glue_pattern.
  rewrite filter_cons_True.
  2:{ simpl. rewrite (glue_pattern_matches _ _ _ Hnode). eauto. }
  simpl. by rewrite Hcount.
Qed.

(** A container without room retains nothing, whatever the tries hold:
    with a rule limit of 0 the matching step fails the assertion at every
    node. *)
Lemma Decode_match_node_no_room (tries : list (gmap Pattern (list Rule)))
    (glueRuleTrie : gmap Pattern (list Rule)) (nodes : list Node) (i : nat) :
  ruleLimit = 0%nat →
  Decode_match_node ruleLimit stackMap estimate tries glueRuleTrie nodes i
  = None.
Proof.
  intros Hzero. unfold Decode_match_node.
  pose proof (matchers_length (tries ++ [glueRuleTrie]) nodes i []) as Hlen.
  simpl in Hlen. specialize (Hlen ltac:(lia)).
  rewrite decide_True by lia.
  rewrite decide_False; [done|].
  rewrite EnumerateHyperedges_length by lia. lia.
Qed.

(** X22. With a rule limit of at least 1, the matching step of [Decode]
    always leaves at least one bundle for the node: when the rule matchers
    produce none, the glue rule of the node is synthesized into the glue
    rule trie, the glue matcher is run on the node again, and the bundle
    count is then exactly 1, as the assertion of [Decode] requires. *)
Theorem Decode_match_node_glue (tries : list (gmap Pattern (list Rule)))
    (glueRuleTrie : gmap Pattern (list Rule)) (nodes : list Node) (i : nat)
    (node : Node) :
  (0 < ruleLimit)%nat → nodes !! i = Some node →
  let matched :=
    foldl (λ bundles trie,
             EnumerateHyperedges ruleLimit stackMap estimate trie nodes i bundles)
      [] (tries ++ [glueRuleTrie]) in
  ∃ bundles glueRuleTrie',
    Decode_match_node ruleLimit stackMap estimate tries glueRuleTrie nodes i
    = Some (bundles, glueRuleTrie')
    ∧ (1 ≤ length bundles)%nat
    ∧ (length matched = 0%nat →
         glueRuleTrie' = SynthesizeRule glueRuleTrie nodes i
         ∧ bundles = EnumerateHyperedges ruleLimit stackMap estimate
                       glueRuleTrie' nodes i []
         ∧ length bundles = 1%nat).
Proof.
  intros Hlimit Hnode matched. unfold Decode_match_node. fold matched.
  case_decide as Hzero.
  - assert (Hglue : matching_count (map_to_list glueRuleTrie) nodes i = 0%nat).
    { subst matched. rewrite foldl_app in Hzero. simpl in Hzero.
      rewrite EnumerateHyperedges_length in Hzero
        by (apply matchers_length; simpl; lia).
      lia. }
    assert (Hone :
      length (EnumerateHyperedges ruleLimit stackMap estimate
                (SynthesizeRule glueRuleTrie nodes i) nodes i matched) = 1%nat).
    { rewrite EnumerateHyperedges_length by lia.
      rewrite (matching_count_synthesized _ _ _ _ Hnode Hglue). lia. }
    rewrite decide_True by done.
    eexists _, _. split; [done|]. split; [lia|]. intros _.
    apply length_zero_iff_nil in Hzero. by rewrite Hzero in Hone |- *.
  - eexists _, _. split; [done|]. split; [lia|]. done.
Qed.

End MatchingProperties.

(** ** Decode: the cube-pruning pop loop *)

Section PopLoopProperties.
Context {Q : Type} `{CubeQueueOps Q}.

Lemma set_head_pvertex_allocated σ h p e :
  hyperedges σ !! h = Some e → is_Some (vertices σ !! head e) →
  is_Some (set_head_pvertex σ h p).
Proof.
  intros He [sv Hsv]. unfold set_head_pvertex.
  rewrite He. simpl. rewrite Hsv. simpl. eauto.
Qed.

Lemma pop_loop_spec budget : ∀ (q : Q) σ p buffer,
  ∃ buffer' q' σ',
    pop_loop budget q σ p buffer = Some (buffer ++ buffer', q', σ')
    ∧ length buffer' = (budget `min` remaining q)%nat
    ∧ remaining q' = (remaining q - length buffer')%nat.
Proof.
  induction budget as [|budget IH]; intros q σ p buffer; cbn [pop_loop].
  - exists [], q, σ. rewrite app_nil_r. simpl. repeat split; lia.
  - destruct (IsEmpty q) eqn:Hempty.
    + apply IsEmpty_remaining in Hempty.
      exists [], q, σ. rewrite app_nil_r, Hempty. simpl. repeat split; lia.
    + destruct (Pop q σ) as [[h q1] σ1] eqn:Hpop.
      pose proof (Pop_remaining _ _ _ _ _ Hempty Hpop) as Hrem.
      destruct (Pop_allocated _ _ _ _ _ Hempty Hpop) as (e & He & Hv).
      destruct (set_head_pvertex_allocated _ _ p _ He Hv) as [σ2 Hset].
      rewrite Hset. cbn [mbind option_bind].
      destruct (IH q1 σ2 p (buffer ++ [h])) as (b & q' & σ' & Hrun & Hlen & Hq').
      exists (h :: b), q', σ'. rewrite Hrun, <- app_assoc, length_cons.
      repeat split; lia.
Qed.


(** The buffer of the pop loop under a queue that only adds to the heap:
    every hyperedge handed over has a head vertex that refers back to the
    node, and when the queue yields only hyperedges that did not exist
    before, no hyperedge is handed over twice. *)
Lemma pop_loop_buffer_spec (p : pvptr) :
  (∀ q σ0 h q' σ1, IsEmpty q = false → Pop q σ0 = (h, q', σ1) →
     (∀ v sv, vertices σ0 !! v = Some sv → vertices σ1 !! v = Some sv)
     ∧ (∀ h0 e0, hyperedges σ0 !! h0 = Some e0 →
          hyperedges σ1 !! h0 = Some e0)) →
  ∀ budget (q : Q) σ0 buffer0 buffer q' σ',
    (∀ h, h ∈ buffer0 →
       ∃ e sv, hyperedges σ0 !! h = Some e ∧ vertices σ0 !! head e = Some sv
               ∧ pvertex sv = Some p) →
    pop_loop budget q σ0 p buffer0 = Some (buffer, q', σ') →
    (∀ h, h ∈ buffer →
       ∃ e sv, hyperedges σ' !! h = Some e ∧ vertices σ' !! head e = Some sv
               ∧ pvertex sv = Some p)
    ∧ ((∀ q σ0 h q' σ1, IsEmpty q = false → Pop q σ0 = (h, q', σ1) →
          hyperedges σ0 !! h = None) →
       NoDup buffer0 → NoDup buffer).
Proof.
  intros Hadds.
  induction budget as [|budget IH]; intros q σ0 buffer0 buffer q' σ' Hinv;
    cbn [pop_loop].
  { by intros [= <- _ <-]. }
  destruct (IsEmpty q) eqn:Hempty; [by intros [= <- _ <-]|].
  destruct (Pop q σ0) as [[h1 q1] σ1] eqn:Hpop.
  destruct (Hadds _ _ _ _ _ Hempty Hpop) as [Hvs Hhs].
  destruct (Pop_allocated _ _ _ _ _ Hempty Hpop) as (e1 & He1 & [sv1 Hsv1]).
  unfold set_head_pvertex. rewrite He1. cbn [mbind option_bind].
  rewrite Hsv1. cbn [mbind option_bind]. intros Hrun.
  assert (Hinv1 : ∀ h, h ∈ buffer0 ++ [h1] →
    ∃ e sv,
      hyperedges (set_vertex σ1 (head e1) (with_pvertex sv1 (Some p))) !! h
      = Some e
      ∧ vertices (set_vertex σ1 (head e1) (with_pvertex sv1 (Some p)))
          !! head e = Some sv
      ∧ pvertex sv = Some p).
  { intros h [Hh|Hh]%elem_of_app.
    - destruct (Hinv h Hh) as (e & sv & He & Hsv & Hpv).
      exists e. simpl. rewrite (Hhs _ _ He).
      destruct (decide (head e = head e1)) as [->|Hne].
      + rewrite lookup_insert_eq. by eexists.
      + rewrite lookup_insert_ne by done. exists sv. by rewrite (Hvs _ _ Hsv).
    - apply elem_of_cons in Hh as [->|Hh]; [|by apply elem_of_nil in Hh].
      exists e1. simpl. rewrite lookup_insert_eq. by eexists. }
  destruct (IH _ _ _ _ _ _ Hinv1 Hrun) as [Hheads Hnodup].
  split; [exact Hheads|].
  intros Hnew Hnd. apply (Hnodup Hnew).
  apply NoDup_app. split; [done|]. split; [|apply NoDup_singleton].
  intros h Hh [->|Hh1]%elem_of_cons; [|by apply elem_of_nil in Hh1].
  destruct (Hinv h1 Hh) as (e & sv & He & _).
  by rewrite (Hnew _ _ _ _ _ Hempty Hpop) in He.
Qed.

(** Under a queue that creates the hyperedge it yields and its head vertex,
    and leaves everything else as it is, the pop loop keeps what was in the
    heap [σ0], and the hyperedges of the buffer and their head vertices are
    not from [σ0]. *)
Lemma pop_loop_adds (p : pvptr) (σ0 : Heap) :
  (∀ q σ h q' σ1, IsEmpty q = false → Pop q σ = (h, q', σ1) →
     (∀ v sv, vertices σ !! v = Some sv → vertices σ1 !! v = Some sv)
     ∧ (∀ h0 e0, hyperedges σ !! h0 = Some e0 → hyperedges σ1 !! h0 = Some e0)
     ∧ hyperedges σ !! h = None
     ∧ ∀ e, hyperedges σ1 !! h = Some e → vertices σ !! head e = None) →
  ∀ budget (q : Q) σ buffer0 buffer q' σ',
    (∀ v sv, vertices σ0 !! v = Some sv → vertices σ !! v = Some sv) →
    (∀ h e, hyperedges σ0 !! h = Some e → hyperedges σ !! h = Some e) →
    (∀ h, h ∈ buffer0 →
       hyperedges σ0 !! h = None
       ∧ ∃ e, hyperedges σ !! h = Some e ∧ vertices σ0 !! head e = None) →
    pop_loop budget q σ p buffer0 = Some (buffer, q', σ') →
    (∀ v sv, vertices σ0 !! v = Some sv → vertices σ' !! v = Some sv)
    ∧ (∀ h e, hyperedges σ0 !! h = Some e → hyperedges σ' !! h = Some e)
    ∧ (∀ h, h ∈ buffer →
         hyperedges σ0 !! h = None
         ∧ ∃ e, hyperedges σ' !! h = Some e ∧ vertices σ0 !! head e = None).
Proof.
  intros Hqueue.
  induction budget as [|budget IH];
    intros q σ buffer0 buffer q' σ' Hvs Hhs Hbuf; cbn [pop_loop].
  { by intros [= <- _ <-]. }
  destruct (IsEmpty q) eqn:Hempty; [by intros [= <- _ <-]|].
  destruct (Pop q σ) as [[h1 q1] σ1] eqn:Hpop.
  destruct (Hqueue _ _ _ _ _ Hempty Hpop) as (Hvs1 & Hhs1 & Hnew & Hhead).
  destruct (Pop_allocated _ _ _ _ _ Hempty Hpop) as (e1 & He1 & [sv1 Hsv1]).
  unfold set_head_pvertex. rewrite He1. cbn [mbind option_bind].
  rewrite Hsv1. cbn [mbind option_bind].
  assert (Hfresh : vertices σ0 !! head e1 = None).
  { destruct (vertices σ0 !! head e1) as [sv|] eqn:Hsv; [|done].
    apply Hvs in Hsv. by rewrite (Hhead _ He1) in Hsv. }
  apply IH.
  - intros v sv Hv. simpl. rewrite lookup_insert_ne by congruence.
    by apply Hvs1, Hvs.
  - intros h e He. simpl. by apply Hhs1, Hhs.
  - intros h [Hh|Hh]%elem_of_app.
    + destruct (Hbuf h Hh) as [Hnone (e & He & Hv)].
      split; [done|]. exists e. split; [by apply Hhs1|done].
    + apply elem_of_cons in Hh as [->|Hh]; [|by apply elem_of_nil in Hh].
      split; [|by exists e1].
      destruct (hyperedges σ0 !! h1) as [e|] eqn:He; [|done].
      apply Hhs in He. by rewrite Hnew in He.
Qed.

(** X5. When the cube queue only adds to the heap, leaving every existing
    vertex and hyperedge as it is, the pop loop of [Decode] hands over a
    buffer in which the head vertex of every hyperedge refers back to the
    node that is being decoded. *)
Theorem pop_loop_pvertex (popLimit : nat) (cubeQueue cubeQueue' : Q)
    (σ σ' : Heap) (p : pvptr) (buffer : list hptr) :
  (∀ q σ0 h q' σ1, IsEmpty q = false → Pop q σ0 = (h, q', σ1) →
     (∀ v sv, vertices σ0 !! v = Some sv → vertices σ1 !! v = Some sv)
     ∧ (∀ h0 e0, hyperedges σ0 !! h0 = Some e0 →
          hyperedges σ1 !! h0 = Some e0)) →
  pop_loop popLimit cubeQueue σ p [] = Some (buffer, cubeQueue', σ') →
  ∀ h, h ∈ buffer →
    ∃ e sv, hyperedges σ' !! h = Some e ∧ vertices σ' !! head e = Some sv
            ∧ pvertex sv = Some p.
Proof.
  intros Hadds Hrun.
  destruct (pop_loop_buffer_spec p Hadds popLimit cubeQueue σ [] buffer
              cubeQueue' σ') as [Hheads _]; [|exact Hrun|exact Hheads].
  by intros h ?%elem_of_nil.
Qed.

End PopLoopProperties.

(** ** Deleting vertices *)

Lemma heap_eq (σ1 σ2 : Heap) :
  vertices σ1 = vertices σ2 → hyperedges σ1 = hyperedges σ2 → σ1 = σ2.
Proof. destruct σ1, σ2. simpl. by intros -> ->. Qed.

Lemma lookup_foldr_delete {A} (m : gmap nat A) (l : list nat) k :
  foldr delete m l !! k = if decide (k ∈ l) then None else m !! k.
Proof.
  induction l as [|x l IH]; simpl.
  - destruct (decide (k ∈ [])) as [Hin|_]; [by apply elem_of_nil in Hin|done].
  - destruct (decide (x = k)) as [->|Hne].
    + rewrite lookup_delete_eq.
      destruct (decide (k ∈ k :: l)) as [_|Hnin]; [done|].
      destruct Hnin. by left.
    + rewrite lookup_delete_ne, IH by done.
      apply decide_ext. rewrite elem_of_cons.
      split; [tauto|]. intros [Heq|Hin]; [congruence|done].
Qed.

Lemma delete_hyperedges_inv hs : ∀ σ σ',
  delete_hyperedges σ hs = Some σ' →
  NoDup hs ∧ (∀ h, h ∈ hs → is_Some (hyperedges σ !! h))
  ∧ σ' = without_hyperedges σ hs.
Proof.
  induction hs as [|h hs IH]; intros σ σ'; simpl.
  - intros [= <-]. split; [constructor|]. split.
    + by intros h ?%elem_of_nil.
    + by destruct σ.
  - unfold delete_hyperedge.
    destruct (hyperedges σ !! h) as [e|] eqn:He; [|done]. simpl.
    intros Hrest. destruct (IH _ _ Hrest) as (Hnd & Hall & ->).
    assert (Hfresh : h ∉ hs).
    { intros Hin. destruct (Hall h Hin) as [e' He']. simpl in He'.
      by rewrite lookup_delete_eq in He'. }
    split; [by constructor|]. split.
    + intros h' [->|Hin]%elem_of_cons; [by eauto|].
      destruct (Hall h' Hin) as [e' He']. simpl in He'.
      apply lookup_delete_Some in He' as [_ He']. eauto.
    + apply heap_eq; simpl; [done|]. apply map_eq. intros k.
      rewrite lookup_foldr_delete.
      destruct (decide (h = k)) as [->|Hne].
      * rewrite !lookup_delete_eq. by case_decide.
      * rewrite !lookup_delete_ne by done. by rewrite lookup_foldr_delete.
Qed.

Lemma delete_hyperedges_Some hs : ∀ σ,
  NoDup hs → (∀ h, h ∈ hs → is_Some (hyperedges σ !! h)) →
  delete_hyperedges σ hs = Some (without_hyperedges σ hs).
Proof.
  induction hs as [|h hs IH]; intros σ Hnd Hall; simpl.
  - by destruct σ.
  - apply NoDup_cons in Hnd as [Hfresh Hnd]. unfold delete_hyperedge.
    destruct (Hall h ltac:(by left)) as [e ->]. simpl.
    rewrite IH; [|done|].
    + f_equal. apply heap_eq; simpl; [done|]. apply map_eq. intros k.
      rewrite lookup_foldr_delete.
      destruct (decide (h = k)) as [->|Hne].
      * rewrite !lookup_delete_eq. by case_decide.
      * rewrite !lookup_delete_ne by done. by rewrite lookup_foldr_delete.
    + intros h' Hin. simpl. rewrite lookup_delete_ne by (by intros <-).
      apply Hall. by right.
Qed.

(** A vertex that owns nothing is released by itself. *)
Lemma delete_vertex_unowned σ v sv :
  vertices σ !! v = Some sv → best sv = None → recombined sv = [] →
  delete_vertex σ v = Some (free_vertex σ v).
Proof.
  intros Hv Hb Hr. unfold delete_vertex. rewrite Hv. simpl.
  unfold owned. by rewrite Hb, Hr.
Qed.

Lemma delete_vertex_inv σ v σ' :
  delete_vertex σ v = Some σ' →
  ∃ sv, vertices σ !! v = Some sv ∧ NoDup (owned sv)
    ∧ (∀ h, h ∈ owned sv → is_Some (hyperedges σ !! h))
    ∧ σ' = free_vertex (without_hyperedges σ (owned sv)) v.
Proof.
  unfold delete_vertex.
  destruct (vertices σ !! v) as [sv|]; [|done]. simpl.
  destruct (delete_hyperedges σ (owned sv)) as [σ1|] eqn:Hdel; [|done].
  simpl. intros [= <-].
  destruct (delete_hyperedges_inv _ _ _ Hdel) as (Hnd & Hall & ->).
  by exists sv.
Qed.

Lemma owned_by_cons σ v sv stack :
  vertices σ !! v = Some sv →
  owned_by σ (v :: stack) = owned sv ++ owned_by σ stack.
Proof. intros Hv. unfold owned_by. simpl. by rewrite Hv. Qed.

Lemma owned_by_ext σ1 σ2 stack :
  (∀ v, v ∈ stack → vertices σ1 !! v = vertices σ2 !! v) →
  owned_by σ1 stack = owned_by σ2 stack.
Proof.
  intros Hagree. unfold owned_by. induction stack as [|v stack IH]; [done|].
  simpl. rewrite (Hagree v) by left. f_equal.
  apply IH. intros w Hw. apply Hagree. by right.
Qed.

Lemma elem_of_owned_by σ stack h :
  h ∈ owned_by σ stack
  ↔ ∃ v sv, v ∈ stack ∧ vertices σ !! v = Some sv ∧ h ∈ owned sv.
Proof.
  unfold owned_by. rewrite list_elem_of_bind. split.
  - intros (v & Hh & Hv). destruct (vertices σ !! v) as [sv|] eqn:Hsv.
    + by exists v, sv.
    + by apply elem_of_nil in Hh.
  - intros (v & sv & Hv & Hsv & Hh). exists v. by rewrite Hsv.
Qed.

Lemma released_vertices σ stack v :
  vertices (released σ stack) !! v
  = if decide (v ∈ stack) then None else vertices σ !! v.
Proof. apply lookup_foldr_delete. Qed.

Lemma released_hyperedges σ stack h :
  hyperedges (released σ stack) !! h
  = if decide (h ∈ owned_by σ stack) then None else hyperedges σ !! h.
Proof. apply lookup_foldr_delete. Qed.

(** Destroying the elements of a stack succeeds exactly on a stack that can
    be released, and leaves the heap without its vertices and the
    hyperedges they own. *)
Lemma release_stack_inv stack : ∀ σ σ',
  release_stack σ stack = Some σ' →
  releasable σ stack ∧ σ' = released σ stack.
Proof.
  induction stack as [|v stack IH]; intros σ σ'; simpl.
  - intros [= <-]. split.
    + split; [constructor|]. split; [by intros v ?%elem_of_nil|].
      split; [constructor|]. by intros h ?%elem_of_nil.
    + by destruct σ.
  - destruct (delete_vertex σ v) as [σ1|] eqn:Hdel; [|done]. simpl.
    intros Hrest.
    destruct (delete_vertex_inv _ _ _ Hdel) as (sv & Hsv & Hnd & Hall & ->).
    destruct (IH _ _ Hrest) as ((Hnd1 & Hall1 & Hnd2 & Hall2) & ->).
    assert (Hfresh : v ∉ stack).
    { intros Hin. destruct (Hall1 v Hin) as [sv' Hsv']. simpl in Hsv'.
      by rewrite lookup_delete_eq in Hsv'. }
    assert (Hagree : owned_by (free_vertex (without_hyperedges σ (owned sv)) v)
                       stack = owned_by σ stack).
    { apply owned_by_ext. intros w Hw. simpl.
      by rewrite lookup_delete_ne by (by intros <-). }
    rewrite Hagree in Hnd2, Hall2.
    assert (Hfree : ∀ h, h ∈ owned_by σ stack →
              (h ∉ owned sv) ∧ is_Some (hyperedges σ !! h)).
    { intros h Hh. destruct (Hall2 h Hh) as [e He]. simpl in He.
      rewrite lookup_foldr_delete in He. case_decide; [done|].
      split; [done|]. by exists e. }
    split.
    + split; [by constructor|]. split.
      { intros w [->|Hw]%elem_of_cons; [by eauto|].
        destruct (Hall1 w Hw) as [sw Hsw]. simpl in Hsw.
        apply lookup_delete_Some in Hsw as [_ Hsw]. eauto. }
      rewrite (owned_by_cons _ _ _ _ Hsv). split.
      { apply NoDup_app. split; [done|]. split; [|done].
        intros h Hh Hh'. by destruct (Hfree h Hh'). }
      intros h [Hh|Hh]%elem_of_app; [by apply Hall|].
      by destruct (Hfree h Hh).
    + apply heap_eq; apply map_eq; intros k.
      * rewrite !released_vertices. simpl.
        destruct (decide (v = k)) as [->|Hne].
        -- rewrite lookup_delete_eq. rewrite (decide_True _ _ (list_elem_of_here _ _)).
           by case_decide.
        -- rewrite lookup_delete_ne by done. apply decide_ext.
           rewrite elem_of_cons. split; [tauto|].
           intros [Heq|Hin]; [congruence|done].
      * rewrite !released_hyperedges, Hagree, (owned_by_cons _ _ _ _ Hsv).
        simpl. rewrite lookup_foldr_delete.
        destruct (decide (k ∈ owned_by σ stack)) as [Hk|Hk].
        -- by rewrite decide_True by (apply elem_of_app; by right).
        -- destruct (decide (k ∈ owned sv)) as [Hk'|Hk'].
           ++ by rewrite decide_True by (apply elem_of_app; by left).
           ++ rewrite decide_False; [done|].
              rewrite elem_of_app. tauto.
Qed.

Lemma release_stack_Some stack : ∀ σ,
  releasable σ stack → release_stack σ stack = Some (released σ stack).
Proof.
  induction stack as [|v stack IH]; intros σ (Hnd1 & Hall1 & Hnd2 & Hall2);
    simpl.
  - by destruct σ.
  - apply NoDup_cons in Hnd1 as [Hfresh Hnd1].
    destruct (Hall1 v ltac:(by left)) as [sv Hsv].
    rewrite (owned_by_cons _ _ _ _ Hsv) in Hnd2, Hall2.
    apply NoDup_app in Hnd2 as (Hnd21 & Hdisj & Hnd22).
    unfold delete_vertex. rewrite Hsv. simpl.
    rewrite delete_hyperedges_Some;
      [|done|intros h Hh; apply Hall2, elem_of_app; by left].
    simpl.
    set (σ1 := free_vertex (without_hyperedges σ (owned sv)) v).
    assert (Hagree : owned_by σ1 stack = owned_by σ stack).
    { apply owned_by_ext. intros w Hw. subst σ1. simpl.
      by rewrite lookup_delete_ne by (by intros <-). }
    rewrite IH.
    + f_equal. apply heap_eq; apply map_eq; intros k.
      * rewrite !released_vertices. subst σ1. simpl.
        destruct (decide (v = k)) as [->|Hne].
        -- rewrite lookup_delete_eq. rewrite (decide_True _ _ (list_elem_of_here _ _)).
           by case_decide.
        -- rewrite lookup_delete_ne by done. apply decide_ext.
           rewrite elem_of_cons. split; [tauto|].
           intros [Heq|Hin]; [congruence|done].
      * rewrite !released_hyperedges, Hagree, (owned_by_cons _ _ _ _ Hsv).
        subst σ1. simpl. rewrite lookup_foldr_delete.
        destruct (decide (k ∈ owned_by σ stack)) as [Hk|Hk].
        -- by rewrite decide_True by (apply elem_of_app; by right).
        -- destruct (decide (k ∈ owned sv)) as [Hk'|Hk'].
           ++ by rewrite decide_True by (apply elem_of_app; by left).
           ++ rewrite decide_False; [done|].
              rewrite elem_of_app. tauto.
    + split; [done|]. split.
      { intros w Hw. subst σ1. simpl.
        rewrite lookup_delete_ne by (by intros <-).
        apply Hall1. by right. }
      rewrite Hagree. split; [done|].
      intros h Hh. subst σ1. simpl. rewrite lookup_foldr_delete.
      rewrite decide_False by (intros Hc; by apply (Hdisj h)).
      apply Hall2, elem_of_app. by right.
Qed.

Lemma releasable_nil σ : releasable σ [].
Proof.
  split; [constructor|]. split; [by intros v ?%elem_of_nil|].
  split; [constructor|]. by intros h ?%elem_of_nil.
Qed.

(** ** RecombineAndSort *)

Section RecombinationProperties.
Context `{RecombinationOrderer} `{StdSort}.

Lemma equivalent_refl x : equivalent x x.
Proof. split; apply orderer_irrefl. Qed.

Lemma equivalent_sym x y : equivalent x y → equivalent y x.
Proof. intros [? ?]. by split. Qed.

Lemma equivalent_trans x y z :
  equivalent x y → equivalent y z → equivalent x z.
Proof. intros [? ?] [? ?]. by eapply orderer_incomparable_trans. Qed.

Lemma ordered_not_equivalent x y : orderer x y = true → ¬ equivalent x y.
Proof. intros Hlt [Hxy _]. congruence. Qed.

Lemma ordered_not_equivalent_r x y : orderer x y = true → ¬ equivalent y x.
Proof. intros Hlt [_ Hxy]. congruence. Qed.

(** Ordering is compatible with equivalence on the left. *)
Lemma orderer_equivalent_l x y z :
  equivalent x y → orderer y z = true → orderer x z = true.
Proof.
  intros Hxy Hyz. destruct (orderer x z) eqn:Hxz; [done|].
  destruct (orderer z x) eqn:Hzx.
  - (* y < z < x contradicts x ~ y *)
    pose proof (orderer_trans _ _ _ Hyz Hzx) as Hyx.
    destruct Hxy as [_ Hc]. congruence.
  - assert (Hyx : equivalent y x) by by apply equivalent_sym.
    assert (Hxz' : equivalent x z) by by split.
    destruct (equivalent_trans _ _ _ Hyx Hxz') as [Hc _]. congruence.
Qed.

Lemma orderer_equivalent_r x y z :
  orderer x y = true → equivalent y z → orderer x z = true.
Proof.
  intros Hxy Hyz. destruct (orderer x z) eqn:Hxz; [done|].
  destruct (orderer z x) eqn:Hzx.
  - pose proof (orderer_trans _ _ _ Hzx Hxy) as Hzy.
    destruct Hyz as [_ Hc]. congruence.
  - assert (Hzx' : equivalent z x) by by split.
    destruct (equivalent_trans _ _ _ Hyz Hzx') as [_ Hc]. congruence.
Qed.

Lemma merge_class_state it c : c_state (merge_class it c) = c_state c.
Proof. unfold merge_class. by destruct (c_score c <? isc it). Qed.

Lemma merge_class_rep it c : c_rep (merge_class it c) = c_rep c.
Proof. unfold merge_class. by destruct (c_score c <? isc it). Qed.

(** Where [class_insert] puts an item: past the classes ordered before it,
    and then either as a new class in front of the classes ordered after it,
    or into the one class of its state. *)
Lemma class_insert_cases it cs :
  ∃ l1 l2, cs = l1 ++ l2
    ∧ Forall (λ c, orderer (c_state c) (ist it) = true) l1
    ∧ ((class_insert it cs = l1 ++ new_class it :: l2
        ∧ match l2 with
          | [] => True
          | c :: _ => orderer (ist it) (c_state c) = true
          end)
       ∨ (∃ c l2', l2 = c :: l2' ∧ equivalent (ist it) (c_state c)
            ∧ class_insert it cs = l1 ++ merge_class it c :: l2')).
Proof.
  induction cs as [|c cs IH]; simpl.
  - exists [], []. repeat split; [constructor|]. by left.
  - destruct (orderer (ist it) (c_state c)) eqn:Hlt.
    + exists [], (c :: cs). repeat split; [constructor|]. by left.
    + destruct (orderer (c_state c) (ist it)) eqn:Hgt.
      * destruct IH as (l1 & l2 & -> & Hl1 & Hcase).
        exists (c :: l1), l2. split; [done|]. split; [by constructor|].
        destruct Hcase as [[-> Hl2]|(c0 & l2' & -> & Heq & ->)].
        -- by left.
        -- right. by exists c0, l2'.
      * exists [], (c :: cs). repeat split; [constructor|].
        right. by exists c, cs.
Qed.

Lemma class_ok_skip done it c :
  class_ok done c → ¬ equivalent (ist it) (c_state c) →
  class_ok (done ++ [it]) c.
Proof.
  intros (Hperm & (b & Hb & Hbest) & Hmax & (r & Hr & Hrep)) Hne.
  repeat split.
  - rewrite filter_app, filter_cons_False, filter_nil, app_nil_r by done.
    exact Hperm.
  - exists b. split; [|done]. apply elem_of_app. by left.
  - intros it' Hin Heq. apply elem_of_app in Hin as [Hin|Hin]; [by apply Hmax|].
    apply list_elem_of_singleton in Hin as ->. done.
  - exists r. split; [|done]. apply elem_of_app. by left.
Qed.

Lemma classes_ok_skip done it l :
  Forall (class_ok done) l →
  Forall (λ c, ¬ equivalent (ist it) (c_state c)) l →
  Forall (class_ok (done ++ [it])) l.
Proof.
  intros Hok Hne. induction Hok as [|c l Hc Hl IH]; [constructor|].
  apply Forall_cons in Hne as [Hne Hnel].
  constructor; [by apply class_ok_skip|by apply IH].
Qed.

Lemma class_ok_new done it :
  (∀ it', it' ∈ done → ¬ equivalent (ist it') (ist it)) →
  class_ok (done ++ [it]) (new_class it).
Proof.
  intros Hnone.
  assert (Hin : it ∈ done ++ [it]) by (apply elem_of_app; right; by left).
  repeat split; simpl.
  - rewrite filter_app, filter_cons_True, filter_nil by apply equivalent_refl.
    by rewrite filter_none.
  - exists it. repeat split; try done; apply orderer_irrefl.
  - intros it' Hin' Heq. apply elem_of_app in Hin' as [Hin'|Hin'].
    + by apply Hnone in Heq.
    + apply list_elem_of_singleton in Hin' as ->. lia.
  - by exists it.
Qed.

Lemma class_ok_merge done it c :
  class_ok done c → equivalent (ist it) (c_state c) →
  class_ok (done ++ [it]) (merge_class it c).
Proof.
  intros (Hperm & (b & Hb & Hbh & Hbs & Hbeq) & Hmax & (r & Hr & Hrv & Hrs)) Heq.
  assert (Hin : it ∈ done ++ [it]) by (apply elem_of_app; right; by left).
  assert (Hfilter :
    ih <$> filter (λ it', equivalent (ist it') (c_state c)) (done ++ [it])
    ≡ₚ (c_best c :: c_rec c) ++ [ih it]).
  { rewrite filter_app, filter_cons_True, filter_nil by done.
    rewrite fmap_app. simpl. by rewrite <- Hperm. }
  unfold merge_class.
  destruct (Z.ltb_spec (c_score c) (isc it)) as [Hlt|Hge];
    (split; [|split; [|split]]); simpl.
  - rewrite Hfilter. simpl.
    etrans; [apply Permutation_skip, Permutation_app_comm|]. simpl.
    etrans; [apply perm_swap|]. apply Permutation_skip.
    apply (Permutation_app_comm [ih it]).
  - by exists it.
  - intros it' Hin' Heq'. apply elem_of_app in Hin' as [Hin'|Hin'].
    + specialize (Hmax it' Hin' Heq'). lia.
    + apply list_elem_of_singleton in Hin' as ->. lia.
  - exists r. split; [|done]. apply elem_of_app. by left.
  - rewrite Hfilter. done.
  - exists b. split; [|done]. apply elem_of_app. by left.
  - intros it' Hin' Heq'. apply elem_of_app in Hin' as [Hin'|Hin'].
    + by apply Hmax.
    + apply list_elem_of_singleton in Hin' as ->. lia.
  - exists r. split; [|done]. apply elem_of_app. by left.
Qed.

Lemma ordered_after_all x c l :
  StronglySorted (λ s1 s2, orderer s1 s2 = true) (c_state <$> c :: l) →
  orderer x (c_state c) = true →
  Forall (λ c', orderer x (c_state c') = true) (c :: l).
Proof.
  intros Hs Hx. simpl in Hs. apply StronglySorted_cons in Hs as [Hall _].
  constructor; [done|].
  apply Forall_fmap in Hall. eapply Forall_impl; [exact Hall|].
  simpl. intros c' Hc'. by eapply orderer_trans.
Qed.

Lemma classes_ok_nil : classes_ok [] [].
Proof.
  split; [constructor|]. split; [|constructor].
  intros it Hit. by apply elem_of_nil in Hit.
Qed.

Lemma classes_ok_insert done it cs :
  classes_ok done cs → classes_ok (done ++ [it]) (class_insert it cs).
Proof.
  intros (Hsorted & Hcover & Hok).
  destruct (class_insert_cases it cs) as (l1 & l2 & -> & Hl1 & Hcase).
  rewrite fmap_app in Hsorted.
  apply StronglySorted_app in Hsorted as (Hcross & Hs1 & Hs2).
  apply Forall_app in Hok as [Hok1 Hok2].
  assert (Hne1 : Forall (λ c, ¬ equivalent (ist it) (c_state c)) l1).
  { eapply Forall_impl; [exact Hl1|]. intros c. apply ordered_not_equivalent_r. }
  destruct Hcase as [[-> Hl2]|(c0 & l2' & -> & Heq & ->)].
  - (* a new class *)
    assert (Hafter : Forall (λ c, orderer (ist it) (c_state c) = true) l2).
    { destruct l2 as [|c l2]; [constructor|]. by apply ordered_after_all. }
    assert (Hne2 : Forall (λ c, ¬ equivalent (ist it) (c_state c)) l2).
    { eapply Forall_impl; [exact Hafter|]. intros c. apply ordered_not_equivalent. }
    split; [|split].
    + rewrite fmap_app. simpl. apply StronglySorted_app_2.
      * intros s1 s2 Hin1 Hin2. apply elem_of_cons in Hin2 as [->|Hin2].
        -- apply list_elem_of_fmap in Hin1 as (c & -> & Hc).
           by eapply Forall_forall in Hl1.
        -- by apply Hcross.
      * done.
      * apply StronglySorted_cons. split; [|done].
        apply Forall_fmap. exact Hafter.
    + intros it' Hin'. apply elem_of_app in Hin' as [Hin'|Hin'].
      * destruct (Hcover it' Hin') as (c & Hc & Hceq). exists c.
        split; [|done]. apply elem_of_app in Hc as [?|?];
          apply elem_of_app; [by left|right; by right].
      * apply list_elem_of_singleton in Hin' as ->. exists (new_class it).
        split; [|apply equivalent_refl].
        apply elem_of_app. right. by left.
    + apply Forall_app. split; [|constructor].
      * by apply classes_ok_skip.
      * apply class_ok_new. intros it' Hin' Heq'.
        destruct (Hcover it' Hin') as (c & Hc & Hceq).
        assert (Hitc : equivalent (ist it) (c_state c)).
        { eapply equivalent_trans; [apply equivalent_sym|]; done. }
        apply elem_of_app in Hc as [Hc|Hc].
        -- by eapply Forall_forall in Hne1.
        -- by eapply Forall_forall in Hne2.
      * by apply classes_ok_skip.
  - (* merged into the class of its state *)
    apply Forall_cons in Hok2 as [Hok0 Hok2].
    assert (Hne2 : Forall (λ c, ¬ equivalent (ist it) (c_state c)) l2').
    { simpl in Hs2. apply StronglySorted_cons in Hs2 as [Hall _].
      apply Forall_fmap in Hall. eapply Forall_impl; [exact Hall|].
      simpl. intros c Hc. apply ordered_not_equivalent.
      by eapply orderer_equivalent_l. }
    split; [|split].
    + rewrite fmap_app. simpl. rewrite merge_class_state.
      apply StronglySorted_app_2; done.
    + intros it' Hin'. apply elem_of_app in Hin' as [Hin'|Hin'].
      * destruct (Hcover it' Hin') as (c & Hc & Hceq).
        apply elem_of_app in Hc as [Hc|Hc].
        -- exists c. split; [|done]. apply elem_of_app. by left.
        -- apply elem_of_cons in Hc as [->|Hc].
           ++ exists (merge_class it c0). rewrite merge_class_state.
              split; [|done]. apply elem_of_app. right. by left.
           ++ exists c. split; [|done]. apply elem_of_app. right. by right.
      * apply list_elem_of_singleton in Hin' as ->. exists (merge_class it c0).
        rewrite merge_class_state. split; [|done].
        apply elem_of_app. right. by left.
    + apply Forall_app. split; [|constructor].
      * by apply classes_ok_skip.
      * by apply class_ok_merge.
      * by apply classes_ok_skip.
Qed.

(** *** What the loop of step 1 does to the heap *)

(** [map.insert] adds at most the pair for [v], and reports the mapped value
    of an entry that was there otherwise. *)
Lemma map_insert_entries σ v map : ∀ map' stored inserted,
  map_insert σ v map = Some (map', stored, inserted) →
  map' ≠ [] ∧ (length map' ≤ S (length map))%nat
  ∧ (∀ kv, kv ∈ map' → kv ∈ map ∨ kv = (v, v))
  ∧ (if inserted then stored = v
     else map' = map ∧ ∃ key, (key, stored) ∈ map).
Proof.
  induction map as [|[key value] map IH]; intros map' stored inserted; simpl.
  - intros [= <- <- <-]. split; [done|]. split; [simpl; lia|].
    split; [|done].
    intros kv [->|Hkv]%elem_of_cons; [by right|by apply elem_of_nil in Hkv].
  - destruct (vertices σ !! v) as [sv|]; [|done]. simpl.
    destruct (vertices σ !! key) as [sk|]; [|done]. simpl.
    destruct (orderer (state sv) (state sk)).
    + intros [= <- <- <-]. split; [done|]. split; [simpl; lia|].
      split; [|done].
      intros kv [->|Hkv]%elem_of_cons; [by right|by left].
    + destruct (orderer (state sk) (state sv)).
      * destruct (map_insert σ v map) as [[[map1 stored1] inserted1]|];
          [|done].
        simpl. intros [= <- <- <-].
        destruct (IH _ _ _ eq_refl) as (_ & Hlen & Hent & Hins).
        split; [done|]. split; [simpl; lia|]. split.
        -- intros kv [->|Hkv]%elem_of_cons; [left; by left|].
           destruct (Hent kv Hkv) as [?|?]; [left; by right|by right].
        -- destruct inserted1; [done|]. destruct Hins as [-> [k Hk]].
           split; [done|]. exists k. by right.
      * intros [= <- <- <-]. split; [done|]. split; [simpl; lia|]. split.
        -- intros kv Hkv. by left.
        -- split; [done|]. exists key. by left.
Qed.

(** One pass of the loop body: the two assertions hold for [h], and either
    the head of [h] enters the map and the heap stays as it is, or [h] is
    handed to the stored vertex and its own head vertex is deleted. *)
Lemma recombine_step_effect σ map h σ' map' :
  recombine_step (σ, map) h = Some (σ', map') →
  ∃ eh sv stored inserted,
    hyperedges σ !! h = Some eh ∧ vertices σ !! head eh = Some sv
    ∧ best sv = Some h ∧ recombined sv = []
    ∧ map_insert σ (head eh) map = Some (map', stored, inserted)
    ∧ if inserted then σ' = σ
      else ∃ ss ss',
          vertices σ !! stored = Some ss
          ∧ state ss' = state ss ∧ pvertex ss' = pvertex ss
          ∧ recombined ss' ≠ []
          ∧ hyperedges σ' = <[h := with_head eh stored]> (hyperedges σ)
          ∧ vertices σ' = delete (head eh) (<[stored := ss']> (vertices σ)).
Proof.
  unfold recombine_step.
  destruct (hyperedges σ !! h) as [eh|] eqn:Heh; [|done]. simpl.
  destruct (vertices σ !! head eh) as [sv|] eqn:Hsv; [|done]. simpl.
  case_decide as Hassert; [|done]. destruct Hassert as [Hbest Hrec].
  destruct (map_insert σ (head eh) map) as [[[map1 stored] inserted]|] eqn:Hins;
    [|done].
  simpl. destruct inserted.
  - intros [= <- <-]. by exists eh, sv, stored, true.
  - destruct (vertices σ !! stored) as [ss|] eqn:Hss; [|done]. simpl.
    destruct (best ss) as [hb|] eqn:Hb; [|done]. simpl.
    destruct (hyperedges σ !! hb) as [eb|] eqn:Heb; [|done]. simpl.
    rewrite Heh. simpl.
    set (ss' := if score eb <? score eh
                then with_best (push_recombined ss hb) (Some h)
                else push_recombined ss h).
    destruct (decide (stored = head eh)) as [->|Hne].
    { (* [h] is handed to its own head vertex, which is deleted with it *)
      rewrite Hsv in Hss. injection Hss as <-.
      rewrite Hbest in Hb. injection Hb as <-.
      rewrite Heh in Heb. injection Heb as <-.
      subst ss'. rewrite Z.ltb_irrefl, lookup_insert_eq. simpl.
      unfold delete_vertex. simpl. rewrite lookup_insert_eq. simpl.
      unfold owned. simpl. rewrite Hrec. simpl.
      unfold delete_hyperedge. simpl. rewrite Heh. simpl.
      by rewrite lookup_delete_eq. }
    rewrite lookup_insert_ne, Hsv by done. simpl.
    erewrite delete_vertex_unowned; [|apply lookup_insert_eq|done|done].
    simpl. rewrite Heh. simpl. intros [= <- <-].
    exists eh, sv, stored, false. repeat (split; [done|]).
    exists ss, ss'. split; [done|].
    split; [subst ss'; by destruct (score eb <? score eh)|].
    split; [subst ss'; by destruct (score eb <? score eh)|].
    split.
    { subst ss'. destruct (score eb <? score eh); simpl;
        by destruct (recombined ss). }
    split; [done|]. simpl. by rewrite delete_insert_eq.
Qed.

Lemma untouched_entry σ buffer : untouched σ buffer σ [].
Proof.
  split; [done|]. split; [|split; [|split; [done|constructor]]].
  - intros h e He. exists e. repeat split; try done.
    intros Hh. by exists h, e.
  - intros v sv Hv. by exists sv.
Qed.

Lemma recombine_step_untouched σ buffer σi mapi h σ' map' :
  h ∈ buffer → untouched σ buffer σi mapi →
  recombine_step (σi, mapi) h = Some (σ', map') →
  untouched σ buffer σ' map'.
Proof.
  intros Hh (Hdom & Hedges & Hverts & Hother & Hmap) Hstep.
  destruct (recombine_step_effect _ _ _ _ _ Hstep)
    as (eh & sv & stored & inserted & Heh & Hsv & _ & _ & Hins & Heff).
  destruct (map_insert_entries _ _ _ _ _ _ Hins) as (_ & _ & Hent & Hcase).
  assert (Hhdom : h ∈ dom (hyperedges σi)) by (apply elem_of_dom; eauto).
  assert (Hhead : entry_head σ buffer (head eh)).
  { pose proof Hhdom as Hd. rewrite Hdom in Hd.
    apply elem_of_dom in Hd as [e He].
    destruct (Hedges h e He) as (e' & He' & _ & _ & _ & Hin).
    rewrite Heh in He'. injection He' as <-. by apply Hin. }
  assert (Hstored : entry_head σ buffer stored).
  { destruct inserted; [by subst|]. destruct Hcase as [_ [key Hk]].
    eapply Forall_forall in Hmap; [|exact Hk]. apply Hmap. }
  destruct inserted.
  - subst σ'. repeat (split; [done|]).
    apply Forall_forall. intros kv Hkv.
    destruct (Hent kv Hkv) as [Hold| ->]; [|by split].
    by eapply Forall_forall in Hmap.
  - destruct Heff as (ss & ss' & Hss & Hst & Hpv & _ & Hhs & Hvs).
    destruct Hcase as [-> _].
    split; [|split; [|split; [|split; [|done]]]].
    + rewrite Hhs, dom_insert_L, <- Hdom.
      by apply subseteq_union_1_L, singleton_subseteq_l.
    + intros h0 e0 He0.
      destruct (Hedges h0 e0 He0) as (e' & He' & Hs & Ht & Hn & Hi).
      rewrite Hhs. destruct (decide (h0 = h)) as [->|Hne].
      * rewrite lookup_insert_eq. eexists. split; [done|].
        rewrite Heh in He'. injection He' as <-. simpl.
        repeat split; done.
      * rewrite lookup_insert_ne by done. by exists e'.
    + intros v sv' Hv. rewrite Hvs in Hv.
      apply lookup_delete_Some in Hv as [Hne Hv].
      destruct (decide (v = stored)) as [->|Hns].
      * rewrite lookup_insert_eq in Hv. injection Hv as <-.
        destruct (Hverts _ _ Hss) as (sv0 & Hsv0 & Hs0 & Hp0).
        exists sv0. split; [done|]. split; congruence.
      * rewrite lookup_insert_ne in Hv by done. by apply Hverts.
    + intros v Hv. rewrite Hvs.
      rewrite lookup_delete_ne by (by intros <-).
      rewrite lookup_insert_ne by (by intros <-). by apply Hother.
Qed.

Lemma recombine_loop_untouched σ buffer : ∀ todo σi mapi σ' map',
  (∀ h, h ∈ todo → h ∈ buffer) → untouched σ buffer σi mapi →
  recombine_loop (σi, mapi) todo = Some (σ', map') →
  untouched σ buffer σ' map'
  ∧ (length map' ≤ length mapi + length todo)%nat
  ∧ (todo ≠ [] → map' ≠ []).
Proof.
  induction todo as [|h todo IH]; intros σi mapi σ' map' Hsub Hinv;
    cbn [recombine_loop].
  - intros [= <- <-]. split; [done|]. split; [simpl; lia|done].
  - destruct (recombine_step (σi, mapi) h) as [[σ1 map1]|] eqn:Hstep; [|done].
    cbn [mbind option_bind]. intros Hloop.
    pose proof (recombine_step_untouched _ _ _ _ _ _ _
                  (Hsub h ltac:(by left)) Hinv Hstep) as Hinv1.
    destruct (recombine_step_effect _ _ _ _ _ Hstep)
      as (eh & sv & stored & inserted & _ & _ & _ & _ & Hins & _).
    destruct (map_insert_entries _ _ _ _ _ _ Hins) as (Hne & Hlen & _).
    destruct (IH _ _ _ _ (λ h' Hh', Hsub h' ltac:(by right)) Hinv1 Hloop)
      as (Hinv' & Hlen' & Hne').
    split; [done|]. split; [simpl; lia|]. intros _.
    destruct todo as [|h' todo]; [|by apply Hne'].
    cbn [recombine_loop] in Hloop. by injection Hloop as <- <-.
Qed.

(** Step 3 rearranges the stack. *)
Lemma sort_stack_Permutation σ stack stack' :
  sort_stack σ stack = Some stack' → stack' ≡ₚ stack.
Proof.
  unfold sort_stack. case_decide as Hlen; [by intros [= <-]|].
  destruct (mapM _ stack) as [scored|] eqn:Hscored; [|done].
  simpl. intros [= <-]. rewrite std_sort_perm.
  apply mapM_Some in Hscored. clear Hlen.
  induction Hscored as [|v p stack scored Hp Hall IH]; [done|].
  csimpl. destruct (best_score σ v) as [sc|]; [|done].
  simpl in Hp. injection Hp as <-. simpl. by rewrite IH.
Qed.

Lemma RecombineAndSort_untouched σ buffer stack0 σ' stack :
  RecombineAndSort σ buffer stack0 = Some (σ', stack) →
  ∃ σ1 map, untouched σ buffer σ1 map
    ∧ releasable σ1 stack0 ∧ σ' = released σ1 stack0
    ∧ stack ≡ₚ map.*1
    ∧ (length map ≤ length buffer)%nat ∧ (buffer ≠ [] → map ≠ []).
Proof.
  unfold RecombineAndSort.
  destruct (recombine_loop (σ, []) buffer) as [[σ1 map]|] eqn:Hloop; [|done].
  simpl.
  destruct (release_stack σ1 stack0) as [σ2|] eqn:Hrel; [|done]. simpl.
  destruct (sort_stack σ2 map.*1) as [stack1|] eqn:Hsort; [|done].
  simpl. intros [= <- <-].
  destruct (recombine_loop_untouched σ buffer buffer σ [] σ1 map
              (λ h Hh, Hh) (untouched_entry σ buffer) Hloop)
    as (Hinv & Hlen & Hne).
  destruct (release_stack_inv _ _ _ Hrel) as [Hok ->].
  exists σ1, map. split; [done|]. split; [done|]. split; [done|].
  split; [by apply sort_stack_Permutation in Hsort|]. by split.
Qed.

(** Once the loop of step 1 is through, a stack that could be cleared on
    entry can still be cleared, and releases what it owned on entry. *)
Lemma clearable_untouched σ buffer stack0 σ1 map :
  untouched σ buffer σ1 map → clearable σ buffer stack0 →
  releasable σ1 stack0 ∧ owned_by σ1 stack0 = owned_by σ stack0.
Proof.
  intros (Hdom & _ & _ & Hother & _) ((Hnd1 & Hall1 & Hnd2 & Hall2) & Hheads & _).
  assert (Hagree : owned_by σ1 stack0 = owned_by σ stack0).
  { apply owned_by_ext. intros v Hv. by apply Hother, Hheads. }
  split; [|done]. split; [done|]. split.
  { intros v Hv. rewrite Hother by (by apply Hheads). by apply Hall1. }
  rewrite Hagree. split; [done|].
  intros h Hh. apply elem_of_dom. rewrite Hdom. apply elem_of_dom.
  by apply Hall2.
Qed.

Lemma clearable_nil σ buffer : clearable σ buffer [].
Proof.
  split; [apply releasable_nil|].
  split; [by intros v ?%elem_of_nil|by intros h ?%elem_of_nil].
Qed.

(** A class is still held by the heap once a stack has been released that
    holds neither its vertex nor its best hyperedge. *)
Lemma holds_class_released σ stack0 c :
  holds_class σ c → c_rep c ∉ stack0 → c_best c ∉ owned_by σ stack0 →
  holds_class (released σ stack0) c.
Proof.
  intros [Hv He] Hrep Hbest. split.
  - by rewrite released_vertices, decide_False.
  - by rewrite released_hyperedges, decide_False.
Qed.

(** *** The loop of step 1 computes [class_insert] *)

Lemma map_insert_spec σ it cs sv :
  vertices σ !! iv it = Some sv → state sv = ist it →
  Forall (λ c, ∃ sc, vertices σ !! c_rep c = Some sc ∧ state sc = c_state c) cs →
  ∃ stored inserted,
    map_insert σ (iv it) (map_of cs)
    = Some (map_of (class_insert it cs), stored, inserted)
    ∧ ((inserted = true ∧ stored = iv it
        ∧ ∃ l1 l2, cs = l1 ++ l2
                   ∧ class_insert it cs = l1 ++ new_class it :: l2)
       ∨ (inserted = false
          ∧ ∃ l1 c l2, cs = l1 ++ c :: l2 ∧ stored = c_rep c
              ∧ class_insert it cs = l1 ++ merge_class it c :: l2)).
Proof.
  intros Hv Hst Hcs. induction Hcs as [|c cs (sc & Hc & Hsc) Hcs IH]; simpl.
  - exists (iv it), true. split; [done|]. left. repeat split. by exists [], [].
  - rewrite Hv, Hc. simpl. rewrite Hst, Hsc.
    destruct (orderer (ist it) (c_state c)) eqn:Hlt.
    + exists (iv it), true. split; [done|]. left. repeat split.
      by exists [], (c :: cs).
    + destruct (orderer (c_state c) (ist it)) eqn:Hgt.
      * destruct IH as (stored & inserted & -> & Hcase). simpl.
        exists stored, inserted. split; [done|].
        destruct Hcase as [(-> & -> & l1 & l2 & -> & ->)
                          |(-> & l1 & c0 & l2 & -> & -> & ->)].
        -- left. repeat split. by exists (c :: l1), l2.
        -- right. split; [done|]. by exists (c :: l1), c0, l2.
      * exists (c_rep c), false. split.
        { unfold map_of. simpl. by rewrite merge_class_rep. }
        right. split; [done|]. by exists [], c, cs.
Qed.

(** A class survives the merge of another hyperedge into a different vertex:
    its vertex is neither the deleted one nor the updated one, and the
    hyperedge that is re-headed keeps its score. *)
Lemma holds_class_frame σ σ' c v stored h eh :
  holds_class σ c →
  c_rep c ≠ v → c_rep c ≠ stored →
  hyperedges σ !! h = Some eh →
  vertices σ' !! c_rep c = vertices σ !! c_rep c →
  hyperedges σ' = <[h := with_head eh stored]> (hyperedges σ) →
  holds_class σ' c.
Proof.
  intros [Hvx (e & He & Hsc)] Hv Hs Hh Hvs Hhs. split.
  - by rewrite Hvs.
  - rewrite Hhs. destruct (decide (c_best c = h)) as [Heq|Hne].
    + rewrite Heq in He |- *. rewrite lookup_insert_eq.
      eexists. split; [done|]. simpl. congruence.
    + rewrite lookup_insert_ne by done. by exists e.
Qed.

Lemma holds_item_frame σ σ' it h e' :
  holds_item σ it →
  ih it ≠ h →
  vertices σ' !! iv it = vertices σ !! iv it →
  hyperedges σ' = <[h := e']> (hyperedges σ) →
  holds_item σ' it.
Proof.
  intros (e & pv & He & Hhd & Hsc & Hv) Hne Hvs Hhs.
  exists e, pv. rewrite Hhs, lookup_insert_ne, Hvs by done. done.
Qed.

Lemma recombine_step_spec σ m cs it todo :
  represents σ m cs (it :: todo) → NoDup (ih <$> it :: todo) →
  ∃ σ' m', recombine_step (σ, m) (ih it) = Some (σ', m')
    ∧ represents σ' m' (class_insert it cs) todo.
Proof.
  intros (-> & Hcs & Htodo & Hnd & Hdisj) Hih.
  apply Forall_cons in Htodo as [Hit Htodo].
  pose proof Hit as (eh & pv & Heh & Hhead & Hscore & Hsv).
  simpl in Hih. apply NoDup_cons in Hih as [Hfresh Hih].
  assert (Hih' : ∀ it', it' ∈ todo → ih it' ≠ ih it).
  { intros it' Hin Heq. apply Hfresh. rewrite <- Heq.
    apply list_elem_of_fmap. by exists it'. }
  assert (Hiv : ∀ it', it' ∈ todo → iv it' ≠ iv it).
  { intros it' Hin Heq. pose proof Hin as Hin'.
    eapply Forall_forall in Hin'; [|exact Htodo].
    destruct Hin' as (e' & pv' & _ & _ & _ & Hsv').
    rewrite Heq, Hsv in Hsv'. injection Hsv' as Hb _.
    by apply (Hih' it' Hin). }
  assert (Hstates : Forall (λ c, ∃ sc, vertices σ !! c_rep c = Some sc
                                       ∧ state sc = c_state c) cs).
  { eapply Forall_impl; [exact Hcs|]. intros c [[pc Hc] _]. eauto. }
  destruct (map_insert_spec σ it cs _ Hsv eq_refl Hstates)
    as (stored & inserted & Hins & Hcase).
  unfold recombine_step. rewrite Heh. simpl. rewrite Hhead, Hsv. simpl.
  rewrite decide_True by done. rewrite Hins. simpl.
  destruct Hcase as [(-> & -> & l1 & l2 & -> & Hnew)
                    |(-> & l1 & c & l2 & -> & -> & Hmerge)].
  - (* the state of [v] has not been seen before *)
    eexists _, _. split; [done|]. rewrite Hnew.
    apply Forall_app in Hcs as [Hcs1 Hcs2].
    split; [done|]. split; [|split; [done|split]].
    + apply Forall_app. split; [done|]. constructor; [|done].
      split; simpl; [by exists pv|]. by exists eh.
    + rewrite fmap_app in *. simpl.
      apply NoDup_app in Hnd as (Hnd1 & Hnd12 & Hnd2).
      assert (Hnotin : ∀ l : list Class,
                (∀ c, c ∈ l → c ∈ l1 ++ l2) → iv it ∉ c_rep <$> l).
      { intros l Hl Hin. apply list_elem_of_fmap in Hin as (c & Hc & Hin).
        eapply Hdisj; [by apply Hl|by left|done]. }
      apply NoDup_app. split; [done|]. split.
      * intros x Hx1 Hx2. apply elem_of_cons in Hx2 as [->|Hx2].
        -- revert Hx1. apply Hnotin. intros c Hc. apply elem_of_app. by left.
        -- by eapply Hnd12.
      * constructor; [|done].
        apply Hnotin. intros c Hc. apply elem_of_app. by right.
    + intros c it' Hc Hin'. apply elem_of_app in Hc as [Hc|Hc].
      * apply Hdisj; [|by right]. apply elem_of_app. by left.
      * apply elem_of_cons in Hc as [->|Hc].
        -- simpl. intros Heq. by eapply Hiv.
        -- apply Hdisj; [|by right]. apply elem_of_app. by right.
  - (* [v] duplicates the stored vertex of class [c] *)
    assert (Hcin : c ∈ l1 ++ c :: l2) by (apply elem_of_app; right; by left).
    assert (Hcv : c_rep c ≠ iv it) by (apply Hdisj; [done|by left]).
    apply Forall_app in Hcs as [Hcs1 Hcs2].
    apply Forall_cons in Hcs2 as [Hc Hcs2].
    destruct Hc as [[pc Hcvx] (eb & Heb & Hebs)].
    rewrite Hcvx. simpl. rewrite Heb. simpl. rewrite Heh. simpl.
    rewrite Hhead, lookup_insert_ne, Hsv by done. simpl.
    erewrite delete_vertex_unowned; [|apply lookup_insert_eq|done|done].
    simpl. rewrite Heh. simpl.
    eexists _, _. split; [done|]. rewrite Hmerge.
    rewrite fmap_app in Hnd. simpl in Hnd.
    apply NoDup_app in Hnd as (Hnd1 & Hnd12 & Hnd2).
    apply NoDup_cons in Hnd2 as [Hc2 Hnd2].
    assert (Hother : ∀ c', c' ∈ l1 ++ l2 →
              c_rep c' ≠ iv it ∧ c_rep c' ≠ c_rep c).
    { intros c' Hc'. split.
      - apply Hdisj; [|by left].
        apply elem_of_app in Hc' as [?|?]; apply elem_of_app;
          [by left|right; by right].
      - intros Heq. apply elem_of_app in Hc' as [Hc'|Hc'].
        + eapply (Hnd12 (c_rep c)); [|by left].
          rewrite <- Heq. apply list_elem_of_fmap. by exists c'.
        + apply Hc2. rewrite <- Heq. apply list_elem_of_fmap. by exists c'. }
    match goal with |- represents ?σ4 _ _ _ => set (σ' := σ4) end.
    assert (Hvs : ∀ w, w ≠ iv it → w ≠ c_rep c →
              vertices σ' !! w = vertices σ !! w).
    { intros w Hw1 Hw2. subst σ'. simpl.
      by rewrite lookup_delete_ne, !lookup_insert_ne. }
    assert (Hhs : hyperedges σ'
                  = <[ih it := with_head eh (c_rep c)]> (hyperedges σ))
      by done.
    assert (Hframe : ∀ l : list Class, (∀ c', c' ∈ l → c' ∈ l1 ++ l2) →
              Forall (holds_class σ) l → Forall (holds_class σ') l).
    { intros l Hl Hall. apply Forall_forall. intros c' Hc'.
      destruct (Hother c' (Hl c' Hc')) as [Hn1 Hn2].
      eapply holds_class_frame; [by eapply Forall_forall in Hall| | | | |];
        [exact Hn1|exact Hn2|exact Heh| |done].
      by apply Hvs. }
    split; [|split; [|split; [|split]]].
    + unfold map_of. rewrite !fmap_app. simpl. by rewrite merge_class_rep.
    + apply Forall_app. split; [|constructor].
      * apply Hframe; [|done]. intros c' ?. apply elem_of_app. by left.
      * unfold merge_class. rewrite <- Hebs, <- Hscore.
        subst σ'. destruct (score eb <? score eh); split; simpl.
        -- exists pc.
           by rewrite lookup_delete_ne, lookup_insert_ne, lookup_insert_eq.
        -- rewrite lookup_insert_eq. by eexists.
        -- exists pc.
           by rewrite lookup_delete_ne, lookup_insert_ne, lookup_insert_eq.
        -- destruct (decide (c_best c = ih it)) as [Heq|Hne].
           ++ rewrite Heq in Heb |- *. rewrite lookup_insert_eq.
              eexists. split; [done|]. simpl. congruence.
           ++ rewrite lookup_insert_ne by done. by exists eb.
      * apply Hframe; [|done]. intros c' ?. apply elem_of_app. by right.
    + apply Forall_forall. intros it' Hin'.
      eapply holds_item_frame; [by eapply Forall_forall in Htodo| | |done].
      * by apply Hih'.
      * apply Hvs; [by apply Hiv|].
        apply not_eq_sym, Hdisj; [done|by right].
    + rewrite fmap_app. simpl. rewrite merge_class_rep.
      apply NoDup_app. split; [done|]. split; [done|]. by constructor.
    + intros c' it' Hc' Hin'.
      apply elem_of_app in Hc' as [Hc'|Hc'].
      * apply Hdisj; [|by right]. apply elem_of_app. by left.
      * apply elem_of_cons in Hc' as [->|Hc'].
        -- rewrite merge_class_rep. apply Hdisj; [done|by right].
        -- apply Hdisj; [|by right]. apply elem_of_app. right. by right.
Qed.

Lemma classes_of_snoc items it :
  classes_of (items ++ [it]) = class_insert it (classes_of items).
Proof. unfold classes_of. by rewrite foldl_app. Qed.

Lemma classes_of_ok items : classes_ok items (classes_of items).
Proof.
  induction items as [|it items IH] using rev_ind; [apply classes_ok_nil|].
  rewrite classes_of_snoc. by apply classes_ok_insert.
Qed.

Lemma recombine_loop_spec todo : ∀ σ m cs,
  represents σ m cs todo → NoDup (ih <$> todo) →
  ∃ σ' m', recombine_loop (σ, m) (ih <$> todo) = Some (σ', m')
    ∧ represents σ' m' (foldl (λ cs it, class_insert it cs) cs todo) [].
Proof.
  induction todo as [|it todo IH]; intros σ m cs Hrep Hnd.
  - by exists σ, m.
  - destruct (recombine_step_spec _ _ _ _ _ Hrep Hnd) as (σ1 & m1 & Hstep & Hrep1).
    change (recombine_loop (σ, m) (ih <$> it :: todo))
      with (st' ← recombine_step (σ, m) (ih it);
            recombine_loop st' (ih <$> todo)).
    rewrite Hstep. simpl. apply IH; [done|].
    simpl in Hnd. by apply NoDup_cons in Hnd as [_ ?].
Qed.

Lemma fresh_buffer_items σ buffer :
  fresh_buffer σ buffer →
  ∃ items, buffer = ih <$> items
    ∧ Forall (holds_item σ) items
    ∧ Forall (λ it, item_at σ (ih it) = Some it) items.
Proof.
  intros [_ Hall]. induction buffer as [|h buffer IH].
  - by exists [].
  - destruct IH as (items & -> & Hitems & Hat).
    { intros h' Hh'. apply Hall. by right. }
    destruct (Hall h) as (e & sv & He & Hv & Hb & Hr); [by left|].
    exists ({| ih := h; iv := head e; ist := state sv; isc := score e |} :: items).
    split; [done|]. split; constructor; try done.
    + exists e, (pvertex sv). simpl. repeat split; try done.
      rewrite Hv. f_equal. destruct sv; simpl in *. by subst.
    + unfold item_at. simpl. rewrite He. simpl. by rewrite Hv.
Qed.

Lemma SVertexStackContentOrderer_swo :
  StrictWeakOrder SVertexStackContentOrderer.
Proof.
  unfold SVertexStackContentOrderer. split.
  - intros x. rewrite Z.gtb_ltb. apply Z.ltb_irrefl.
  - intros x y z. rewrite !Z.gtb_ltb, !Z.ltb_lt. lia.
  - intros x y z. rewrite !Z.gtb_ltb, !Z.ltb_ge. lia.
Qed.

Lemma holds_class_best_score σ c :
  holds_class σ c → best_score σ (c_rep c) = Some (c_score c).
Proof.
  intros [[pv Hv] (e & He & Hs)]. unfold best_score.
  rewrite Hv. simpl. rewrite He. simpl. by rewrite Hs.
Qed.

Lemma sort_stack_spec σ cs :
  Forall (holds_class σ) cs →
  ∃ result, result ≡ₚ scored_classes cs
    ∧ sort_stack σ (c_rep <$> cs) = Some (result.*1)
    ∧ StronglySorted Z.ge (result.*2).
Proof.
  intros Hcs. unfold sort_stack.
  assert (Hfst : (scored_classes cs).*1 = c_rep <$> cs).
  { unfold scored_classes. rewrite <- list_fmap_compose.
    by apply list_fmap_ext. }
  case_decide as Hlen.
  - exists (scored_classes cs). split; [done|]. split; [by rewrite Hfst|].
    rewrite length_fmap in Hlen.
    destruct cs as [|c [|c' cs]]; simpl in *; [| |lia].
    + constructor.
    + repeat constructor.
  - assert (Hscored :
      mapM (λ v, s ← best_score σ v; Some (v, s)) (c_rep <$> cs)
      = Some (scored_classes cs)).
    { apply mapM_Some. unfold scored_classes.
      apply Forall2_fmap. apply Forall_Forall2_diag.
      eapply Forall_impl; [exact Hcs|]. intros c Hc. simpl.
      by rewrite (holds_class_best_score _ _ Hc). }
    rewrite Hscored. simpl.
    exists (std_sort SVertexStackContentOrderer (scored_classes cs)).
    split; [apply std_sort_perm|]. split; [done|].
    eapply StronglySorted_fmap;
      [|apply std_sort_sorted, SVertexStackContentOrderer_swo].
    intros x y. unfold SVertexStackContentOrderer.
    rewrite Z.gtb_ltb, Z.ltb_ge. lia.
Qed.

(** Step 2 on a stack that can be cleared: the heap after the loop of
    step 1 loses the vertices of the stack and what they owned on entry. *)
Lemma RecombineAndSort_clear σ buffer stack0 σ1 map :
  recombine_loop (σ, []) buffer = Some (σ1, map) →
  clearable σ buffer stack0 →
  RecombineAndSort σ buffer stack0
  = (stack ← sort_stack (released σ1 stack0) map.*1;
     Some (released σ1 stack0, stack))
  ∧ owned_by σ1 stack0 = owned_by σ stack0
  ∧ untouched σ buffer σ1 map.
Proof.
  intros Hloop Hclear.
  destruct (recombine_loop_untouched σ buffer buffer σ [] σ1 map
              (λ h Hh, Hh) (untouched_entry σ buffer) Hloop) as (Hinv & _).
  destruct (clearable_untouched _ _ _ _ _ Hinv Hclear) as [Hrel Hown].
  split; [|by split]. unfold RecombineAndSort. rewrite Hloop. simpl.
  by rewrite (release_stack_Some _ _ Hrel).
Qed.

(** The classes of the buffer are still held once the stack passed in has
    been cleared. *)
Lemma classes_held_released σ items stack0 σ1 :
  clearable σ (ih <$> items) stack0 →
  untouched σ (ih <$> items) σ1 (map_of (classes_of items)) →
  owned_by σ1 stack0 = owned_by σ stack0 →
  Forall (holds_class σ1) (classes_of items) →
  Forall (holds_class (released σ1 stack0)) (classes_of items).
Proof.
  intros (_ & Hheads & Hbuffer) (_ & _ & _ & _ & Hmap) Hown Hcs.
  destruct (classes_of_ok items) as (_ & _ & Hok).
  apply Forall_forall. intros c Hc.
  apply holds_class_released; [by eapply Forall_forall in Hcs| |].
  - intros Hin. apply (Hheads _ Hin).
    assert (Hkv : (c_rep c, c_rep c) ∈ map_of (classes_of items))
      by (apply list_elem_of_fmap; by exists c).
    eapply Forall_forall in Hmap; [|exact Hkv]. apply Hmap.
  - rewrite Hown. intros Hin. apply (Hbuffer _ Hin).
    eapply Forall_forall in Hok; [|exact Hc].
    destruct Hok as (_ & (it & Hit & <- & _) & _).
    apply list_elem_of_fmap. by exists it.
Qed.

(** What [RecombineAndSort] computes, in terms of the classes of the buffer
    entries. *)
Lemma RecombineAndSort_spec σ buffer stack0 :
  fresh_buffer σ buffer → clearable σ buffer stack0 →
  ∃ items σ' result,
    buffer = ih <$> items
    ∧ Forall (λ it, item_at σ (ih it) = Some it) items
    ∧ RecombineAndSort σ buffer stack0 = Some (σ', result.*1)
    ∧ result ≡ₚ scored_classes (classes_of items)
    ∧ StronglySorted Z.ge (result.*2)
    ∧ Forall (holds_class σ') (classes_of items)
    ∧ NoDup (c_rep <$> classes_of items)
    ∧ (∀ h, h ∈ buffer → is_Some (hyperedges σ' !! h)).
Proof.
  intros Hfresh Hclear.
  destruct (fresh_buffer_items _ _ Hfresh) as (items & -> & Hitems & Hat).
  destruct Hfresh as [Hnd _].
  assert (Hrep : represents σ [] [] items).
  { repeat split; try done; [constructor|].
    intros c it Hc. by apply elem_of_nil in Hc. }
  destruct (recombine_loop_spec _ _ _ _ Hrep Hnd)
    as (σ1 & m' & Hloop & -> & Hcs & _ & Hreps & _).
  fold (classes_of items) in *.
  destruct (RecombineAndSort_clear _ _ _ _ _ Hloop Hclear)
    as (Hrun & Hown & Hinv).
  pose proof (classes_held_released _ _ _ _ Hclear Hinv Hown Hcs) as Hcs'.
  destruct Hinv as (Hdom & _).
  destruct Hclear as (_ & Hheads & Hbuffer).
  destruct (sort_stack_spec _ _ Hcs') as (result & Hperm & Hsort & Hsorted).
  exists items, (released σ1 stack0), result.
  replace ((map_of (classes_of items)).*1) with (c_rep <$> classes_of items)
    in Hrun.
  2:{ unfold map_of. rewrite <- list_fmap_compose. by apply list_fmap_ext. }
  rewrite Hsort in Hrun. simpl in Hrun.
  repeat (split; [done|]).
  intros h Hh. rewrite released_hyperedges, Hown.
  rewrite decide_False by (intros Hin; by apply (Hbuffer _ Hin)).
  assert (Hin : h ∈ dom (hyperedges σ1)).
  { rewrite Hdom. apply list_elem_of_fmap in Hh as (it & -> & Hit).
    eapply Forall_forall in Hat; [|exact Hit].
    unfold item_at in Hat. apply elem_of_dom.
    destruct (hyperedges σ !! ih it); [by eauto|done]. }
  by apply elem_of_dom in Hin.
Qed.

(** *** Reading the classes back from the heap and the buffer *)(** *** Reading the classes back from the heap and the buffer *)

Lemma item_at_edge σ it :
  item_at σ (ih it) = Some it →
  edge_state σ (ih it) = Some (ist it) ∧ edge_score σ (ih it) = Some (isc it).
Proof. intros Hat. unfold edge_state, edge_score. by rewrite Hat. Qed.

Lemma in_class_equivalent σ st it :
  item_at σ (ih it) = Some it →
  in_class σ st (ih it) ↔ equivalent (ist it) st.
Proof.
  intros Hat. unfold in_class, equivalent.
  rewrite (proj1 (item_at_edge _ _ Hat)).
  destruct (orderer (ist it) st), (orderer st (ist it)); simpl;
    split; try done; by intros [? ?].
Qed.

Lemma filter_in_class σ st items :
  Forall (λ it, item_at σ (ih it) = Some it) items →
  ih <$> filter (λ it, equivalent (ist it) st) items
  = filter (λ h, in_class σ st h) (ih <$> items).
Proof.
  induction 1 as [|it items Hat Hall IH]; [done|]. csimpl.
  destruct (decide (equivalent (ist it) st)) as [Heq|Hne].
  - rewrite !filter_cons_True by (done || by apply in_class_equivalent).
    csimpl. by rewrite IH.
  - rewrite !filter_cons_False; [done| |done].
    by rewrite in_class_equivalent.
Qed.

Lemma item_of_buffer σ items h :
  Forall (λ it, item_at σ (ih it) = Some it) items →
  h ∈ ih <$> items → ∃ it, it ∈ items ∧ ih it = h ∧ item_at σ h = Some it.
Proof.
  intros Hall Hin. apply list_elem_of_fmap in Hin as (it & -> & Hin).
  exists it. repeat split; [done|]. by eapply Forall_forall in Hall.
Qed.

(** In a strictly ordered list of classes no two classes have equivalent
    states. *)
Lemma classes_unique cs c1 c2 :
  StronglySorted (λ s1 s2, orderer s1 s2 = true) (c_state <$> cs) →
  c1 ∈ cs → c2 ∈ cs → equivalent (c_state c1) (c_state c2) → c1 = c2.
Proof.
  induction cs as [|c cs IH]; intros Hs Hin1 Hin2 Heq;
    [by apply elem_of_nil in Hin1|].
  csimpl in Hs. apply StronglySorted_cons in Hs as [Hall Hs].
  apply Forall_fmap in Hall.
  apply elem_of_cons in Hin1 as [->|Hin1];
    apply elem_of_cons in Hin2 as [->|Hin2].
  - done.
  - eapply Forall_forall in Hall; [|exact Hin2]. simpl in Hall.
    by apply ordered_not_equivalent in Hall.
  - eapply Forall_forall in Hall; [|exact Hin1]. simpl in Hall.
    by apply ordered_not_equivalent_r in Hall.
  - by apply IH.
Qed.

Lemma stack_reps cs (result : list (vptr * Z)) :
  result ≡ₚ scored_classes cs → result.*1 ≡ₚ c_rep <$> cs.
Proof.
  intros ->. unfold scored_classes. by rewrite <- list_fmap_compose.
Qed.

Lemma stack_class cs (result : list (vptr * Z)) v :
  result ≡ₚ scored_classes cs →
  v ∈ result.*1 → ∃ c, c ∈ cs ∧ c_rep c = v.
Proof.
  intros Hperm Hv. rewrite (stack_reps _ _ Hperm) in Hv.
  apply list_elem_of_fmap in Hv as (c & -> & Hc). by exists c.
Qed.

Lemma class_in_stack cs (result : list (vptr * Z)) c :
  result ≡ₚ scored_classes cs → c ∈ cs → c_rep c ∈ result.*1.
Proof.
  intros Hperm Hc. rewrite (stack_reps _ _ Hperm).
  apply list_elem_of_fmap. by exists c.
Qed.

Lemma holds_class_vertex σ c sv :
  holds_class σ c → vertices σ !! c_rep c = Some sv →
  best sv = Some (c_best c) ∧ recombined sv = c_rec c
  ∧ state sv = c_state c.
Proof. intros [[pv Hv] _] Hsv. rewrite Hv in Hsv. by injection Hsv as <-. Qed.

(** C1. After [RecombineAndSort] has run on a buffer that satisfies its
    entry assertions, the stack holds at most one vertex per recombination
    class and one for every class of the buffer; the [best] of each vertex
    is a highest-scoring hyperedge among those of the buffer that fall in
    its class, and its [recombined] list holds exactly the others.  The
    stack passed in may hold vertices, which step 2 releases, as long as
    they are apart from the buffer. *)
Theorem RecombineAndSort_recombines (σ : Heap) (buffer : list hptr)
    (stack0 : SVertexStack) :
  fresh_buffer σ buffer → clearable σ buffer stack0 →
  ∃ σ' stack,
    RecombineAndSort σ buffer stack0 = Some (σ', stack)
    ∧ NoDup stack
    ∧ (∀ v w sv sw,
         v ∈ stack → w ∈ stack →
         vertices σ' !! v = Some sv → vertices σ' !! w = Some sw →
         equivalent (state sv) (state sw) → v = w)
    ∧ (∀ h st,
         h ∈ buffer → edge_state σ h = Some st →
         ∃ v sv, v ∈ stack ∧ vertices σ' !! v = Some sv
                 ∧ equivalent st (state sv))
    ∧ (∀ v, v ∈ stack →
         ∃ sv hb sb,
           vertices σ' !! v = Some sv ∧ best sv = Some hb
           ∧ best_score σ' v = Some sb ∧ edge_score σ hb = Some sb
           ∧ hb :: recombined sv
             ≡ₚ filter (λ h, in_class σ (state sv) h) buffer
           ∧ (∀ h s, h ∈ buffer → in_class σ (state sv) h →
                     edge_score σ h = Some s → s ≤ sb)).
Proof.
  intros Hfresh Hclear.
  destruct (RecombineAndSort_spec _ _ _ Hfresh Hclear)
    as (items & σ' & result & -> & Hat & Hrun & Hperm & _ & Hcs & Hreps & _).
  destruct (classes_of_ok items) as (Hsorted & Hcover & Hok).
  exists σ', (result.*1). split; [exact Hrun|].
  split; [|split; [|split]].
  - by rewrite (stack_reps _ _ Hperm).
  - intros v w sv sw Hv Hw Hsv Hsw Heq.
    destruct (stack_class _ _ _ Hperm Hv) as (c1 & Hc1 & <-).
    destruct (stack_class _ _ _ Hperm Hw) as (c2 & Hc2 & <-).
    destruct (holds_class_vertex σ' c1 sv) as (_ & _ & Hs1);
      [by eapply Forall_forall in Hcs|done|].
    destruct (holds_class_vertex σ' c2 sw) as (_ & _ & Hs2);
      [by eapply Forall_forall in Hcs|done|].
    rewrite Hs1, Hs2 in Heq. by rewrite (classes_unique _ _ _ Hsorted Hc1 Hc2 Heq).
  - intros h st Hh Hst.
    destruct (item_of_buffer _ _ _ Hat Hh) as (it & Hit & <- & Hith).
    rewrite (proj1 (item_at_edge _ _ Hith)) in Hst. injection Hst as <-.
    destruct (Hcover it Hit) as (c & Hc & Heq).
    pose proof Hc as Hhold. eapply Forall_forall in Hhold; [|exact Hcs].
    destruct Hhold as [[pv Hv] _].
    eexists (c_rep c), _. split; [|split; [exact Hv|done]].
    by apply (class_in_stack _ _ _ Hperm).
  - intros v Hv.
    destruct (stack_class _ _ _ Hperm Hv) as (c & Hc & <-).
    pose proof Hc as Hhold. eapply Forall_forall in Hhold; [|exact Hcs].
    pose proof Hc as Hcok. eapply Forall_forall in Hcok; [|exact Hok].
    destruct Hcok as (Hmembers & (b & Hb & Hbh & Hbs & Hbeq) & Hmax & _).
    pose proof Hhold as [[pv Hvx] _].
    eexists _, (c_best c), (c_score c).
    split; [exact Hvx|]. split; [done|].
    split; [by apply holds_class_best_score|]. split; [|split].
    + rewrite <- Hbh, <- Hbs. apply item_at_edge.
      by eapply Forall_forall in Hat.
    + simpl. rewrite Hmembers. by rewrite (filter_in_class σ).
    + simpl. intros h s Hh Hin Hs.
      destruct (item_of_buffer _ _ _ Hat Hh) as (it & Hit & <- & Hith).
      rewrite (proj2 (item_at_edge _ _ Hith)) in Hs. injection Hs as <-.
      apply Hmax; [done|]. by apply (in_class_equivalent σ).
Qed.

(** *** Sorting and pruning *)

Lemma result_scores σ cs (result : list (vptr * Z)) :
  Forall (holds_class σ) cs → result ≡ₚ scored_classes cs →
  Forall2 (λ v s, best_score σ v = Some s) (result.*1) (result.*2).
Proof.
  intros Hcs Hperm.
  assert (Hall : Forall (λ p, best_score σ p.1 = Some p.2) result).
  { rewrite Hperm. unfold scored_classes. apply Forall_fmap.
    eapply Forall_impl; [exact Hcs|]. intros c Hc. simpl.
    by apply holds_class_best_score. }
  clear Hperm. induction Hall as [|p result Hp Hall IH]; [constructor|].
  csimpl. by constructor.
Qed.

Lemma sorted_by_score_take σ stack n :
  sorted_by_score σ stack → sorted_by_score σ (take n stack).
Proof.
  intros (scores & Hscores & Hsorted). exists (take n scores).
  split; [by apply Forall2_take|].
  rewrite <- (take_drop n scores) in Hsorted.
  by apply StronglySorted_app_1_l in Hsorted.
Qed.

Lemma sorted_by_score_dropped σ stack n v w sv sw :
  sorted_by_score σ stack →
  v ∈ take n stack → w ∈ drop n stack →
  best_score σ v = Some sv → best_score σ w = Some sw → sw ≤ sv.
Proof.
  intros (scores & Hscores & Hsorted) Hv Hw Hsv Hsw.
  rewrite <- (take_drop n scores) in Hsorted.
  apply StronglySorted_app in Hsorted as (Hcross & _ & _).
  apply list_elem_of_lookup in Hv as [i Hi].
  apply list_elem_of_lookup in Hw as [j Hj].
  destruct (Forall2_lookup_l _ _ _ _ _ (Forall2_take _ _ _ n Hscores) Hi)
    as (s1 & Hs1 & Hb1).
  destruct (Forall2_lookup_l _ _ _ _ _ (Forall2_drop _ _ _ n Hscores) Hj)
    as (s2 & Hs2 & Hb2).
  rewrite Hsv in Hb1. rewrite Hsw in Hb2.
  injection Hb1 as ->. injection Hb2 as ->.
  apply Z.ge_le, Hcross; eapply list_elem_of_lookup_2; eauto.
Qed.

Lemma PruneStack_take stackLimit (stack : list vptr) :
  PruneStack stackLimit stack = take (length (PruneStack stackLimit stack)) stack.
Proof.
  unfold PruneStack. case_decide as Hlim.
  - by rewrite length_take, Nat.min_l by lia.
  - by rewrite firstn_all.
Qed.

Lemma released_nil σ : released σ [] = σ.
Proof. by destruct σ. Qed.

Lemma sorted_by_score_ext σ1 σ2 stack :
  (∀ v, v ∈ stack → best_score σ2 v = best_score σ1 v) →
  sorted_by_score σ1 stack → sorted_by_score σ2 stack.
Proof.
  intros Hext (scores & Hscores & Hsorted). exists scores. split; [|done].
  induction Hscores as [|v s stack scores Hv Hall IH]; constructor.
  - rewrite Hext by left. done.
  - apply IH; [intros w Hw; apply Hext; by right|].
    by apply StronglySorted_cons in Hsorted as [_ ?].
Qed.

(** The hyperedges of one class are those of no other. *)
Lemma class_members_unique items c1 c2 h :
  NoDup (ih <$> items) →
  c1 ∈ classes_of items → c2 ∈ classes_of items →
  h ∈ c_best c1 :: c_rec c1 → h ∈ c_best c2 :: c_rec c2 → c1 = c2.
Proof.
  intros Hnd Hc1 Hc2 Hh1 Hh2.
  destruct (classes_of_ok items) as (Hsorted & _ & Hok).
  pose proof (proj1 (Forall_forall _ _) Hok c1 Hc1) as (Hm1 & _).
  pose proof (proj1 (Forall_forall _ _) Hok c2 Hc2) as (Hm2 & _).
  rewrite Hm1 in Hh1. rewrite Hm2 in Hh2.
  apply list_elem_of_fmap in Hh1 as (it1 & -> & Hit1).
  apply list_elem_of_fmap in Hh2 as (it2 & Heq & Hit2).
  apply list_elem_of_filter in Hit1 as [He1 Hit1].
  apply list_elem_of_filter in Hit2 as [He2 Hit2].
  assert (Hsame : it1 = it2).
  { apply list_elem_of_lookup in Hit1 as [i Hi].
    apply list_elem_of_lookup in Hit2 as [j Hj].
    assert (Hij : i = j).
    { apply (NoDup_lookup (ih <$> items) i j (ih it1) Hnd).
      - by rewrite list_lookup_fmap, Hi.
      - rewrite list_lookup_fmap, Hj. simpl. by rewrite Heq. }
    subst j. congruence. }
  subst it2. apply (classes_unique _ _ _ Hsorted Hc1 Hc2).
  eapply equivalent_trans; [apply equivalent_sym, He1|exact He2].
Qed.

Lemma class_members_buffer items c h :
  c ∈ classes_of items → h ∈ c_best c :: c_rec c → h ∈ ih <$> items.
Proof.
  intros Hc Hh. destruct (classes_of_ok items) as (_ & _ & Hok).
  pose proof (proj1 (Forall_forall _ _) Hok c Hc) as (Hm & _).
  rewrite Hm in Hh. apply list_elem_of_fmap in Hh as (it & -> & Hit).
  apply list_elem_of_filter in Hit as [_ Hit].
  apply list_elem_of_fmap. by exists it.
Qed.

Lemma class_members_NoDup items c :
  NoDup (ih <$> items) → c ∈ classes_of items → NoDup (c_best c :: c_rec c).
Proof.
  intros Hnd Hc. destruct (classes_of_ok items) as (_ & _ & Hok).
  pose proof (proj1 (Forall_forall _ _) Hok c Hc) as (Hm & _).
  rewrite Hm. apply (sublist_NoDup _ (ih <$> items)); [exact Hnd|].
  apply fmap_sublist, sublist_filter.
Qed.

Lemma holds_class_owned σ c sv :
  holds_class σ c → vertices σ !! c_rep c = Some sv →
  owned sv = c_best c :: c_rec c.
Proof.
  intros [[pv Hv] _] Hsv. rewrite Hv in Hsv. by injection Hsv as <-.
Qed.

(** What the vertices of classes own. *)
Lemma owned_by_classes σ items l h :
  Forall (holds_class σ) (classes_of items) →
  (∀ v, v ∈ l → ∃ c, c ∈ classes_of items ∧ c_rep c = v) →
  h ∈ owned_by σ l →
  ∃ c, c ∈ classes_of items ∧ c_rep c ∈ l ∧ h ∈ c_best c :: c_rec c.
Proof.
  intros Hcs Hl (v & sv & Hv & Hsv & Hh)%elem_of_owned_by.
  destruct (Hl v Hv) as (c & Hc & <-). exists c.
  split; [done|]. split; [done|].
  erewrite <- holds_class_owned; [exact Hh| |exact Hsv].
  by eapply Forall_forall in Hcs.
Qed.

(** The vertices of classes can be released, each with the hyperedges of
    its class. *)
Lemma classes_releasable σ items l :
  Forall (holds_class σ) (classes_of items) → NoDup (ih <$> items) →
  (∀ h, h ∈ ih <$> items → is_Some (hyperedges σ !! h)) →
  NoDup l → (∀ v, v ∈ l → ∃ c, c ∈ classes_of items ∧ c_rep c = v) →
  releasable σ l.
Proof.
  intros Hcs Hnd Halloc Hl Hin.
  split; [done|]. split; [|split].
  - intros v Hv. destruct (Hin v Hv) as (c & Hc & <-).
    eapply Forall_forall in Hcs; [|exact Hc]. destruct Hcs as [[pv Hv'] _].
    eauto.
  - induction l as [|v l IH]; [constructor|].
    apply NoDup_cons in Hl as [Hfresh Hl].
    destruct (Hin v ltac:(by left)) as (c & Hc & <-).
    pose proof (proj1 (Forall_forall _ _) Hcs c Hc) as Hhold.
    pose proof Hhold as [[pv Hv] _].
    rewrite (owned_by_cons _ _ _ _ Hv). simpl.
    assert (Hrest : ∀ w, w ∈ l → ∃ c', c' ∈ classes_of items ∧ c_rep c' = w)
      by (intros w Hw; apply Hin; by right).
    apply (NoDup_app (c_best c :: c_rec c)).
    split; [by apply (class_members_NoDup items)|]. split; [|by apply IH].
    intros h Hh Hh'.
    destruct (owned_by_classes _ _ _ _ Hcs Hrest Hh') as (c' & Hc' & Hrep & Hm).
    assert (Heq : c = c') by (by apply (class_members_unique items c c' h)).
    subst c'. done.
  - intros h Hh.
    destruct (owned_by_classes _ _ _ _ Hcs Hin Hh) as (c & Hc & _ & Hm).
    by apply Halloc, (class_members_buffer items c).
Qed.

(** The pruning step on the stack that [RecombineAndSort] has filled: the
    vertices beyond the limit are released with the hyperedges of their
    classes, and the classes of the vertices kept are held as before. *)
Lemma prune_spec σ items (result : list (vptr * Z)) stackLimit :
  Forall (holds_class σ) (classes_of items) → NoDup (ih <$> items) →
  (∀ h, h ∈ ih <$> items → is_Some (hyperedges σ !! h)) →
  result ≡ₚ scored_classes (classes_of items) →
  NoDup (c_rep <$> classes_of items) →
  let full := result.*1 in
  let kept := PruneStack stackLimit full in
  let dropped := drop (length kept) full in
  (if decide (0 < stackLimit ∧ stackLimit < length full)%nat
   then resize_stack σ full stackLimit
   else Some (σ, full))
  = Some (released σ dropped, kept)
  ∧ (∀ c, c ∈ classes_of items → c_rep c ∈ kept →
       holds_class (released σ dropped) c)
  ∧ (∀ h, h ∈ owned_by σ dropped → h ∈ ih <$> items)
  ∧ (∀ v, v ∈ dropped → ∃ c, c ∈ classes_of items ∧ c_rep c = v).
Proof.
  intros Hcs Hnd Halloc Hperm Hreps full kept dropped.
  assert (Hfull : NoDup full)
    by (subst full; by rewrite (stack_reps _ _ Hperm)).
  assert (Hsplit : full = kept ++ dropped).
  { subst dropped kept. rewrite (PruneStack_take stackLimit full) at 1.
    by rewrite take_drop. }
  assert (Hclass : ∀ v, v ∈ dropped →
            ∃ c, c ∈ classes_of items ∧ c_rep c = v).
  { intros v Hv. apply (stack_class _ _ _ Hperm). fold full.
    rewrite Hsplit. apply elem_of_app. by right. }
  assert (Hdisj : ∀ v, v ∈ kept → v ∉ dropped).
  { rewrite Hsplit in Hfull. by apply NoDup_app in Hfull as (_ & ? & _). }
  assert (Hrel : releasable σ dropped).
  { apply (classes_releasable σ items); try done.
    rewrite Hsplit in Hfull. by apply NoDup_app in Hfull as (_ & _ & ?). }
  split; [|split; [|split; [|exact Hclass]]].
  - case_decide as Hlim.
    + unfold resize_stack.
      assert (Hk : kept = take stackLimit full)
        by (subst kept; unfold PruneStack; by rewrite decide_True).
      assert (Hd : dropped = drop stackLimit full).
      { subst dropped. rewrite Hk, length_take. f_equal. lia. }
      rewrite <- Hd, <- Hk. by rewrite (release_stack_Some _ _ Hrel).
    + assert (Hk : kept = full)
        by (subst kept; unfold PruneStack; by rewrite decide_False).
      assert (Hd : dropped = []).
      { subst dropped. rewrite Hk. apply drop_all. }
      by rewrite Hk, Hd, released_nil.
  - intros c Hc Hkept.
    apply holds_class_released; [by eapply Forall_forall in Hcs| |].
    + by apply Hdisj.
    + intros Hown.
      destruct (owned_by_classes _ _ _ _ Hcs Hclass Hown)
        as (c' & Hc' & Hrep & Hm).
      assert (Heq : c = c').
      { apply (class_members_unique items c c' (c_best c)); try done.
        by left. }
      subst c'. by apply (Hdisj (c_rep c)).
  - intros h Hh.
    destruct (owned_by_classes _ _ _ _ Hcs Hclass Hh) as (c & Hc & _ & Hm).
    by apply (class_members_buffer items c).
Qed.

(** C4. After [RecombineAndSort] and the pruning step of [Decode] the
    node's stack holds the surviving vertices by descending best-hyperedge
    score.  The stack that [RecombineAndSort] fills holds exactly one
    vertex for every recombination class of the buffer, each with the top
    score of its class as its best-hyperedge score, and lists them by
    descending score; a [stackLimit] of 0 leaves that stack and the heap as
    they are; a positive [stackLimit] keeps the first [stackLimit] entries,
    that is exactly [stackLimit] of them when there were more, and no
    dropped vertex scores higher than a kept one.  The vertices kept are
    left as they are, the dropped ones are released. *)
Theorem RecombineSortPrune_sorted (stackLimit : nat) (σ : Heap)
    (buffer : list hptr) (stack0 : SVertexStack) :
  fresh_buffer σ buffer → clearable σ buffer stack0 →
  ∃ σ' full σ'' stack,
    RecombineAndSort σ buffer stack0 = Some (σ', full)
    ∧ RecombineSortPrune stackLimit σ buffer stack0 = Some (σ'', stack)
    ∧ NoDup full
    ∧ (∀ v w sv sw,
         v ∈ full → w ∈ full →
         vertices σ' !! v = Some sv → vertices σ' !! w = Some sw →
         equivalent (state sv) (state sw) → v = w)
    ∧ (∀ h st,
         h ∈ buffer → edge_state σ h = Some st →
         ∃ v sv, v ∈ full ∧ vertices σ' !! v = Some sv
                 ∧ equivalent st (state sv))
    ∧ (∀ v, v ∈ full →
         ∃ sv hb sb,
           vertices σ' !! v = Some sv ∧ best sv = Some hb
           ∧ hb ∈ buffer ∧ in_class σ (state sv) hb
           ∧ best_score σ' v = Some sb ∧ edge_score σ hb = Some sb
           ∧ (∀ h s, h ∈ buffer → in_class σ (state sv) h →
                     edge_score σ h = Some s → s ≤ sb))
    ∧ sorted_by_score σ' full
    ∧ sorted_by_score σ'' stack
    ∧ (stackLimit = 0%nat → stack = full ∧ σ'' = σ')
    ∧ ((0 < stackLimit)%nat →
         stack = take stackLimit full
         ∧ length stack = (stackLimit `min` length full)%nat)
    ∧ (∀ v w sv sw,
         v ∈ stack → w ∈ drop (length stack) full →
         best_score σ' v = Some sv → best_score σ' w = Some sw → sw ≤ sv)
    ∧ (∀ v, v ∈ stack →
         vertices σ'' !! v = vertices σ' !! v
         ∧ best_score σ'' v = best_score σ' v)
    ∧ (∀ w, w ∈ drop (length stack) full → vertices σ'' !! w = None).
Proof.
  intros Hfresh Hclear.
  destruct (RecombineAndSort_spec _ _ _ Hfresh Hclear)
    as (items & σ' & result & -> & Hat & Hrun & Hperm & Hsorted & Hcs & Hreps
        & Halloc).
  destruct (classes_of_ok items) as (Hord & Hcover & Hok).
  destruct Hfresh as [Hnd _].
  destruct (prune_spec σ' items result stackLimit Hcs Hnd Halloc Hperm Hreps)
    as (Hprune & Hkept & _).
  set (full := result.*1) in *.
  set (stack := PruneStack stackLimit full) in *.
  set (dropped := drop (length stack) full) in *.
  assert (Hfull : sorted_by_score σ' full).
  { exists (result.*2). split; [|done]. by eapply result_scores. }
  assert (Hscore : ∀ v, v ∈ stack →
            vertices (released σ' dropped) !! v = vertices σ' !! v
            ∧ best_score (released σ' dropped) v = best_score σ' v).
  { intros v Hv.
    assert (Hvfull : v ∈ full).
    { subst stack. rewrite PruneStack_take in Hv.
      by apply elem_of_take in Hv as (i & Hi & _);
        eapply list_elem_of_lookup_2. }
    destruct (stack_class _ _ _ Hperm Hvfull) as (c & Hc & <-).
    pose proof (Hkept c Hc Hv) as Hnew.
    pose proof (proj1 (Forall_forall _ _) Hcs c Hc) as Hold.
    rewrite (holds_class_best_score _ _ Hnew).
    rewrite (holds_class_best_score _ _ Hold).
    destruct Hnew as [[pv1 Hv1] _]. destruct Hold as [[pv2 Hv2] _].
    split; [|done]. rewrite released_vertices in Hv1 |- *.
    by case_decide. }
  exists σ', full, (released σ' dropped), stack.
  split; [exact Hrun|].
  split; [unfold RecombineSortPrune; rewrite Hrun; exact Hprune|].
  split; [subst full; by rewrite (stack_reps _ _ Hperm)|].
  split; [|split; [|split; [|split; [exact Hfull|]]]].
  - intros v w sv sw Hv Hw Hsv Hsw Heq.
    destruct (stack_class _ _ _ Hperm Hv) as (c1 & Hc1 & <-).
    destruct (stack_class _ _ _ Hperm Hw) as (c2 & Hc2 & <-).
    destruct (holds_class_vertex σ' c1 sv) as (_ & _ & Hs1);
      [by eapply Forall_forall in Hcs|done|].
    destruct (holds_class_vertex σ' c2 sw) as (_ & _ & Hs2);
      [by eapply Forall_forall in Hcs|done|].
    rewrite Hs1, Hs2 in Heq. by rewrite (classes_unique _ _ _ Hord Hc1 Hc2 Heq).
  - intros h st Hh Hst.
    destruct (item_of_buffer _ _ _ Hat Hh) as (it & Hit & <- & Hith).
    rewrite (proj1 (item_at_edge _ _ Hith)) in Hst. injection Hst as <-.
    destruct (Hcover it Hit) as (c & Hc & Heq).
    pose proof Hc as Hhold. eapply Forall_forall in Hhold; [|exact Hcs].
    destruct Hhold as [[pv Hv] _].
    eexists (c_rep c), _. split; [|split; [exact Hv|done]].
    by apply (class_in_stack _ _ _ Hperm).
  - intros v Hv.
    destruct (stack_class _ _ _ Hperm Hv) as (c & Hc & <-).
    pose proof Hc as Hhold. eapply Forall_forall in Hhold; [|exact Hcs].
    pose proof Hc as Hcok. eapply Forall_forall in Hcok; [|exact Hok].
    destruct Hcok as (_ & (b & Hb & Hbh & Hbs & Hbeq) & Hmax & _).
    pose proof Hhold as [[pv Hvx] _].
    assert (Hbat : item_at σ (ih b) = Some b)
      by (by eapply Forall_forall in Hat).
    eexists _, (c_best c), (c_score c).
    split; [exact Hvx|]. split; [done|]. simpl.
    split; [rewrite <- Hbh; apply list_elem_of_fmap; by exists b|].
    split; [rewrite <- Hbh; by apply (in_class_equivalent σ)|].
    split; [by apply holds_class_best_score|]. split.
    + rewrite <- Hbh, <- Hbs. by apply item_at_edge.
    + intros h s Hh Hin Hs.
      destruct (item_of_buffer _ _ _ Hat Hh) as (it & Hit & <- & Hith).
      rewrite (proj2 (item_at_edge _ _ Hith)) in Hs. injection Hs as <-.
      apply Hmax; [done|]. by apply (in_class_equivalent σ).
  - split; [|split; [|split; [|split; [|split; [exact Hscore|]]]]].
    + apply (sorted_by_score_ext σ'); [intros v Hv; by apply Hscore|].
      subst stack. rewrite PruneStack_take. by apply sorted_by_score_take.
    + intros ->. subst dropped stack. unfold PruneStack.
      rewrite decide_False by lia. by rewrite drop_all, released_nil.
    + intros Hpos. subst stack. unfold PruneStack. case_decide as Hlim.
      * split; [done|]. rewrite length_take. lia.
      * assert (length full ≤ stackLimit)%nat by lia.
        split; [by rewrite firstn_all2|]. lia.
    + intros v w sv sw Hv Hw. subst stack. rewrite PruneStack_take in Hv.
      by eapply sorted_by_score_dropped.
    + intros w Hw. by rewrite released_vertices, decide_True.
Qed.

(** *** Independence of the buffer order *)(** *** Independence of the buffer order *)

Lemma clearable_Permutation σ buffer1 buffer2 stack0 :
  clearable σ buffer1 stack0 → buffer1 ≡ₚ buffer2 →
  clearable σ buffer2 stack0.
Proof.
  intros (Hrel & Hheads & Hown) Hperm. split; [done|]. split.
  - intros v Hv (h & e & Hh & He & Hhead). apply (Hheads v Hv).
    exists h, e. by rewrite Hperm.
  - intros h Hh. rewrite <- Hperm. by apply Hown.
Qed.

Lemma fresh_buffer_Permutation σ buffer1 buffer2 :
  fresh_buffer σ buffer1 → buffer1 ≡ₚ buffer2 → fresh_buffer σ buffer2.
Proof.
  intros [Hnd Hall] Hperm. split; [by rewrite <- Hperm|].
  intros h Hh. apply Hall. by rewrite Hperm.
Qed.

Lemma items_Permutation σ items1 items2 it :
  Forall (λ it, item_at σ (ih it) = Some it) items1 →
  Forall (λ it, item_at σ (ih it) = Some it) items2 →
  ih <$> items1 ≡ₚ ih <$> items2 →
  it ∈ items1 → it ∈ items2.
Proof.
  intros Hat1 Hat2 Hperm Hin.
  assert (Hh : ih it ∈ ih <$> items2).
  { rewrite <- Hperm. apply list_elem_of_fmap. by exists it. }
  destruct (item_of_buffer _ _ _ Hat2 Hh) as (it' & Hin' & Heq & Hat').
  eapply Forall_forall in Hat1; [|exact Hin]. simpl in Hat1.
  rewrite Hat1 in Hat'. by injection Hat' as ->.
Qed.

(** Two strictly ordered lists of classes that cover the same states list
    them in the same order. *)
Lemma sorted_cover_Forall2 cs1 : ∀ cs2,
  StronglySorted (λ s1 s2, orderer s1 s2 = true) (c_state <$> cs1) →
  StronglySorted (λ s1 s2, orderer s1 s2 = true) (c_state <$> cs2) →
  (∀ c1, c1 ∈ cs1 → ∃ c2, c2 ∈ cs2 ∧ equivalent (c_state c1) (c_state c2)) →
  (∀ c2, c2 ∈ cs2 → ∃ c1, c1 ∈ cs1 ∧ equivalent (c_state c1) (c_state c2)) →
  Forall2 (λ c1 c2, equivalent (c_state c1) (c_state c2)) cs1 cs2.
Proof.
  induction cs1 as [|a l1 IH]; intros [|b l2] Hs1 Hs2 H12 H21.
  - constructor.
  - destruct (H21 b) as (c & Hc & _); [by left|]. by apply elem_of_nil in Hc.
  - destruct (H12 a) as (c & Hc & _); [by left|]. by apply elem_of_nil in Hc.
  - csimpl in Hs1. csimpl in Hs2.
    apply StronglySorted_cons in Hs1 as [Ha Hs1].
    apply StronglySorted_cons in Hs2 as [Hb Hs2].
    apply Forall_fmap in Ha. apply Forall_fmap in Hb.
    assert (Hab : equivalent (c_state a) (c_state b)).
    { destruct (H12 a) as (b' & Hb' & Hab'); [by left|].
      apply elem_of_cons in Hb' as [->|Hb']; [done|].
      destruct (H21 b) as (a' & Ha' & Hab''); [by left|].
      apply elem_of_cons in Ha' as [->|Ha']; [done|].
      eapply Forall_forall in Ha; [|exact Ha'].
      eapply Forall_forall in Hb; [|exact Hb']. simpl in Ha, Hb.
      pose proof (orderer_equivalent_r _ _ _ Ha Hab'') as Hlt1.
      pose proof (orderer_equivalent_r _ _ _ Hb (equivalent_sym _ _ Hab'))
        as Hlt2.
      pose proof (orderer_trans _ _ _ Hlt1 Hlt2) as Hc.
      by rewrite orderer_irrefl in Hc. }
    constructor; [done|]. apply IH; [done|done| |].
    + intros c1 Hc1. destruct (H12 c1) as (c2 & Hc2 & Heq); [by right|].
      apply elem_of_cons in Hc2 as [->|Hc2]; [|by exists c2].
      eapply Forall_forall in Ha; [|exact Hc1]. simpl in Ha.
      exfalso. apply (ordered_not_equivalent _ _ Ha).
      eapply equivalent_trans; [exact Hab|by apply equivalent_sym].
    + intros c2 Hc2. destruct (H21 c2) as (c1 & Hc1 & Heq); [by right|].
      apply elem_of_cons in Hc1 as [->|Hc1]; [|by exists c1].
      eapply Forall_forall in Hb; [|exact Hc2]. simpl in Hb.
      exfalso. apply (ordered_not_equivalent _ _ Hb).
      eapply equivalent_trans; [apply equivalent_sym, Hab|done].
Qed.

(** Classes of the same state built from the same items have the same best
    score, and the same best hyperedge when only one item attains it. *)
Lemma class_ok_score_le items1 items2 c1 c2 :
  (∀ it, it ∈ items1 → it ∈ items2) →
  class_ok items1 c1 → class_ok items2 c2 →
  equivalent (c_state c1) (c_state c2) → c_score c1 ≤ c_score c2.
Proof.
  intros Hsub (_ & (b & Hb & _ & <- & Hbeq) & _) (_ & _ & Hmax & _) Heq.
  apply Hmax; [by apply Hsub|]. by eapply equivalent_trans.
Qed.

Lemma scores_of_Forall2 {A} (f : A → option Z) l k :
  Forall2 (λ v s, f v = Some s) l k → f <$> l = Some <$> k.
Proof. induction 1 as [|v s l k Hv Hl IH]; csimpl; [done|]. by rewrite Hv, IH. Qed.

Lemma scored_classes_scores cs : (scored_classes cs).*2 = c_score <$> cs.
Proof. unfold scored_classes. by rewrite <- list_fmap_compose. Qed.

Lemma classes_scores_eq items1 items2 cs1 cs2 :
  (∀ it, it ∈ items1 → it ∈ items2) →
  (∀ it, it ∈ items2 → it ∈ items1) →
  Forall2 (λ c1 c2, equivalent (c_state c1) (c_state c2)) cs1 cs2 →
  Forall (class_ok items1) cs1 → Forall (class_ok items2) cs2 →
  c_score <$> cs1 = c_score <$> cs2.
Proof.
  intros H12 H21 Hall. induction Hall as [|c1 c2 cs1 cs2 Heq Hall IH];
    intros Hok1 Hok2; [done|].
  apply Forall_cons in Hok1 as [Hc1 Hok1].
  apply Forall_cons in Hok2 as [Hc2 Hok2].
  csimpl. f_equal; [|by apply IH].
  apply Z.le_antisymm.
  - by apply (class_ok_score_le items1 items2).
  - apply (class_ok_score_le items2 items1); [done|done|done|].
    by apply equivalent_sym.
Qed.

Lemma sorted_scores_unique (l1 l2 : list Z) :
  StronglySorted Z.ge l1 → StronglySorted Z.ge l2 → l1 ≡ₚ l2 → l1 = l2.
Proof.
  intros Hs1 Hs2 Hperm.
  apply (StronglySorted_unique_strong Z.ge); [|done|done|done].
  intros x y _ _ Hxy Hyx. lia.
Qed.

(** C5. [RecombineAndSort], run on two orderings of one buffer and a stack
    that can be cleared apart from the buffer, yields stacks with the same
    best scores position by position and the same recombination classes;
    matching vertices have the same best score, and the same best hyperedge
    whenever the class has a single highest-scoring hyperedge. *)
Theorem RecombineAndSort_order_independent (σ : Heap)
    (buffer1 buffer2 : list hptr) (stack0 : SVertexStack) :
  fresh_buffer σ buffer1 → buffer1 ≡ₚ buffer2 →
  clearable σ buffer1 stack0 →
  ∃ σ1 stack1 σ2 stack2,
    RecombineAndSort σ buffer1 stack0 = Some (σ1, stack1)
    ∧ RecombineAndSort σ buffer2 stack0 = Some (σ2, stack2)
    ∧ best_score σ1 <$> stack1 = best_score σ2 <$> stack2
    ∧ (∀ v1 sv1,
         v1 ∈ stack1 → vertices σ1 !! v1 = Some sv1 →
         ∃ v2 sv2,
           v2 ∈ stack2 ∧ vertices σ2 !! v2 = Some sv2
           ∧ equivalent (state sv1) (state sv2)
           ∧ best_score σ1 v1 = best_score σ2 v2
           ∧ ((∀ h, h ∈ buffer1 → in_class σ (state sv1) h →
                    edge_score σ h = best_score σ1 v1 → best sv1 = Some h) →
              best sv1 = best sv2)).
Proof.
  intros Hfresh1 Hperm Hclear1.
  pose proof (fresh_buffer_Permutation _ _ _ Hfresh1 Hperm) as Hfresh2.
  pose proof (clearable_Permutation _ _ _ _ Hclear1 Hperm) as Hclear2.
  destruct (RecombineAndSort_spec _ _ _ Hfresh1 Hclear1)
    as (items1 & σ1 & result1 & -> & Hat1 & Hrun1 & Hperm1 & Hsorted1 & Hcs1 & _).
  destruct (RecombineAndSort_spec _ _ _ Hfresh2 Hclear2)
    as (items2 & σ2 & result2 & -> & Hat2 & Hrun2 & Hperm2 & Hsorted2 & Hcs2 & _).
  destruct (classes_of_ok items1) as (Hord1 & Hcover1 & Hok1).
  destruct (classes_of_ok items2) as (Hord2 & Hcover2 & Hok2).
  assert (H12 : ∀ it, it ∈ items1 → it ∈ items2)
    by (intros it; by apply (items_Permutation σ)).
  assert (H21 : ∀ it, it ∈ items2 → it ∈ items1)
    by (intros it; by apply (items_Permutation σ)).
  assert (Hc12 : ∀ c1, c1 ∈ classes_of items1 →
            ∃ c2, c2 ∈ classes_of items2
                  ∧ equivalent (c_state c1) (c_state c2)).
  { intros c1 Hc1. eapply Forall_forall in Hok1; [|exact Hc1].
    destruct Hok1 as (_ & _ & _ & (r & Hr & _ & <-)).
    by apply Hcover2, H12. }
  assert (Hc21 : ∀ c2, c2 ∈ classes_of items2 →
            ∃ c1, c1 ∈ classes_of items1
                  ∧ equivalent (c_state c1) (c_state c2)).
  { intros c2 Hc2. eapply Forall_forall in Hok2; [|exact Hc2].
    destruct Hok2 as (_ & _ & _ & (r & Hr & _ & <-)).
    destruct (Hcover1 r (H21 r Hr)) as (c1 & Hc1 & Heq).
    exists c1. split; [done|]. by apply equivalent_sym. }
  pose proof (sorted_cover_Forall2 _ _ Hord1 Hord2 Hc12 Hc21) as Hall.
  pose proof (classes_scores_eq _ _ _ _ H12 H21 Hall Hok1 Hok2) as Hscores.
  exists σ1, (result1.*1), σ2, (result2.*1).
  split; [exact Hrun1|]. split; [exact Hrun2|]. split.
  - rewrite (scores_of_Forall2 _ _ _ (result_scores _ _ _ Hcs1 Hperm1)).
    rewrite (scores_of_Forall2 _ _ _ (result_scores _ _ _ Hcs2 Hperm2)).
    f_equal. apply sorted_scores_unique; [done|done|].
    by rewrite Hperm1, Hperm2, !scored_classes_scores, Hscores.
  - intros v1 sv1 Hv1 Hsv1.
    destruct (stack_class _ _ _ Hperm1 Hv1) as (c1 & Hc1 & <-).
    destruct (Hc12 c1 Hc1) as (c2 & Hc2 & Heq).
    pose proof Hc1 as Hh1. eapply Forall_forall in Hh1; [|exact Hcs1].
    pose proof Hc2 as Hh2. eapply Forall_forall in Hh2; [|exact Hcs2].
    pose proof Hc1 as Hk1. eapply Forall_forall in Hk1; [|exact Hok1].
    pose proof Hc2 as Hk2. eapply Forall_forall in Hk2; [|exact Hok2].
    destruct (holds_class_vertex _ _ _ Hh1 Hsv1) as (Hb1 & _ & Hst1).
    pose proof Hh2 as [[pv2 Hsv2] _].
    assert (Hsc : c_score c1 = c_score c2).
    { apply Z.le_antisymm.
      - by apply (class_ok_score_le items1 items2).
      - apply (class_ok_score_le items2 items1); [done|done|done|].
        by apply equivalent_sym. }
    eexists (c_rep c2), _. split; [by apply (class_in_stack _ _ _ Hperm2)|].
    split; [exact Hsv2|]. simpl. rewrite Hst1. split; [done|].
    rewrite !(holds_class_best_score _ _ Hh1), !(holds_class_best_score _ _ Hh2).
    split; [by rewrite Hsc|].
    intros Hunique. rewrite Hb1.
    destruct Hk2 as (_ & (b & Hb & Hbh & Hbs & Hbeq) & _).
    rewrite <- Hbh, <- Hb1. apply Hunique.
    + apply list_elem_of_fmap. exists b. split; [done|]. by apply H21.
    + eapply in_class_equivalent;
        [eapply Forall_forall in Hat2; [exact Hat2|exact Hb]|].
      eapply equivalent_trans; [exact Hbeq|by apply equivalent_sym].
    + eapply Forall_forall in Hat2; [|exact Hb].
      rewrite (proj2 (item_at_edge σ b Hat2)). by rewrite Hbs, Hsc.
Qed.

(** *** Calls on any buffer *)

(** X6. Whatever the buffer and the stack passed in hold, a call of
    [RecombineAndSort] that completes creates no hyperedge and no vertex; a
    hyperedge that remains keeps its score and its tail, and is left as it
    is when it is not in the buffer; a vertex that remains keeps its state
    and its [pvertex].  The vertices of the stack passed in are released by
    [stack.clear()]; a vertex that is neither one of them nor the head of a
    buffer hyperedge on entry is left as it is.  When no vertex of the stack
    passed in heads a buffer hyperedge on entry, the hyperedges released
    are exactly those that these vertices own on entry. *)
Theorem RecombineAndSort_frame (σ σ' : Heap) (buffer : list hptr)
    (stack0 stack : SVertexStack) :
  RecombineAndSort σ buffer stack0 = Some (σ', stack) →
  (∀ h e', hyperedges σ' !! h = Some e' →
     ∃ e, hyperedges σ !! h = Some e
       ∧ score e' = score e ∧ tail e' = tail e
       ∧ (h ∉ buffer → e' = e))
  ∧ (∀ v sv', vertices σ' !! v = Some sv' →
       ∃ sv, vertices σ !! v = Some sv
         ∧ state sv' = state sv ∧ pvertex sv' = pvertex sv)
  ∧ (∀ v, v ∈ stack0 → vertices σ' !! v = None)
  ∧ (∀ v, (∀ h e, h ∈ buffer → hyperedges σ !! h = Some e → head e ≠ v) →
       v ∉ stack0 → vertices σ' !! v = vertices σ !! v)
  ∧ ((∀ v h e, v ∈ stack0 → h ∈ buffer → hyperedges σ !! h = Some e →
        head e ≠ v) →
     ∀ h, is_Some (hyperedges σ !! h) →
       hyperedges σ' !! h = None ↔ h ∈ owned_by σ stack0).
Proof.
  intros Hrun.
  destruct (RecombineAndSort_untouched _ _ _ _ _ Hrun)
    as (σ1 & map & (Hdom & Hedges & Hverts & Hother & _) & Hrel & -> & _).
  split; [|split; [|split; [|split]]].
  - intros h e' He'. rewrite released_hyperedges in He'.
    case_decide as Hown; [done|].
    assert (Hin : h ∈ dom (hyperedges σ)).
    { rewrite <- Hdom. apply elem_of_dom. eauto. }
    apply elem_of_dom in Hin as [e He].
    destruct (Hedges h e He) as (e1 & He1 & Hs & Ht & Hn & _).
    rewrite He' in He1. injection He1 as <-. by exists e.
  - intros v sv' Hv. rewrite released_vertices in Hv.
    case_decide; [done|]. by apply Hverts.
  - intros v Hv. by rewrite released_vertices, decide_True.
  - intros v Hv Hnot. rewrite released_vertices, decide_False by done.
    apply Hother. intros (h & e & Hh & He & Hhead). by apply (Hv h e).
  - intros Hapart h Hh.
    assert (Hown : owned_by σ1 stack0 = owned_by σ stack0).
    { apply owned_by_ext. intros v Hv. apply Hother.
      intros (h' & e' & Hh' & He' & Hhead). by apply (Hapart v h' e'). }
    rewrite released_hyperedges, Hown.
    case_decide as Hin; [done|]. split; [|done].
    intros Hnone. apply elem_of_dom in Hh. rewrite <- Hdom in Hh.
    apply elem_of_dom in Hh as [e He]. congruence.
Qed.

(** X7. Whatever the buffer and the stack passed in hold, the stack that
    [RecombineAndSort] returns has at most as many vertices as the buffer
    has hyperedges, is empty only for an empty buffer, and holds only
    vertices that were the head of a buffer hyperedge on entry. *)
Theorem RecombineAndSort_size (σ σ' : Heap) (buffer : list hptr)
    (stack0 stack : SVertexStack) :
  RecombineAndSort σ buffer stack0 = Some (σ', stack) →
  (length stack ≤ length buffer)%nat
  ∧ (stack = [] ↔ buffer = [])
  ∧ ∀ v, v ∈ stack →
      ∃ h e, h ∈ buffer ∧ hyperedges σ !! h = Some e ∧ head e = v.
Proof.
  intros Hrun.
  destruct (RecombineAndSort_untouched _ _ _ _ _ Hrun)
    as (σ1 & map & (_ & _ & _ & _ & Hmap) & _ & _ & Hperm & Hlen & Hne).
  assert (Hlength : length stack = length map)
    by (by rewrite Hperm, length_fmap).
  split; [lia|]. split.
  - split.
    + intros ->. destruct buffer as [|h buffer]; [done|].
      destruct map; [by destruct Hne|done].
    + intros ->. destruct stack; [done|]. simpl in *. lia.
  - intros v Hv. rewrite Hperm in Hv.
    apply list_elem_of_fmap in Hv as (kv & -> & Hkv).
    eapply Forall_forall in Hmap; [|exact Hkv]. apply Hmap.
Qed.

(** *** Where the hyperedges point after recombination *)

Lemma class_insert_keeps it cs c :
  c ∈ cs →
  ∃ c', c' ∈ class_insert it cs ∧ c_rep c' = c_rep c ∧ c_state c' = c_state c.
Proof.
  induction cs as [|c0 cs IH]; [by intros ?%elem_of_nil|].
  intros Hc. simpl.
  destruct (orderer (ist it) (c_state c0)).
  { exists c. split; [by right|done]. }
  destruct (orderer (c_state c0) (ist it)).
  - apply elem_of_cons in Hc as [->|Hc].
    + exists c0. split; [by left|done].
    + destruct (IH Hc) as (c' & Hc' & Hrep & Hst).
      exists c'. split; [by right|done].
  - apply elem_of_cons in Hc as [->|Hc].
    + exists (merge_class it c0). split; [by left|].
      by rewrite merge_class_rep, merge_class_state.
    + exists c. split; [by right|done].
Qed.

(** The vertex that [map.insert] reports stands for the class of the item. *)
Lemma map_insert_class σ it cs sv map' stored inserted :
  vertices σ !! iv it = Some sv → state sv = ist it →
  Forall (λ c, ∃ sc, vertices σ !! c_rep c = Some sc ∧ state sc = c_state c) cs →
  map_insert σ (iv it) (map_of cs) = Some (map', stored, inserted) →
  ∃ c, c ∈ class_insert it cs ∧ c_rep c = stored
    ∧ equivalent (ist it) (c_state c)
    ∧ (inserted = true → stored = iv it).
Proof.
  intros Hv Hst Hcs. revert map' stored inserted.
  induction Hcs as [|c0 cs (sc & Hc & Hsc) Hcs IH]; intros map' stored inserted;
    simpl.
  - intros [= <- <- <-]. exists (new_class it).
    split; [by left|]. split; [done|]. split; [apply equivalent_refl|done].
  - rewrite Hv, Hc. simpl. rewrite Hst, Hsc.
    destruct (orderer (ist it) (c_state c0)) eqn:Hlt.
    + intros [= <- <- <-]. exists (new_class it).
      split; [by left|]. split; [done|]. split; [apply equivalent_refl|done].
    + destruct (orderer (c_state c0) (ist it)) eqn:Hgt.
      * destruct (map_insert σ (iv it) (map_of cs))
          as [[[map1 stored1] inserted1]|]; [|done].
        simpl. intros [= <- <- <-].
        destruct (IH _ _ _ eq_refl) as (c & Hin & Hrep & Heq & Hins).
        exists c. split; [by right|done].
      * intros [= <- <- <-]. exists (merge_class it c0).
        split; [by left|]. rewrite merge_class_rep, merge_class_state.
        by repeat split.
Qed.

Lemma recombine_step_heads σ m cs done it todo σ' m' :
  represents σ m cs (it :: todo) →
  NoDup (ih <$> (done ++ it :: todo)) →
  heads_ok σ cs done →
  recombine_step (σ, m) (ih it) = Some (σ', m') →
  heads_ok σ' (class_insert it cs) (done ++ [it]).
Proof.
  intros (-> & Hcs & Htodo & Hnd & Hdisj) Hih Hheads Hstep.
  apply Forall_cons in Htodo as [Hit Htodo].
  destruct Hit as (e & pv & He & Hhead & Hscore & Hsv).
  destruct (recombine_step_effect _ _ _ _ _ Hstep)
    as (eh & sv & stored & inserted & Heh & Hsv' & _ & _ & Hins & Heff).
  rewrite He in Heh. injection Heh as <-. rewrite Hhead in Hsv', Hins, Heff.
  assert (Hstates : Forall (λ c, ∃ sc, vertices σ !! c_rep c = Some sc
                                       ∧ state sc = c_state c) cs).
  { eapply Forall_impl; [exact Hcs|]. intros c [[pc Hc] _]. eauto. }
  destruct (map_insert_class σ it cs _ _ _ _ Hsv eq_refl Hstates Hins)
    as (c & Hc & Hcrep & Hceq & Htrue).
  assert (Hne : ∀ it0, it0 ∈ done → ih it ≠ ih it0).
  { intros it0 Hit0 Heq. rewrite fmap_app in Hih.
    apply NoDup_app in Hih as (_ & Hcross & _).
    apply (Hcross (ih it0)); [apply list_elem_of_fmap; by exists it0|].
    rewrite <- Heq. by left. }
  intros it0 [Hit0|Hit0]%elem_of_app.
  - destruct (Hheads it0 Hit0) as [(e0 & c0 & He0 & Hc0 & Hh0 & Heq0) Hrep0].
    destruct (class_insert_keeps it cs c0 Hc0) as (c0' & Hc0' & Hr0' & Hs0').
    split.
    + exists e0, c0'. split; [|split; [done|split; [congruence|by rewrite Hs0']]].
      destruct inserted; [by subst σ'|].
      destruct Heff as (ss & ss' & _ & _ & _ & _ & -> & _).
      rewrite lookup_insert_ne; [done|]. by apply Hne.
    + destruct Hrep0 as [(c1 & Hc1 & Hr1)|Hnone].
      * left. destruct (class_insert_keeps it cs c1 Hc1) as (c1' & ? & ? & ?).
        exists c1'. split; [done|congruence].
      * right. destruct inserted; [by subst σ'|].
        destruct Heff as (ss & ss' & Hss & _ & _ & _ & _ & ->).
        destruct (decide (iv it = iv it0)) as [Heq|Hn].
        { rewrite Heq. apply lookup_delete_eq. }
        rewrite lookup_delete_ne by done.
        rewrite lookup_insert_ne; [done|]. intros Heq.
        rewrite Heq in Hss. congruence.
  - apply elem_of_cons in Hit0 as [->|Hit0];
      [|by apply elem_of_nil in Hit0].
    destruct inserted.
    + subst σ'. rewrite (Htrue eq_refl) in Hcrep. split.
      * exists e, c. by rewrite Hhead.
      * left. by exists c.
    + destruct Heff as (ss & ss' & Hss & _ & _ & _ & Hhs & Hvs). split.
      * exists (with_head e stored), c. rewrite Hhs, lookup_insert_eq.
        split; [done|]. split; [done|]. by split.
      * right. rewrite Hvs. apply lookup_delete_eq.
Qed.

Lemma recombine_loop_heads todo : ∀ σ m cs done,
  represents σ m cs todo → NoDup (ih <$> (done ++ todo)) →
  heads_ok σ cs done →
  ∃ σ' m', recombine_loop (σ, m) (ih <$> todo) = Some (σ', m')
    ∧ represents σ' m' (foldl (λ cs it, class_insert it cs) cs todo) []
    ∧ heads_ok σ' (foldl (λ cs it, class_insert it cs) cs todo) (done ++ todo).
Proof.
  induction todo as [|it todo IH]; intros σ m cs done Hrep Hnd Hheads.
  - exists σ, m. by rewrite app_nil_r.
  - assert (Hnd' : NoDup (ih <$> it :: todo)).
    { rewrite fmap_app in Hnd. by apply NoDup_app in Hnd as (_ & _ & ?). }
    destruct (recombine_step_spec _ _ _ _ _ Hrep Hnd')
      as (σ1 & m1 & Hstep & Hrep1).
    pose proof (recombine_step_heads _ _ _ _ _ _ _ _ Hrep Hnd Hheads Hstep)
      as Hheads1.
    change (recombine_loop (σ, m) (ih <$> it :: todo))
      with (st' ← recombine_step (σ, m) (ih it);
            recombine_loop st' (ih <$> todo)).
    rewrite Hstep. cbn [mbind option_bind foldl].
    replace (done ++ it :: todo) with ((done ++ [it]) ++ todo) in *
      by (by rewrite <- app_assoc).
    by apply IH.
Qed.

Lemma RecombineAndSort_heads_spec σ buffer stack0 :
  fresh_buffer σ buffer → clearable σ buffer stack0 →
  ∃ items σ' result,
    buffer = ih <$> items
    ∧ Forall (λ it, item_at σ (ih it) = Some it) items
    ∧ RecombineAndSort σ buffer stack0 = Some (σ', result.*1)
    ∧ result ≡ₚ scored_classes (classes_of items)
    ∧ Forall (holds_class σ') (classes_of items)
    ∧ heads_ok σ' (classes_of items) items.
Proof.
  intros Hfresh Hclear.
  destruct (fresh_buffer_items _ _ Hfresh) as (items & -> & Hitems & Hat).
  destruct Hfresh as [Hnd _].
  assert (Hrep : represents σ [] [] items).
  { repeat split; try done; [constructor|].
    intros c it Hc. by apply elem_of_nil in Hc. }
  assert (Hheads : heads_ok σ [] []) by (by intros it ?%elem_of_nil).
  destruct (recombine_loop_heads items σ [] [] [] Hrep Hnd Hheads)
    as (σ1 & m' & Hloop & (-> & Hcs & _) & Hheads').
  fold (classes_of items) in *.
  destruct (RecombineAndSort_clear _ _ _ _ _ Hloop Hclear)
    as (Hrun & Hown & Hinv).
  pose proof (classes_held_released _ _ _ _ Hclear Hinv Hown Hcs) as Hcs'.
  destruct (sort_stack_spec _ _ Hcs') as (result & Hperm & Hsort & _).
  exists items, (released σ1 stack0), result.
  replace ((map_of (classes_of items)).*1) with (c_rep <$> classes_of items)
    in Hrun.
  2:{ unfold map_of. rewrite <- list_fmap_compose. by apply list_fmap_ext. }
  rewrite Hsort in Hrun. simpl in Hrun.
  repeat (split; [done|]).
  destruct Hclear as (_ & _ & Hbuffer).
  intros it Hit. destruct (Hheads' it Hit) as [(e & c & He & Hc & Hhc) Hrep'].
  split.
  - exists e, c. split; [|done].
    rewrite released_hyperedges, Hown, decide_False; [done|].
    intros Hin. apply (Hbuffer _ Hin), list_elem_of_fmap. by exists it.
  - destruct Hrep' as [?|Hnone]; [by left|right].
    rewrite released_vertices. by case_decide.
Qed.

(** X8. After [RecombineAndSort] has run on a buffer that satisfies its
    entry assertions and lists no hyperedge twice, and on a stack that can
    be cleared apart from the buffer, every hyperedge of the
    buffer points to a vertex of the stack, that vertex has the hyperedge as
    its [best] or in its [recombined] list and a state equivalent to the one
    the hyperedge led to on entry, and of the vertices that headed a buffer
    hyperedge on entry exactly those in the stack are still allocated: the
    others have been deleted. *)
Theorem RecombineAndSort_heads (σ : Heap) (buffer : list hptr)
    (stack0 : SVertexStack) :
  fresh_buffer σ buffer → clearable σ buffer stack0 →
  ∃ σ' stack,
    RecombineAndSort σ buffer stack0 = Some (σ', stack)
    ∧ (∀ h, h ∈ buffer →
         ∃ e' sv',
           hyperedges σ' !! h = Some e' ∧ head e' ∈ stack
           ∧ vertices σ' !! head e' = Some sv'
           ∧ (best sv' = Some h ∨ h ∈ recombined sv')
           ∧ ∀ st, edge_state σ h = Some st → equivalent st (state sv'))
    ∧ (∀ v, (∃ h e, h ∈ buffer ∧ hyperedges σ !! h = Some e ∧ head e = v) →
         is_Some (vertices σ' !! v) ↔ v ∈ stack).
Proof.
  intros Hfresh Hclear.
  destruct (RecombineAndSort_heads_spec _ _ _ Hfresh Hclear)
    as (items & σ' & result & -> & Hat & Hrun & Hperm & Hcs & Hheads).
  destruct (classes_of_ok items) as (_ & _ & Hok).
  exists σ', (result.*1). split; [exact Hrun|]. split.
  - intros h Hh.
    destruct (item_of_buffer _ _ _ Hat Hh) as (it & Hit & <- & Hith).
    destruct (Hheads it Hit) as [(e' & c & He' & Hc & Hhead & Heq) _].
    pose proof Hc as Hhold. eapply Forall_forall in Hhold; [|exact Hcs].
    pose proof Hc as Hcok. eapply Forall_forall in Hcok; [|exact Hok].
    destruct Hhold as [[pv Hv] _]. destruct Hcok as (Hmembers & _).
    eexists e', _. split; [done|]. rewrite Hhead.
    split; [by apply (class_in_stack _ _ _ Hperm)|]. split; [exact Hv|].
    simpl. split.
    + assert (Hin : ih it ∈ c_best c :: c_rec c).
      { rewrite Hmembers. apply list_elem_of_fmap. exists it.
        split; [done|]. by apply list_elem_of_filter. }
      apply elem_of_cons in Hin as [->|Hin]; [by left|by right].
    + intros st Hst. rewrite (proj1 (item_at_edge _ _ Hith)) in Hst.
      by injection Hst as <-.
  - intros v (h & e & Hh & He & Hhead).
    destruct (item_of_buffer _ _ _ Hat Hh) as (it & Hit & <- & Hith).
    assert (Hiv : iv it = v).
    { unfold item_at in Hith. rewrite He in Hith. simpl in Hith.
      destruct (vertices σ !! head e); [|done]. simpl in Hith.
      injection Hith as <-. done. }
    destruct (Hheads it Hit) as [_ Hrep]. rewrite Hiv in Hrep. split.
    + intros [sv Hsv]. destruct Hrep as [(c & Hc & <-)|Hnone]; [|congruence].
      by apply (class_in_stack _ _ _ Hperm).
    + intros Hv. destruct (stack_class _ _ _ Hperm Hv) as (c & Hc & <-).
      eapply Forall_forall in Hcs; [|exact Hc].
      destruct Hcs as [[pv Hvx] _]. eauto.
Qed.

(** *** When the assertions hold *)

(** A pass of the loop that completes found every entry as it was on entry
    to the function. *)
Lemma recombine_loop_asserts σ : ∀ todo σi mapi σ' map',
  NoDup todo →
  (∀ h, h ∈ todo → hyperedges σi !! h = hyperedges σ !! h) →
  (∀ v sv', vertices σi !! v = Some sv' →
     vertices σ !! v = Some sv' ∨ recombined sv' ≠ []) →
  recombine_loop (σi, mapi) todo = Some (σ', map') →
  ∀ h, h ∈ todo →
    ∃ e sv, hyperedges σ !! h = Some e ∧ vertices σ !! head e = Some sv
            ∧ best sv = Some h ∧ recombined sv = [].
Proof.
  induction todo as [|h0 todo IH]; intros σi mapi σ' map' Hnd Hedges Hverts;
    cbn [recombine_loop]; [by intros _ h ?%elem_of_nil|].
  destruct (recombine_step (σi, mapi) h0) as [[σ1 map1]|] eqn:Hstep; [|done].
  cbn [mbind option_bind]. intros Hloop.
  apply NoDup_cons in Hnd as [Hh0 Hnd].
  destruct (recombine_step_effect _ _ _ _ _ Hstep)
    as (eh & sv & stored & inserted & Heh & Hsv & Hbest & Hrec & _ & Heff).
  intros h [->|Hh]%elem_of_cons.
  - exists eh, sv. rewrite <- Hedges by (by left). split; [done|].
    destruct (Hverts _ _ Hsv) as [?|?]; done.
  - apply (IH σ1 map1 σ' map' Hnd); [| |done|done].
    + intros h' Hh'. rewrite <- Hedges by (by right).
      destruct inserted; [by subst σ1|].
      destruct Heff as (ss & ss' & _ & _ & _ & _ & -> & _).
      rewrite lookup_insert_ne; [done|]. by intros ->.
    + intros v sv' Hv. destruct inserted; [subst σ1; by apply Hverts|].
      destruct Heff as (ss & ss' & _ & _ & _ & Hne & _ & Hvs).
      rewrite Hvs in Hv. apply lookup_delete_Some in Hv as [_ Hv].
      destruct (decide (v = stored)) as [->|Hns].
      * rewrite lookup_insert_eq in Hv. injection Hv as <-. by right.
      * rewrite lookup_insert_ne in Hv by done. by apply Hverts.
Qed.

Lemma RecombineAndSort_fresh σ buffer stack0 σ' stack :
  RecombineAndSort σ buffer stack0 = Some (σ', stack) → NoDup buffer →
  fresh_buffer σ buffer.
Proof.
  intros Hrun Hnd. split; [done|]. unfold RecombineAndSort in Hrun.
  destruct (recombine_loop (σ, []) buffer) as [[σ1 map]|] eqn:Hloop; [|done].
  apply (recombine_loop_asserts σ buffer σ [] σ1 map Hnd); [done| |done].
  intros v sv Hv. by left.
Qed.

(** X9. On a buffer that lists no hyperedge twice, and a stack that can be
    cleared apart from the buffer, [RecombineAndSort] completes exactly
    when every hyperedge of the buffer is, on entry, the [best] of its own
    head vertex and that vertex has nothing recombined: the two assertions
    of the loop, read on the heap as it is on entry, are all that the call
    needs. *)
Theorem RecombineAndSort_completes (σ : Heap) (buffer : list hptr)
    (stack0 : SVertexStack) :
  NoDup buffer → clearable σ buffer stack0 →
  is_Some (RecombineAndSort σ buffer stack0)
  ↔ ∀ h, h ∈ buffer →
      ∃ e sv, hyperedges σ !! h = Some e ∧ vertices σ !! head e = Some sv
              ∧ best sv = Some h ∧ recombined sv = [].
Proof.
  intros Hnd Hclear. split.
  - intros [[σ' stack] Hrun].
    by destruct (RecombineAndSort_fresh _ _ _ _ _ Hrun Hnd) as [_ Hentries].
  - intros Hasserts.
    destruct (RecombineAndSort_spec σ buffer stack0)
      as (items & σ' & result & Hrun); [by split|done|].
    destruct Hrun as (_ & _ & -> & _). eauto.
Qed.

(** *** A hyperedge listed twice *)

Lemma recombine_loop_app l1 : ∀ st l2,
  recombine_loop st (l1 ++ l2)
  = st' ← recombine_loop st l1; recombine_loop st' l2.
Proof.
  induction l1 as [|h l1 IH]; intros st l2; [done|].
  cbn [app recombine_loop].
  destruct (recombine_step st h) as [st1|]; [|done].
  cbn [mbind option_bind]. apply IH.
Qed.

(** A list with a repeated element has a first repetition. *)
Lemma first_repeat (l : list nat) :
  ¬ NoDup l → ∃ p h q, l = p ++ h :: q ∧ NoDup p ∧ h ∈ p.
Proof.
  induction l as [|x l IH] using rev_ind; intros Hdup.
  - destruct Hdup. constructor.
  - destruct (decide (NoDup l)) as [Hnd|Hnd].
    + destruct (decide (x ∈ l)) as [Hin|Hnin].
      * by exists l, x, [].
      * destruct Hdup. apply NoDup_app. split; [done|]. split.
        -- intros y Hy [->|Hn]%elem_of_cons; [done|by apply elem_of_nil in Hn].
        -- apply NoDup_singleton.
    + destruct (IH Hnd) as (p & h & q & -> & Hp & Hh).
      exists p, h, (q ++ [x]). by rewrite <- app_assoc.
Qed.

(** The map finds the vertex of a class under its own key. *)
Lemma map_insert_found σ cs c :
  StronglySorted (λ s1 s2, orderer s1 s2 = true) (c_state <$> cs) →
  Forall (λ c, ∃ sc, vertices σ !! c_rep c = Some sc ∧ state sc = c_state c)
    cs →
  c ∈ cs →
  map_insert σ (c_rep c) (map_of cs) = Some (map_of cs, c_rep c, false).
Proof.
  intros Hsorted Hcs Hc.
  assert (Hself : ∃ sc, vertices σ !! c_rep c = Some sc ∧ state sc = c_state c)
    by (by eapply Forall_forall in Hcs).
  destruct Hself as (sv & Hsv & Hst).
  induction cs as [|c0 cs IH]; [by apply elem_of_nil in Hc|].
  csimpl in Hsorted. apply StronglySorted_cons in Hsorted as [Hall Hsorted].
  apply Forall_cons in Hcs as [(s0 & Hs0 & Hst0) Hcs].
  simpl. rewrite Hsv, Hs0. simpl. rewrite Hst, Hst0.
  apply elem_of_cons in Hc as [->|Hc].
  - by rewrite orderer_irrefl.
  - apply Forall_fmap in Hall. eapply Forall_forall in Hall; [|exact Hc].
    simpl in Hall. rewrite Hall.
    destruct (orderer (c_state c) (c_state c0)) eqn:Hlt.
    { pose proof (orderer_trans _ _ _ Hlt Hall) as Hrefl.
      by rewrite orderer_irrefl in Hrefl. }
    by rewrite (IH Hsorted Hcs Hc).
Qed.

(** A hyperedge that the map hands to its own head vertex is released with
    that vertex, and the assignment to its [head] fails. *)
Lemma recombine_step_own_vertex σ map h eh map' :
  hyperedges σ !! h = Some eh →
  map_insert σ (head eh) map = Some (map', head eh, false) →
  recombine_step (σ, map) h = None.
Proof.
  intros Heh Hins. unfold recombine_step. rewrite Heh. simpl.
  destruct (vertices σ !! head eh) as [sv|] eqn:Hsv; [|done]. simpl.
  case_decide as Hassert; [|done]. destruct Hassert as [Hbest Hrec].
  rewrite Hins. simpl. rewrite Hsv. simpl. rewrite Hbest. simpl.
  rewrite Heh. simpl.
  rewrite Z.ltb_irrefl, lookup_insert_eq. simpl.
  unfold delete_vertex. simpl. rewrite lookup_insert_eq. simpl.
  unfold owned. simpl. rewrite Hrec. simpl.
  unfold delete_hyperedge. simpl. rewrite Heh. simpl.
  by rewrite lookup_delete_eq.
Qed.

(** Once the loop has passed a hyperedge, it cannot pass it again. *)
Lemma recombine_loop_repeat σ p h σ1 map1 :
  NoDup p → h ∈ p →
  recombine_loop (σ, []) p = Some (σ1, map1) →
  recombine_step (σ1, map1) h = None.
Proof.
  intros Hnd Hh Hloop.
  assert (Hfresh : fresh_buffer σ p).
  { split; [done|].
    apply (recombine_loop_asserts σ p σ [] σ1 map1 Hnd); [done| |done].
    intros v sv Hv. by left. }
  destruct (fresh_buffer_items _ _ Hfresh) as (items & -> & Hitems & Hat).
  assert (Hrep : represents σ [] [] items).
  { repeat split; try done; [constructor|].
    intros c it Hc. by apply elem_of_nil in Hc. }
  assert (Hheads : heads_ok σ [] []) by (by intros it ?%elem_of_nil).
  destruct (recombine_loop_heads items σ [] [] [] Hrep Hnd Hheads)
    as (σ1' & m' & Hloop' & (-> & Hcs & _) & Hheads').
  fold (classes_of items) in *.
  rewrite Hloop in Hloop'. injection Hloop' as <- ->.
  destruct (classes_of_ok items) as (Hsorted & _ & _).
  apply list_elem_of_fmap in Hh as (it & -> & Hit).
  destruct (Hheads' it Hit) as [(e & c & He & Hc & Hhead & _) _].
  apply (recombine_step_own_vertex _ _ _ e (map_of (classes_of items)));
    [done|].
  rewrite Hhead. apply map_insert_found; [done| |done].
  eapply Forall_impl; [exact Hcs|]. intros c' [[pc Hc'] _]. eauto.
Qed.

Lemma recombine_loop_NoDup σ buffer σ' map :
  recombine_loop (σ, []) buffer = Some (σ', map) → NoDup buffer.
Proof.
  intros Hloop. destruct (decide (NoDup buffer)) as [Hnd|Hdup]; [done|].
  destruct (first_repeat _ Hdup) as (p & h & q & -> & Hp & Hh).
  rewrite recombine_loop_app in Hloop.
  destruct (recombine_loop (σ, []) p) as [[σ1 map1]|] eqn:Hprefix; [|done].
  cbn [mbind option_bind recombine_loop] in Hloop.
  by rewrite (recombine_loop_repeat _ _ _ _ _ Hp Hh Hprefix) in Hloop.
Qed.

(** X10. [RecombineAndSort] does not complete on a buffer that lists a
    hyperedge twice, whatever stack is passed in.  At its second visit the
    hyperedge fails an assertion, or, when both assertions pass, it is
    found in the map under its own head vertex: it is filed there as
    recombined, [delete h->head] releases the vertex together with the
    hyperedge it now owns, and [h->head = storedVertex] writes to the
    released hyperedge. *)
Theorem RecombineAndSort_repeated_hyperedge (σ : Heap)
    (buffer : list hptr) (stack0 : SVertexStack) :
  ¬ NoDup buffer → RecombineAndSort σ buffer stack0 = None.
Proof.
  intros Hdup. unfold RecombineAndSort.
  destruct (recombine_loop (σ, []) buffer) as [[σ1 map]|] eqn:Hloop; [|done].
  destruct Hdup. by apply (recombine_loop_NoDup _ _ _ _ Hloop).
Qed.

(** *** Recombination and pruning in [Decode] *)

(** A call of [RecombineSortPrune] that completes, taken apart. *)
Lemma RecombineSortPrune_stack stackLimit σ buffer stack0 σ'' stack :
  RecombineSortPrune stackLimit σ buffer stack0 = Some (σ'', stack) →
  ∃ σ' full,
    RecombineAndSort σ buffer stack0 = Some (σ', full)
    ∧ stack = PruneStack stackLimit full
    ∧ (if decide (0 < stackLimit ∧ stackLimit < length full)%nat
       then resize_stack σ' full stackLimit
       else Some (σ', full)) = Some (σ'', stack).
Proof.
  unfold RecombineSortPrune.
  destruct (RecombineAndSort σ buffer stack0) as [[σ' full]|]; [|done].
  cbn [mbind option_bind]. intros Hprune. exists σ', full.
  split; [done|]. split; [|done]. unfold PruneStack.
  case_decide as Hlim.
  - unfold resize_stack in Hprune.
    destruct (release_stack σ' (drop stackLimit full)); [|done].
    by injection Hprune as _ <-.
  - by injection Hprune as _ <-.
Qed.

(** What a visit of [Decode] leaves of a buffer of hyperedges that the
    queue has just created, on a node whose stack is still empty: the
    vertices of the stack hold the classes of the buffer, and whatever is
    neither a hyperedge of the buffer nor the head of one is left as it
    is. *)
Lemma RecombineSortPrune_created stackLimit σ buffer σ'' stack :
  RecombineSortPrune stackLimit σ buffer [] = Some (σ'', stack) →
  NoDup buffer →
  NoDup stack ∧ sorted_by_score σ'' stack
  ∧ (∀ v, v ∈ stack →
       ∃ sv sv'' hb, vertices σ !! v = Some sv
         ∧ vertices σ'' !! v = Some sv''
         ∧ pvertex sv'' = pvertex sv ∧ best sv'' = Some hb
         ∧ entry_head σ buffer v)
  ∧ (∀ v, ¬ entry_head σ buffer v → vertices σ'' !! v = vertices σ !! v)
  ∧ (∀ h, h ∉ buffer → hyperedges σ'' !! h = hyperedges σ !! h).
Proof.
  intros Hprune Hnd.
  destruct (RecombineSortPrune_stack _ _ _ _ _ _ Hprune)
    as (σ' & full & Hrun & -> & Hresize).
  pose proof (RecombineAndSort_fresh _ _ _ _ _ Hrun Hnd) as Hfresh.
  destruct (RecombineAndSort_untouched _ _ _ _ _ Hrun)
    as (σ1 & map & (Hdom & Hedges & Hverts & Hother & Hmap) & _ & Hσ' & _).
  rewrite released_nil in Hσ'. subst σ1.
  destruct (RecombineAndSort_spec _ _ _ Hfresh (clearable_nil σ buffer))
    as (items & σ0 & result & Hbuf & Hat & Hrun' & Hperm & Hsorted & Hcs
        & Hreps & Halloc).
  rewrite Hrun in Hrun'. injection Hrun' as <- ->.
  rewrite Hbuf in Hnd, Halloc.
  destruct (prune_spec σ' items result stackLimit Hcs Hnd Halloc Hperm Hreps)
    as (Hprune' & Hheld & Hown & Hdropped).
  rewrite Hresize in Hprune'. injection Hprune' as ->.
  set (stack := PruneStack stackLimit (result.*1)) in *.
  set (dropped := drop (length stack) (result.*1)) in *.
  assert (Hfull : ∀ v, v ∈ stack → v ∈ result.*1).
  { intros v Hv. subst stack. rewrite PruneStack_take in Hv.
    apply elem_of_take in Hv as (i & Hi & _).
    by eapply list_elem_of_lookup_2. }
  assert (Hheads : ∀ v, v ∈ result.*1 → entry_head σ buffer v).
  { intros v Hv. destruct (stack_class _ _ _ Hperm Hv) as (c & Hc & <-).
    destruct (classes_of_ok items) as (_ & _ & Hok).
    eapply Forall_forall in Hok; [|exact Hc].
    destruct Hok as (_ & _ & _ & (r & Hr & <- & _)).
    assert (Hitem : item_at σ (ih r) = Some r)
      by (by eapply Forall_forall in Hat).
    unfold item_at in Hitem.
    destruct (hyperedges σ !! ih r) as [e|] eqn:He; [|done].
    simpl in Hitem. destruct (vertices σ !! head e); [|done].
    simpl in Hitem. injection Hitem as Hr'. exists (ih r), e.
    split; [rewrite Hbuf; apply list_elem_of_fmap; by exists r|].
    split; [done|]. by rewrite <- Hr'. }
  split; [|split; [|split; [|split]]].
  - subst stack. rewrite PruneStack_take.
    apply (sublist_NoDup _ (result.*1));
      [by rewrite (stack_reps _ _ Hperm)|apply sublist_take].
  - assert (Hsort : sorted_by_score σ' (result.*1)).
    { exists (result.*2). split; [by eapply result_scores|done]. }
    apply (sorted_by_score_ext σ').
    + intros v Hv. destruct (stack_class _ _ _ Hperm (Hfull v Hv))
        as (c & Hc & <-).
      rewrite (holds_class_best_score _ _ (Hheld c Hc Hv)).
      symmetry. apply holds_class_best_score.
      by eapply Forall_forall in Hcs.
    + subst stack. rewrite PruneStack_take. by apply sorted_by_score_take.
  - intros v Hv.
    destruct (stack_class _ _ _ Hperm (Hfull v Hv)) as (c & Hc & <-).
    destruct (Hheld c Hc Hv) as [[pv Hvx] _].
    assert (Hvx' : vertices σ' !! c_rep c
                   = Some {| best := Some (c_best c); recombined := c_rec c;
                             pvertex := pv; state := c_state c |}).
    { rewrite released_vertices in Hvx. by case_decide. }
    destruct (Hverts _ _ Hvx') as (sv & Hsv & _ & Hpv).
    eexists sv, _, (c_best c). split; [done|]. split; [exact Hvx|].
    split; [by rewrite <- Hpv|]. split; [done|]. by apply Hheads, Hfull.
  - intros v Hv. rewrite released_vertices.
    rewrite decide_False; [by apply Hother|].
    intros Hin. apply Hv, Hheads. subst dropped.
    by apply (subseteq_drop _ _ _ Hin).
  - intros h Hh. rewrite released_hyperedges.
    rewrite decide_False by (intros Hin; apply Hh; rewrite Hbuf; by apply Hown).
    destruct (hyperedges σ !! h) as [e|] eqn:He.
    + destruct (Hedges h e He) as (e' & He' & _ & _ & Hsame & _).
      rewrite He'. f_equal. by apply Hsame.
    + apply not_elem_of_dom. rewrite Hdom. by apply not_elem_of_dom.
Qed.

(** *** The best hyperedge of the root *)

Lemma PruneStack_first stackLimit v (stack : list vptr) :
  ∃ rest, PruneStack stackLimit (v :: stack) = v :: rest.
Proof.
  unfold PruneStack. case_decide as Hlim; [|by eauto].
  destruct stackLimit as [|n]; [lia|]. simpl. eauto.
Qed.

(** X11. Once the buffer of the root node, which is not empty and satisfies
    the entry assertions, has been recombined, sorted and pruned into the
    root stack, [GetBestSHyperedge] returns a hyperedge of that buffer whose
    score is the highest in the buffer, whatever the stack limit, and
    [OutputDetailedTranslationReport] hands the collector one record, the
    derivation written for that hyperedge under the translation id.  The
    stack that the stack map holds for the root on entry may hold vertices,
    as long as they can be cleared apart from the buffer. *)
Theorem GetBestSHyperedge_best_popped (stackLimit : nat) (m : Manager)
    (buffer : list hptr) :
  m_inputTree m ≠ [] → buffer ≠ [] → fresh_buffer (m_heap m) buffer →
  clearable (m_heap m) buffer
    (default [] (m_stackMap m !! (length (m_inputTree m) - 1)%nat)) →
  ∃ m' hb sb,
    Decode_store_stack stackLimit m (length (m_inputTree m) - 1) buffer
    = Some m'
    ∧ GetBestSHyperedge m' = Some (Some hb)
    ∧ hb ∈ buffer ∧ edge_score (m_heap m) hb = Some sb
    ∧ (∀ h s, h ∈ buffer → edge_score (m_heap m) h = Some s → s ≤ sb)
    ∧ ∀ DerivationWriter_Write collector translationId,
        OutputDetailedTranslationReport DerivationWriter_Write m'
          (Some collector) translationId
        = Some (Some (Write collector translationId
                        (DerivationWriter_Write (m_heap m') hb translationId))).
Proof.
  intros Htree Hbuffer Hfresh Hclear.
  destruct (RecombineAndSort_spec _ _ _ Hfresh Hclear)
    as (items & σ' & result & -> & Hat & Hrun & Hperm & Hsorted & Hcs & Hreps
        & Halloc).
  destruct (classes_of_ok items) as (_ & Hcover & Hok).
  pose proof (proj1 Hfresh) as Hnd.
  destruct (prune_spec σ' items result stackLimit Hcs Hnd Halloc Hperm Hreps)
    as (Hprune & Hheld & _).
  assert (Hscored : ∀ c, c ∈ classes_of items → (c_rep c, c_score c) ∈ result).
  { intros c Hc. rewrite Hperm. apply list_elem_of_fmap. by exists c. }
  destruct items as [|it0 items0] eqn:Hitems; [done|]. rewrite <- Hitems in *.
  assert (Hit0 : it0 ∈ items) by (rewrite Hitems; by left).
  destruct (Hcover it0 Hit0) as (c0 & Hc0 & _).
  destruct result as [|[v s] rest];
    [by apply Hscored, elem_of_nil in Hc0|].
  assert (Hhead : (v, s) ∈ scored_classes (classes_of items))
    by (rewrite <- Hperm; by left).
  apply list_elem_of_fmap in Hhead as (c & [= -> ->] & Hc).
  pose proof Hc as Hcok. eapply Forall_forall in Hcok; [|exact Hok].
  destruct Hcok as (_ & (b & Hb & Hbh & Hbs & _) & _).
  destruct (PruneStack_first stackLimit (c_rep c) (rest.*1)) as [kept Hkept].
  csimpl in Hprune. csimpl in Hheld. rewrite Hkept in Hprune, Hheld.
  assert (Hhold : holds_class
                    (released σ' (drop (length (c_rep c :: kept))
                                    (c_rep c :: rest.*1))) c)
    by (apply Hheld; [done|by left]).
  destruct Hhold as [[pv Hvx] _].
  eexists _, (c_best c), (c_score c). split.
  { unfold Decode_store_stack, RecombineSortPrune. rewrite Hrun.
    cbn [mbind option_bind]. csimpl. rewrite Hprune. reflexivity. }
  match goal with |- GetBestSHyperedge ?m1 = _ ∧ _ => set (m' := m1) end.
  assert (Hbest : GetBestSHyperedge m' = Some (Some (c_best c))).
  { unfold GetBestSHyperedge, root_stack. subst m'.
    cbn [m_inputTree m_stackMap m_heap].
    destruct (m_inputTree m) as [|n0 nodes]; [done|].
    rewrite lookup_insert_eq. simpl. simpl in Hvx. by rewrite Hvx. }
  split; [exact Hbest|]. split; [|split; [|split]].
  - rewrite <- Hbh. apply list_elem_of_fmap. by exists b.
  - rewrite <- Hbh, <- Hbs. apply item_at_edge.
    by eapply Forall_forall in Hat.
  - intros h sh Hh Hsh.
    destruct (item_of_buffer _ _ _ Hat Hh) as (it & Hit & <- & Hith).
    rewrite (proj2 (item_at_edge _ _ Hith)) in Hsh. injection Hsh as <-.
    destruct (Hcover it Hit) as (c' & Hc' & Heq').
    pose proof Hc' as Hcok'. eapply Forall_forall in Hcok'; [|exact Hok].
    destruct Hcok' as (_ & _ & Hmax & _).
    etrans; [by apply Hmax|].
    apply Hscored, elem_of_cons in Hc' as [[= _ ->]|Hrest]; [done|].
    csimpl in Hsorted. apply StronglySorted_cons in Hsorted as [Hall _].
    apply Z.ge_le. eapply Forall_forall in Hall; [exact Hall|].
    apply list_elem_of_fmap. by exists (c_rep c', c_score c').
  - intros W collector translationId.
    unfold OutputDetailedTranslationReport. by rewrite Hbest.
Qed.

End RecombinationProperties.

(** ** InitializeRuleMatchers and Decode *)

Section DecodingProperties.
Context `{RulePatterns} `{RecombinationOrderer} `{StdSort}.
Context {Q : Type} `{CubeQueueOps Q}.
Variables popLimit ruleLimit stackLimit : nat.
Variable estimate : SHyperedgeBundle → Z.
Variable CubeQueue_new : list SHyperedgeBundle → Q.

Lemma indexed_fst {A} (l : list A) : ∀ j,
  (imap (λ i x, ((j + i)%nat, x)) l).*1 = seq j (length l).
Proof.
  induction l as [|x l IH]; intros j; [done|].
  csimpl. rewrite Nat.add_0_r. f_equal. rewrite <- IH.
  f_equal. apply imap_ext. intros i y _. simpl. f_equal. lia.
Qed.

Lemma indexed_keys {A} (l : list A) :
  (imap (λ i x, (i, x)) l).*1 = seq 0 (length l).
Proof. rewrite <- (indexed_fst l 0). f_equal. Qed.

Lemma indexed_elem_of {A} (l : list A) i x :
  (i, x) ∈ imap (λ i x, (i, x)) l ↔ l !! i = Some x.
Proof.
  rewrite list_elem_of_lookup. split.
  - intros [k Hk]. rewrite list_lookup_imap in Hk.
    destruct (l !! k) as [y|] eqn:Hy; [|done].
    simpl in Hk. by injection Hk as <- <-.
  - intros Hi. exists i. by rewrite list_lookup_imap, Hi.
Qed.

Lemma InitializeRuleMatchers_loop_Some entries : ∀ matchers matchers',
  InitializeRuleMatchers_loop matchers entries = Some matchers' →
  Forall (λ entry, ∃ trie, entry.2 = Some (RuleTrieTable trie)) entries
  ∧ matchers' = matchers ++ (TableTrie <$> entries.*1).
Proof.
  induction entries as [|[i table] entries IH]; intros matchers matchers';
    simpl.
  - intros [= <-]. by rewrite app_nil_r.
  - destruct table as [[trie|]|]; [|done|done]. simpl. intros Hloop.
    destruct (IH _ _ Hloop) as [Hall ->]. split.
    + constructor; [by exists trie|done].
    + by rewrite <- app_assoc.
Qed.

Lemma InitializeRuleMatchers_loop_tries entries : ∀ matchers,
  Forall (λ entry, ∃ trie, entry.2 = Some (RuleTrieTable trie)) entries →
  is_Some (InitializeRuleMatchers_loop matchers entries).
Proof.
  induction entries as [|[i table] entries IH]; intros matchers Hall; simpl.
  - by eauto.
  - apply Forall_cons in Hall as [[trie Htable] Hall]. simpl in Htable.
    rewrite Htable. simpl. by apply IH.
Qed.

Lemma indexed_Forall {A} (P : A → Prop) (l : list A) :
  Forall (λ entry : nat * A, P entry.2) (imap (λ i x, (i, x)) l) ↔ Forall P l.
Proof.
  rewrite !Forall_forall. split.
  - intros Hall x Hx. apply list_elem_of_lookup in Hx as [i Hi].
    apply (Hall (i, x)). by apply indexed_elem_of.
  - intros Hall [i x] Hx. apply indexed_elem_of in Hx.
    apply Hall. by eapply list_elem_of_lookup_2.
Qed.

Lemma InitializeRuleMatchers_Some ffs rm rm' :
  InitializeRuleMatchers ffs rm = Some rm' →
  ffs ≠ [] ∧ Forall (λ ff, ∃ trie, ff = Some (RuleTrieTable trie)) ffs.
Proof.
  unfold InitializeRuleMatchers.
  destruct (InitializeRuleMatchers_loop _ _) as [matchers|] eqn:Hloop;
    [|done].
  apply InitializeRuleMatchers_loop_Some in Hloop as [Hall _].
  apply (proj1 (indexed_Forall
                  (λ ff, ∃ trie, ff = Some (RuleTrieTable trie)) ffs))
    in Hall.
  intros Hrun. split; [|done]. intros ->. done.
Qed.

(** X12. [InitializeRuleMatchers] completes exactly when there is at least
    one [RuleTableFF] and the table of every one is a [RuleTrie].  It then
    appends one matcher per table, in the order of the instances, and after
    them the matcher of a new, empty glue rule trie, to which
    [m_glueRuleMatcher] points; every table matcher and the new glue matcher
    read a live trie, while a glue matcher of an earlier call is left with a
    trie that has been destroyed. *)
Theorem InitializeRuleMatchers_matchers (ffs : list (option RuleTable))
    (rm : Matchers) :
  (is_Some (InitializeRuleMatchers ffs rm)
   ↔ ffs ≠ [] ∧ Forall (λ ff, ∃ trie, ff = Some (RuleTrieTable trie)) ffs)
  ∧ ∀ rm', InitializeRuleMatchers ffs rm = Some rm' →
      let old := length (m_ruleMatchers rm) in
      m_ruleMatchers rm'
      = m_ruleMatchers rm ++ (TableTrie <$> seq 0 (length ffs)) ++ [GlueTrie]
      ∧ m_glueRuleTrie rm' = Some ∅
      ∧ m_glueRuleMatcher rm' = Some (old + length ffs)%nat
      ∧ matcher_trie ffs rm' (old + length ffs) GlueTrie = Some ∅
      ∧ (∀ i, (i < length ffs)%nat →
           is_Some (matcher_trie ffs rm' (old + i) (TableTrie i)))
      ∧ (∀ q, m_ruleMatchers rm !! q = Some GlueTrie →
           matcher_trie ffs rm' q GlueTrie = None).
Proof.
  unfold InitializeRuleMatchers. split.
  - split.
    + destruct (InitializeRuleMatchers_loop _ _) as [matchers|] eqn:Hloop;
        [|by intros [? ?]].
      apply InitializeRuleMatchers_loop_Some in Hloop as [Hall _].
      apply (proj1 (indexed_Forall
                      (λ ff, ∃ trie, ff = Some (RuleTrieTable trie)) ffs))
        in Hall.
      intros [rm' Hrun]. split; [|done]. intros ->. done.
    + intros [Hne Hall].
      destruct (InitializeRuleMatchers_loop_tries
                  (imap (λ i ff, (i, ff)) ffs) (m_ruleMatchers rm))
        as [matchers ->];
        [by apply (indexed_Forall
                     (λ ff, ∃ trie, ff = Some (RuleTrieTable trie)))|].
      simpl. destruct ffs; [done|]. simpl. eauto.
  - intros rm'.
    destruct (InitializeRuleMatchers_loop _ _) as [matchers|] eqn:Hloop;
      [|done].
    simpl. destruct (ffs !! 0%nat) as [ff0|]; [|done]. simpl.
    intros [= <-].
    apply InitializeRuleMatchers_loop_Some in Hloop as [Hall ->].
    apply (proj1 (indexed_Forall
                    (λ ff, ∃ trie, ff = Some (RuleTrieTable trie)) ffs))
      in Hall.
    rewrite indexed_keys, length_app, length_fmap, length_seq.
    cbn [m_ruleMatchers m_glueRuleTrie m_glueRuleMatcher matcher_trie].
    split; [by rewrite <- app_assoc|]. split; [done|]. split; [done|].
    split; [by rewrite decide_True|]. split.
    + intros i Hi. destruct (lookup_lt_is_Some_2 ffs i Hi) as [ff Hff].
      rewrite Hff. eapply Forall_lookup_1 in Hall; [|exact Hff].
      destruct Hall as [trie ->]. eauto.
    + intros q Hq. rewrite decide_False; [done|].
      intros [= Heq]. apply lookup_lt_Some in Hq. lia.
Qed.

(** The matchers that [InitializeRuleMatchers] sets up on a new manager
    read the tries of the tables, in order, and then the glue rule trie. *)
Lemma initialized_tries ffs rm glue :
  InitializeRuleMatchers ffs no_matchers = Some rm →
  mapM (λ entry, matcher_trie ffs (with_glue rm glue) entry.1 entry.2)
    (imap (λ q ref, (q, ref)) (m_ruleMatchers rm))
  = Some (table_tries ffs ++ [glue])
  ∧ m_glueRuleMatcher rm = Some (length ffs)
  ∧ m_ruleMatchers rm !! length ffs = Some GlueTrie.
Proof.
  intros Hrun. unfold InitializeRuleMatchers in Hrun.
  destruct (InitializeRuleMatchers_loop _ _) as [matchers|] eqn:Hloop;
    [|done].
  simpl in Hrun. destruct (ffs !! 0%nat) as [ff0|]; [|done].
  simpl in Hrun. injection Hrun as <-.
  apply InitializeRuleMatchers_loop_Some in Hloop as [Hall ->].
  apply (proj1 (indexed_Forall
                  (λ ff, ∃ trie, ff = Some (RuleTrieTable trie)) ffs))
    in Hall.
  rewrite indexed_keys. cbn [m_ruleMatchers m_glueRuleMatcher no_matchers].
  rewrite app_nil_l, length_fmap, length_seq.
  assert (Htries : ffs = (λ trie, Some (RuleTrieTable trie)) <$> table_tries ffs).
  { clear -Hall. unfold table_tries.
    induction Hall as [|ff ffs [trie ->] Hall IH]; [done|].
    csimpl. by rewrite <- IH. }
  assert (Hlen : length (table_tries ffs) = length ffs)
    by (by rewrite Htries at 2; rewrite length_fmap).
  split; [|split; [done|]].
  - apply mapM_Some, Forall2_same_length_lookup. split.
    + rewrite length_imap, !length_app, length_fmap, length_seq. simpl. lia.
    + intros q [q' ref] trie Hq Htrie. rewrite list_lookup_imap in Hq.
      destruct (_ !! q) as [ref'|] eqn:Href; [|done].
      simpl in Hq. injection Hq as <- <-. simpl.
      apply lookup_app_Some in Href as [Href|[Hge Href]].
      * rewrite list_lookup_fmap in Href.
        destruct (seq 0 (length ffs) !! q) as [i|] eqn:Hi; [|done].
        apply lookup_seq in Hi as [-> Hi]. simpl in Href.
        injection Href as <-. simpl.
        rewrite lookup_app_l in Htrie by lia.
        rewrite Htries, list_lookup_fmap, Htrie. done.
      * rewrite length_fmap, length_seq in Hge, Href.
        apply list_lookup_singleton_Some in Href as [Hq <-].
        assert (q = length ffs) as -> by lia. simpl.
        rewrite decide_True by done.
        rewrite lookup_app_r in Htrie by lia.
        rewrite Hlen, Nat.sub_diag in Htrie. by injection Htrie as <-.
  - rewrite lookup_app_r by (by rewrite length_fmap, length_seq).
    by rewrite length_fmap, length_seq, Nat.sub_diag.
Qed.

(** X13. With the matchers that [InitializeRuleMatchers] sets up on a new
    manager, the matching step of [Decode] runs the tries of the rule
    tables in the order of the instances and the glue rule trie last, and,
    when nothing matched, reads through the glue matcher the very trie
    into which the glue rule has just been synthesized. *)
Theorem Decode_match_initialized (ffs : list (option RuleTable))
    (rm : Matchers) (glue : gmap Pattern (list Rule))
    (stackMap : gmap pvptr (list vptr)) (nodes : list Node) (i : nat) :
  InitializeRuleMatchers ffs no_matchers = Some rm →
  Decode_match ruleLimit estimate ffs stackMap (with_glue rm glue) nodes i
  = (λ found, (found.1, with_glue rm found.2))
      <$> Decode_match_node ruleLimit stackMap estimate (table_tries ffs) glue
            nodes i.
Proof.
  intros Hrun.
  destruct (initialized_tries _ _ glue Hrun) as (Htries & Hglue & Hlast).
  unfold Decode_match, Decode_match_node.
  cbn [m_ruleMatchers m_glueRuleTrie m_glueRuleMatcher with_glue].
  rewrite Htries. cbn [mbind option_bind].
  case_decide as Hnone; [|done].
  rewrite Hglue. cbn [mbind option_bind]. rewrite Hlast.
  cbn [mbind option_bind matcher_trie m_glueRuleMatcher m_glueRuleTrie].
  rewrite decide_True by done. cbn [mbind option_bind].
  case_decide; [|done]. simpl. unfold with_glue. by rewrite Hglue.
Qed.

Lemma PruneStack_length (stack : list vptr) :
  (length (PruneStack stackLimit stack) ≤ length stack)%nat
  ∧ ((0 < stackLimit)%nat → (length (PruneStack stackLimit stack) ≤ stackLimit)%nat).
Proof.
  unfold PruneStack. case_decide as Hlim.
  - rewrite length_take. lia.
  - lia.
Qed.

(** One visit of the loop of [Decode]: a terminal node changes nothing, an
    internal node gets a stack within the two limits. *)
Lemma Decode_node_stacks ffs nodes st p node st' :
  Decode_node popLimit ruleLimit stackLimit estimate CubeQueue_new ffs
    nodes st (p, node) = Some st' →
  (children node = [] → st' = st)
  ∧ (children node ≠ [] →
       ∃ stack, d_stackMap st' = <[p := stack]> (d_stackMap st)
         ∧ (length stack ≤ popLimit)%nat
         ∧ ((0 < stackLimit)%nat → (length stack ≤ stackLimit)%nat)).
Proof.
  unfold Decode_node. destruct (children node) as [|c cs].
  { intros [= <-]. by split. }
  destruct (Decode_match _ _ _ _ _ _ _) as [[bundles rm]|]; [|done].
  cbn [mbind option_bind].
  destruct (pop_loop _ _ _ _ _) as [[[buffer q'] σ1]|] eqn:Hpop; [|done].
  cbn [mbind option_bind].
  destruct (RecombineSortPrune _ _ _ _) as [[σ2 stack]|] eqn:Hprune; [|done].
  cbn [mbind option_bind]. intros [= <-]. split; [done|]. intros _.
  exists stack. split; [done|].
  destruct (pop_loop_spec popLimit (CubeQueue_new bundles.*2) (d_heap st) p [])
    as (buffer' & q1 & σ1' & Hpop' & Hlen & _).
  rewrite Hpop in Hpop'. injection Hpop' as -> _ _.
  destruct (RecombineSortPrune_stack _ _ _ _ _ _ Hprune)
    as (σ3 & full & Hrun & -> & _).
  destruct (RecombineAndSort_untouched _ _ _ _ _ Hrun)
    as (σ4 & map & _ & _ & _ & Hperm & Hmap & _).
  assert (Hfull : (length full ≤ length buffer')%nat)
    by (by rewrite Hperm, length_fmap).
  destruct (PruneStack_length full) as [Hle Hlimit].
  split; [lia|done].
Qed.

Lemma Decode_loop_stacks ffs nodes entries : ∀ st st',
  Decode_loop popLimit ruleLimit stackLimit estimate CubeQueue_new ffs
    nodes st entries = Some st' →
  NoDup entries.*1 →
  (∀ p, p ∉ entries.*1 → d_stackMap st' !! p = d_stackMap st !! p)
  ∧ ∀ p node, (p, node) ∈ entries →
      (children node = [] → d_stackMap st' !! p = d_stackMap st !! p)
      ∧ (children node ≠ [] →
           ∃ stack, d_stackMap st' !! p = Some stack
             ∧ (length stack ≤ popLimit)%nat
             ∧ ((0 < stackLimit)%nat → (length stack ≤ stackLimit)%nat)).
Proof.
  induction entries as [|[p0 node0] entries IH]; intros st st';
    cbn [Decode_loop].
  - intros [= <-] _. split; [done|]. by intros p node ?%elem_of_nil.
  - destruct (Decode_node _ _ _ _ _ _ _ _ _) as [st1|] eqn:Hnode; [|done].
    cbn [mbind option_bind]. intros Hloop Hnd. csimpl in Hnd.
    apply NoDup_cons in Hnd as [Hp0 Hnd].
    destruct (IH _ _ Hloop Hnd) as [Hout Hin].
    destruct (Decode_node_stacks _ _ _ _ _ _ Hnode) as [Hleaf Hinner].
    split.
    + intros p Hp. csimpl in Hp. apply not_elem_of_cons in Hp as [Hne Hp].
      rewrite (Hout p Hp). destruct (children node0) as [|c cs].
      * by rewrite Hleaf.
      * destruct Hinner as (stack & -> & _); [done|].
        by rewrite lookup_insert_ne.
    + intros p node [[= -> ->]|Hrest]%elem_of_cons.
      * rewrite (Hout p0 Hp0). split.
        -- intros Hch. by rewrite (Hleaf Hch).
        -- intros Hch. destruct (Hinner Hch) as (stack & -> & Hbounds).
           exists stack. by rewrite lookup_insert_eq.
      * assert (Hne : p ≠ p0).
        { intros ->. apply Hp0, list_elem_of_fmap. by exists (p0, node). }
        destruct (Hin p node Hrest) as [Hl Hi]. split; [|done].
        intros Hch. rewrite (Hl Hch). destruct (children node0) as [|c cs].
        -- by rewrite Hleaf.
        -- destruct Hinner as (stack & -> & _); [done|].
           by rewrite lookup_insert_ne.
Qed.

(** X14. [Decode] completes only on a tree that has nodes and with at least
    one rule table, every one a [RuleTrie].  When it completes, the input
    tree is the one that was built, every terminal node has the stack that
    [InitializeStacks] gave it, one vertex after whatever the stack map held
    for it on entry, and every internal node has a stack of at most
    [popLimit] vertices, and of at most [stackLimit] vertices when
    [stackLimit] is positive. *)
Theorem Decode_stacks (ffs : list (option RuleTable)) (m m' : Manager)
    (rm rm' : Matchers) (inputTree : list Node) :
  Decode popLimit ruleLimit stackLimit estimate CubeQueue_new ffs
    m rm inputTree = Some (m', rm') →
  inputTree ≠ [] ∧ ffs ≠ []
  ∧ Forall (λ ff, ∃ trie, ff = Some (RuleTrieTable trie)) ffs
  ∧ m_inputTree m' = inputTree
  ∧ ∀ i node, inputTree !! i = Some node →
      (children node = [] →
         ∃ v, m_stackMap m' !! i
              = Some (default [] (m_stackMap m !! i) ++ [v]))
      ∧ (children node ≠ [] →
           ∃ stack, m_stackMap m' !! i = Some stack
             ∧ (length stack ≤ popLimit)%nat
             ∧ ((0 < stackLimit)%nat → (length stack ≤ stackLimit)%nat)).
Proof.
  unfold Decode, InitializeStacks. cbn [m_inputTree m_heap m_stackMap].
  destruct inputTree as [|n0 nodes] eqn:Htree; [done|]. rewrite <- Htree.
  destruct (foldl _ _ _) as [σ stackMap] eqn:Hinit.
  cbn [mbind option_bind m_inputTree m_heap m_stackMap m_source_size].
  destruct (InitializeRuleMatchers ffs rm) as [rm1|] eqn:Hmatchers; [|done].
  cbn [mbind option_bind].
  destruct (Decode_loop _ _ _ _ _ _ _ _ _) as [st|] eqn:Hloop; [|done].
  cbn [mbind option_bind]. intros [= <- <-].
  destruct (InitializeRuleMatchers_Some _ _ _ Hmatchers) as [Hffs Htries].
  split; [by rewrite Htree|]. split; [done|]. split; [done|].
  split; [done|]. cbn [m_stackMap].
  destruct (InitializeStacks_loop_extends _ _ _ _ _ Hinit)
    as (_ & _ & _ & _ & Hdone).
  apply Decode_loop_stacks in Hloop as [_ Hin].
  2:{ unfold addressed_nodes. rewrite indexed_keys.
      apply NoDup_seq. }
  intros i node Hi. specialize (Hdone i node Hi).
  destruct (Hin i node) as [Hleaf Hinner];
    [by apply indexed_elem_of|].
  cbn [d_stackMap] in Hleaf. split; [|done].
  intros Hch. rewrite (Hleaf Hch). rewrite Hch in Hdone.
  destruct Hdone as (v & -> & _). by exists v.
Qed.

Lemma Decode_node_spec ffs nodes st st' p node :
  (∀ q σ0 h q' σ1, IsEmpty q = false → Pop q σ0 = (h, q', σ1) →
     (∀ v sv, vertices σ0 !! v = Some sv → vertices σ1 !! v = Some sv)
     ∧ (∀ h0 e0, hyperedges σ0 !! h0 = Some e0 →
          hyperedges σ1 !! h0 = Some e0)) →
  (∀ q σ0 h q' σ1, IsEmpty q = false → Pop q σ0 = (h, q', σ1) →
     hyperedges σ0 !! h = None) →
  children node ≠ [] →
  default [] (d_stackMap st !! p) = [] →
  Decode_node popLimit ruleLimit stackLimit estimate CubeQueue_new ffs
    nodes st (p, node) = Some st' →
  ∃ stack, d_stackMap st' !! p = Some stack ∧ stack_ok (d_heap st') p stack.
Proof.
  intros Hadds Hnew Hch Hempty. unfold Decode_node.
  destruct (children node) as [|c0 cs0]; [done|].
  destruct (Decode_match _ _ _ _ _ _ _) as [[bundles rm]|]; [|done].
  cbn [mbind option_bind].
  destruct (pop_loop _ _ _ _ _) as [[[buffer q'] σ1]|] eqn:Hpop; [|done].
  cbn [mbind option_bind]. rewrite Hempty.
  destruct (RecombineSortPrune _ _ _ _) as [[σ2 stack]|] eqn:Hprune; [|done].
  cbn [mbind option_bind]. intros [= <-]. cbn [d_stackMap d_heap].
  exists stack. rewrite lookup_insert_eq. split; [done|]. unfold stack_ok.
  destruct (pop_loop_buffer_spec p Hadds _ _ _ [] _ _ _
              (λ h Hh, False_ind _ (proj1 (elem_of_nil h) Hh)) Hpop)
    as [Hheads Hnodup].
  specialize (Hnodup Hnew (NoDup_nil_2 (A := nat))).
  destruct (RecombineSortPrune_created _ _ _ _ _ Hprune Hnodup)
    as (Hnd & Hsorted & Hvertices & _).
  split; [done|]. split; [done|].
  intros v Hv.
  destruct (Hvertices v Hv) as (sv & sv2 & hb & Hsv & Hsv2 & Hpv & Hb & Hhead).
  exists sv2, hb. split; [done|]. split; [|done].
  destruct Hhead as (h & e & Hh & He & <-).
  destruct (Hheads h Hh) as (e' & sv' & He' & Hsv' & Hp').
  rewrite He in He'. injection He' as <-. congruence.
Qed.

(** X15. When the cube queue only adds to the heap and yields only
    hyperedges that did not exist before, the visit of an internal node by
    [Decode] that completes, on a node whose stack is still empty as
    [InitializeStacks] leaves it, leaves the node a stack without repeated
    vertices, listed by descending best-hyperedge score, in which every
    vertex is allocated, has a best hyperedge and refers back to the
    node. *)
Theorem Decode_node_stack (ffs : list (option RuleTable)) (nodes : list Node)
    (st st' : DecodeState) (p : pvptr) (node : Node) :
  (∀ q σ0 h q' σ1, IsEmpty q = false → Pop q σ0 = (h, q', σ1) →
     (∀ v sv, vertices σ0 !! v = Some sv → vertices σ1 !! v = Some sv)
     ∧ (∀ h0 e0, hyperedges σ0 !! h0 = Some e0 →
          hyperedges σ1 !! h0 = Some e0)) →
  (∀ q σ0 h q' σ1, IsEmpty q = false → Pop q σ0 = (h, q', σ1) →
     hyperedges σ0 !! h = None) →
  children node ≠ [] →
  default [] (d_stackMap st !! p) = [] →
  Decode_node popLimit ruleLimit stackLimit estimate CubeQueue_new ffs
    nodes st (p, node) = Some st' →
  ∃ stack, d_stackMap st' !! p = Some stack
    ∧ NoDup stack ∧ sorted_by_score (d_heap st') stack
    ∧ ∀ v, v ∈ stack →
        ∃ sv hb, vertices (d_heap st') !! v = Some sv
                 ∧ pvertex sv = Some p ∧ best sv = Some hb.
Proof.
  intros Hadds Hnew Hch Hempty Hrun.
  destruct (Decode_node_spec _ _ _ _ _ _ Hadds Hnew Hch Hempty Hrun)
    as (stack & Hstack & Hnd & Hsorted & Hvertices).
  by exists stack.
Qed.

(** A visit of the loop to a node whose stack is still empty keeps what
    was in the heap before it. *)
Lemma Decode_node_adds ffs nodes st st' entry :
  queue_creates →
  (children entry.2 ≠ [] → default [] (d_stackMap st !! entry.1) = []) →
  Decode_node popLimit ruleLimit stackLimit estimate CubeQueue_new ffs
    nodes st entry = Some st' →
  adds_only (d_heap st) (d_heap st').
Proof.
  intros Hqueue Hempty. destruct entry as [p node]. unfold Decode_node.
  simpl in Hempty.
  destruct (children node) as [|c0 cs0]; [by intros [= <-]|].
  rewrite Hempty by done.
  destruct (Decode_match _ _ _ _ _ _ _) as [[bundles rm]|]; [|done].
  cbn [mbind option_bind].
  destruct (pop_loop _ _ _ _ _) as [[[buffer q'] σ1]|] eqn:Hpop; [|done].
  cbn [mbind option_bind].
  destruct (RecombineSortPrune _ _ _ _) as [[σ2 stack]|] eqn:Hprune; [|done].
  cbn [mbind option_bind]. intros [= <-]. cbn [d_heap].
  destruct (pop_loop_adds p (d_heap st) Hqueue _ _ _ [] _ _ _
              (λ v sv Hv, Hv) (λ h e He, He)
              (λ h Hh, False_ind _ (proj1 (elem_of_nil h) Hh)) Hpop)
    as (Hvs & Hhs & Hbuf).
  assert (Hnodup : NoDup buffer).
  { destruct (pop_loop_buffer_spec p
                (λ q σ h q0 σ0 He Hp,
                   conj (proj1 (Hqueue q σ h q0 σ0 He Hp))
                        (proj1 (proj2 (Hqueue q σ h q0 σ0 He Hp))))
                _ _ _ [] _ _ _
                (λ h Hh, False_ind _ (proj1 (elem_of_nil h) Hh)) Hpop)
      as [_ Hnodup].
    apply Hnodup; [|apply NoDup_nil_2].
    intros q σ h q0 σ0 He Hp.
    apply (proj1 (proj2 (proj2 (Hqueue q σ h q0 σ0 He Hp)))). }
  destruct (RecombineSortPrune_created _ _ _ _ _ Hprune Hnodup)
    as (_ & _ & _ & Hother & Hedges).
  split.
  - intros v sv Hv. rewrite Hother; [by apply Hvs|].
    intros (h & e & Hh & He & Hhead).
    destruct (Hbuf h Hh) as [_ (e' & He' & Hnone)].
    rewrite He in He'. injection He' as <-. congruence.
  - intros h e He. rewrite Hedges; [by apply Hhs|].
    intros Hh. destruct (Hbuf h Hh) as [Hnone _]. congruence.
Qed.

Lemma adds_only_trans σ1 σ2 σ3 :
  adds_only σ1 σ2 → adds_only σ2 σ3 → adds_only σ1 σ3.
Proof. intros [Hv1 Hh1] [Hv2 Hh2]. split; eauto. Qed.

Lemma unvisited_empty_step ffs nodes st st1 p0 node0 entries :
  NoDup ((p0, node0) :: entries).*1 →
  unvisited_empty st ((p0, node0) :: entries) →
  Decode_node popLimit ruleLimit stackLimit estimate CubeQueue_new ffs
    nodes st (p0, node0) = Some st1 →
  unvisited_empty st1 entries.
Proof.
  intros Hnd Hempty Hnode p node Hin Hch. csimpl in Hnd.
  apply NoDup_cons in Hnd as [Hp0 _].
  assert (Hne : p ≠ p0).
  { intros ->. apply Hp0, list_elem_of_fmap. by exists (p0, node). }
  destruct (Decode_node_stacks _ _ _ _ _ _ Hnode) as [Hleaf Hinner].
  destruct (children node0) as [|c cs] eqn:Hch0.
  - rewrite Hleaf by done. apply (Hempty p node); [by right|done].
  - destruct Hinner as (stack & -> & _); [done|].
    rewrite lookup_insert_ne by done.
    apply (Hempty p node); [by right|done].
Qed.

Lemma Decode_loop_adds ffs nodes entries : ∀ st st',
  queue_creates → NoDup entries.*1 → unvisited_empty st entries →
  Decode_loop popLimit ruleLimit stackLimit estimate CubeQueue_new ffs
    nodes st entries = Some st' →
  adds_only (d_heap st) (d_heap st').
Proof.
  induction entries as [|[p0 node0] entries IH];
    intros st st' Hqueue Hnd Hempty; cbn [Decode_loop].
  - intros [= <-]. by split.
  - destruct (Decode_node _ _ _ _ _ _ _ _ _) as [st1|] eqn:Hnode; [|done].
    cbn [mbind option_bind]. intros Hloop.
    eapply adds_only_trans.
    + eapply Decode_node_adds; [done| |exact Hnode].
      simpl. intros Hch. apply (Hempty p0 node0); [by left|done].
    + apply IH; [done| |by eapply unvisited_empty_step|done].
      csimpl in Hnd. by apply NoDup_cons in Hnd as [_ ?].
Qed.

Lemma stack_ok_adds σ σ' p stack :
  adds_only σ σ' → stack_ok σ p stack → stack_ok σ' p stack.
Proof.
  intros [Hvs Hhs] (Hnd & (scores & Hscores & Hsorted) & Hvertices).
  split; [done|]. split.
  - exists scores. split; [|done].
    eapply Forall2_impl; [exact Hscores|]. intros v sc. unfold best_score.
    destruct (vertices σ !! v) as [sv|] eqn:Hv; [|done].
    rewrite (Hvs _ _ Hv). simpl. destruct (best sv) as [hb|]; [|done].
    simpl. destruct (hyperedges σ !! hb) as [eb|] eqn:Hb; [|done].
    by rewrite (Hhs _ _ Hb).
  - intros v Hv. destruct (Hvertices v Hv) as (sv & hb & Hsv & Hp & Hb).
    exists sv, hb. by rewrite (Hvs _ _ Hsv).
Qed.

(** The stacks of the internal nodes that the loop has visited. *)
Lemma Decode_loop_chart ffs nodes entries : ∀ st st',
  queue_creates → unvisited_empty st entries →
  Decode_loop popLimit ruleLimit stackLimit estimate CubeQueue_new ffs
    nodes st entries = Some st' →
  NoDup entries.*1 →
  ∀ p node, (p, node) ∈ entries → children node ≠ [] →
    ∃ stack, d_stackMap st' !! p = Some stack
             ∧ stack_ok (d_heap st') p stack.
Proof.
  induction entries as [|[p0 node0] entries IH]; intros st st' Hqueue Hempty;
    cbn [Decode_loop]; [by intros _ _ p node ?%elem_of_nil|].
  destruct (Decode_node _ _ _ _ _ _ _ _ _) as [st1|] eqn:Hnode; [|done].
  cbn [mbind option_bind]. intros Hloop Hnd.
  pose proof (unvisited_empty_step _ _ _ _ _ _ _ Hnd Hempty Hnode) as Hempty1.
  csimpl in Hnd. apply NoDup_cons in Hnd as [Hp0 Hnd].
  intros p node [[= -> ->]|Hrest]%elem_of_cons Hch.
  - destruct (Decode_node_spec _ _ _ _ _ _
                (λ q σ h q' σ1 He Hp,
                   conj (proj1 (Hqueue q σ h q' σ1 He Hp))
                        (proj1 (proj2 (Hqueue q σ h q' σ1 He Hp))))
                (λ q σ h q' σ1 He Hp,
                   proj1 (proj2 (proj2 (Hqueue q σ h q' σ1 He Hp))))
                Hch (Hempty p0 node0 ltac:(by left) Hch) Hnode)
      as (stack & Hstack & Hok).
    exists stack. split.
    + destruct (Decode_loop_stacks _ _ _ _ _ Hloop Hnd) as [Hout _].
      by rewrite (Hout p0 Hp0).
    + eapply stack_ok_adds; [|exact Hok].
      by eapply Decode_loop_adds.
  - by eapply IH.
Qed.

(** X16. When the cube queue creates the hyperedge it yields together with
    its head vertex and leaves everything else as it is, a run of [Decode]
    on an empty stack map that completes leaves a well-formed chart: every
    terminal node has a stack of one vertex, which is as
    [InitializeStacks] made it, and every internal node has a stack
    without repeated vertices, listed by descending best-hyperedge score,
    in which every vertex is allocated, has a best hyperedge and refers
    back to the node. *)
Theorem Decode_chart (ffs : list (option RuleTable)) (m m' : Manager)
    (rm rm' : Matchers) (inputTree : list Node) :
  queue_creates → m_stackMap m = ∅ →
  Decode popLimit ruleLimit stackLimit estimate CubeQueue_new ffs
    m rm inputTree = Some (m', rm') →
  ∀ i node, inputTree !! i = Some node →
    (children node = [] →
       ∃ v, m_stackMap m' !! i = Some [v]
            ∧ vertices (m_heap m') !! v = Some (terminal_vertex i))
    ∧ (children node ≠ [] →
         ∃ stack, m_stackMap m' !! i = Some stack
           ∧ NoDup stack ∧ sorted_by_score (m_heap m') stack
           ∧ ∀ v, v ∈ stack →
               ∃ sv hb, vertices (m_heap m') !! v = Some sv
                        ∧ pvertex sv = Some i ∧ best sv = Some hb).
Proof.
  intros Hqueue Hempty. unfold Decode, InitializeStacks.
  cbn [m_inputTree m_heap m_stackMap].
  destruct inputTree as [|n0 nodes] eqn:Htree; [done|]. rewrite <- Htree.
  destruct (foldl _ _ _) as [σ stackMap] eqn:Hinit.
  cbn [mbind option_bind m_inputTree m_heap m_stackMap m_source_size].
  destruct (InitializeRuleMatchers ffs rm) as [rm1|]; [|done].
  cbn [mbind option_bind].
  destruct (Decode_loop _ _ _ _ _ _ _ _ _) as [st|] eqn:Hloop; [|done].
  cbn [mbind option_bind]. intros [= <- <-]. cbn [m_stackMap m_heap].
  destruct (InitializeStacks_loop_extends _ _ _ _ _ Hinit)
    as (_ & _ & _ & _ & Hdone).
  assert (Hkeys : NoDup (addressed_nodes inputTree).*1).
  { unfold addressed_nodes. rewrite indexed_keys. apply NoDup_seq. }
  assert (Hunvisited :
    unvisited_empty {| d_heap := σ; d_stackMap := stackMap;
                       d_matchers := rm1 |} (addressed_nodes inputTree)).
  { intros p node Hin Hch. apply indexed_elem_of in Hin.
    pose proof (Hdone p node Hin) as Hp. cbn [d_stackMap].
    destruct (children node); [done|].
    by rewrite Hp, Hempty, lookup_empty. }
  destruct (Decode_loop_adds _ _ _ _ _ Hqueue Hkeys Hunvisited Hloop)
    as [Hvs _].
  pose proof (Decode_loop_chart _ _ _ _ _ Hqueue Hunvisited Hloop Hkeys)
    as Hchart.
  apply Decode_loop_stacks in Hloop as [_ Hin]; [|done].
  intros i node Hi. specialize (Hdone i node Hi).
  assert (Hentry : (i, node) ∈ addressed_nodes inputTree)
    by (by apply indexed_elem_of).
  split.
  - intros Hch. destruct (Hin i node Hentry) as [Hleaf _].
    cbn [d_stackMap] in Hleaf. rewrite (Hleaf Hch).
    rewrite Hch, Hempty, lookup_empty in Hdone.
    destruct Hdone as (v & -> & Hv & _). exists v. split; [done|].
    by apply Hvs.
  - intros Hch. destruct (Hchart i node Hentry Hch) as (stack & Hstack & Hok).
    by exists stack.
Qed.

(** X17. With a pop limit of 0, a run of [Decode] that completes leaves
    every internal node an empty stack, so that [GetBestSHyperedge] fails
    its assertion afterwards whenever the root of the tree is an internal
    node. *)
Theorem Decode_pop_limit_zero (ffs : list (option RuleTable))
    (m m' : Manager) (rm rm' : Matchers) (inputTree : list Node) :
  popLimit = 0%nat →
  Decode popLimit ruleLimit stackLimit estimate CubeQueue_new ffs
    m rm inputTree = Some (m', rm') →
  (∀ i node, inputTree !! i = Some node → children node ≠ [] →
     m_stackMap m' !! i = Some [])
  ∧ (∀ root, last inputTree = Some root → children root ≠ [] →
       GetBestSHyperedge m' = None).
Proof.
  intros Hzero Hrun.
  assert (Hstacks : m_inputTree m' = inputTree
    ∧ ∀ i node, inputTree !! i = Some node → children node ≠ [] →
        m_stackMap m' !! i = Some []).
  { revert Hrun. unfold Decode, InitializeStacks.
    cbn [m_inputTree m_heap m_stackMap].
    destruct inputTree as [|n0 nodes] eqn:Htree; [done|]. rewrite <- Htree.
    destruct (foldl _ _ _) as [σ stackMap] eqn:Hinit.
    cbn [mbind option_bind m_inputTree m_heap m_stackMap m_source_size].
    destruct (InitializeRuleMatchers ffs rm) as [rm1|]; [|done].
    cbn [mbind option_bind].
    destruct (Decode_loop _ _ _ _ _ _ _ _ _) as [st|] eqn:Hloop; [|done].
    cbn [mbind option_bind]. intros [= <- <-]. split; [done|].
    cbn [m_stackMap].
    apply Decode_loop_stacks in Hloop as [_ Hin].
    2:{ unfold addressed_nodes. rewrite indexed_keys. apply NoDup_seq. }
    intros i node Hi Hch.
    destruct (Hin i node) as [_ Hinner]; [by apply indexed_elem_of|].
    destruct (Hinner Hch) as (stack & -> & Hlen & _).
    destruct stack; [done|]. simpl in Hlen. lia. }
  destruct Hstacks as [Htree Hstacks]. split; [exact Hstacks|].
  intros root Hlast Hch. rewrite last_lookup in Hlast.
  replace (pred (length inputTree)) with (length inputTree - 1)%nat in Hlast
    by lia.
  unfold GetBestSHyperedge, root_stack. rewrite Htree.
  destruct inputTree as [|n0 nodes]; [done|].
  by rewrite (Hstacks _ _ Hlast Hch).
Qed.

End DecodingProperties.

(** ** OutputAlignmentNBest *)

Lemma Derivation_ind (P : Derivation → Prop) :
  (∀ head_span tail_spans tp khead_span subs,
     Forall P subs → P (MkDerivation head_span tail_spans tp khead_span subs)) →
  ∀ d, P d.
Proof.
  intros Hnode. fix IH 1. intros [hs ts tp ks subs]. apply Hnode.
  induction subs as [|sub subs IHsubs]; constructor; [apply IH|exact IHsubs].
Qed.

Lemma to_size_t_add_r a b : to_size_t (a + to_size_t b) = to_size_t (a + b).
Proof. unfold to_size_t. apply Zplus_mod_idemp_r. Qed.

Lemma to_size_t_add_l a b : to_size_t (to_size_t a + b) = to_size_t (a + b).
Proof. unfold to_size_t. apply Zplus_mod_idemp_l. Qed.

Lemma pos_ok_not_error tp n subs q w :
  Forall (λ sub, consistent sub → ¬ inconsistent sub) subs →
  pos_ok tp n (consistent <$> subs) q w →
  ¬ pos_error tp n (inconsistent <$> subs) q w.
Proof.
  intros Hsubs [->|(i & sp & P & Hi & Hsp & Hlt & HP & Hok)] [Hw Herr];
    [done|].
  destruct Herr as [Hlen|(i' & sp' & P' & Hi' & Hsp' & Hlt' & HP' & Herr)].
  - apply lookup_lt_Some in Hi. lia.
  - rewrite Hi in Hi'. injection Hi' as <-.
    rewrite list_lookup_fmap in HP, HP'.
    destruct (subs !! i) as [sub|] eqn:Hsub; [|done].
    simpl in HP, HP'. injection HP as <-. injection HP' as <-.
    eapply Forall_lookup_1 in Hsubs; [|exact Hsub]. by apply Hsubs.
Qed.

Lemma consistent_not_inconsistent d : consistent d → ¬ inconsistent d.
Proof.
  induction d as [hs ts tp ks subs IH] using Derivation_ind.
  intros (Hcount & Hpos & _) [Hne|(q & w & Hw & Herr & _)]; [done|].
  by eapply pos_ok_not_error; [exact IH|apply Hpos|].
Qed.

Section AlignmentProperties.
Context `{OffsetShifter} `{VectorLimits}.

Lemma pos_ok_shift tp n (oks : list Prop) p i w :
  pos_ok tp n oks (S p + i) w → pos_ok tp n oks (p + S i) w.
Proof. by replace (p + S i)%nat with (S p + i)%nat by lia. Qed.

Lemma pos_error_shift tp n (errs : list Prop) p i w :
  pos_error tp n errs (S p + i) w → pos_error tp n errs (p + S i) w.
Proof. by replace (p + S i)%nat with (S p + i)%nat by lia. Qed.

(** The rest of the loop, once the position [targetPos] has been passed. *)
Lemma loop_spec_cons tp subs n w words p st st1 out :
  pos_ok tp n (consistent <$> subs) (p + 0) w →
  ls_total st1
    = to_size_t (ls_total st + word_length tp (target_length <$> subs) (p + 0) w) →
  ls_align st ⊆ ls_align st1 →
  length (ls_sourceOffsets st1) = length (ls_sourceOffsets st) →
  length (ls_targetOffsets st1) = length (ls_targetOffsets st) →
  loop_spec tp subs n words (S p) st1 out →
  loop_spec tp subs n (w :: words) p st out.
Proof.
  intros Hok Htotal Halign Hso Hto Hrest.
  destruct out as [st'|[| | |]|]; simpl in *.
  - destruct Hrest as (Hpos & Htot & Hal & Hs & Ht).
    split; [|split; [|split; [|split]]].
    + intros [|i] w' Hw'; simpl in Hw'.
      * by injection Hw' as <-.
      * by apply pos_ok_shift, Hpos.
    + rewrite Htot, Htotal, to_size_t_add_l. apply (f_equal to_size_t).
      rewrite <- Z.add_assoc. do 3 f_equal.
      apply imap_ext. intros i x _. simpl.
      by replace (p + S i)%nat with (S (p + i))%nat by lia.
    + by etrans.
    + congruence.
    + congruence.
  - destruct Hrest as (i & w' & Hw' & Herr & Hbefore).
    exists (S i), w'. split; [done|]. split; [by apply pos_error_shift|].
    intros [|j] w'' Hj Hw''; simpl in Hw''.
    + by injection Hw'' as <-.
    + apply pos_ok_shift, Hbefore; [lia|done].
  - destruct Hrest as (i & w' & Hw' & Herr & Hbefore).
    exists (S i), w'. split; [done|]. split; [by apply pos_error_shift|].
    intros [|j] w'' Hj Hw''; simpl in Hw''.
    + by injection Hw'' as <-.
    + apply pos_ok_shift, Hbefore; [lia|done].
  - done.
  - done.
  - destruct Hrest as (i & w' & Hw' & Hnok & Hnerr & Hbefore).
    exists (S i), w'. split; [done|].
    replace (p + S i)%nat with (S p + i)%nat by lia.
    split; [done|]. split; [done|].
    intros [|j] w'' Hj Hw''; simpl in Hw''.
    + by injection Hw'' as <-.
    + apply pos_ok_shift, Hbefore; [lia|done].
Qed.

(** The loop stops at the position [targetPos] without passing it. *)
Lemma loop_spec_stuck tp subs n words p st :
  ¬ pos_ok tp n (consistent <$> subs) (p + 0) true →
  ¬ pos_error tp n (inconsistent <$> subs) (p + 0) true →
  loop_spec tp subs n (true :: words) p st Undefined.
Proof.
  intros Hnok Hnerr. exists 0%nat, true. repeat split; try done. lia.
Qed.

(** Once the index map gives [sourceInd] for a non-terminal position, the
    position is passed, or in error, only through that index. *)
Lemma pos_ok_inv tp n (oks : list Prop) p sourceInd :
  nonTermIndexMap tp !! p = Some sourceInd →
  pos_ok tp n oks (p + 0) true →
  ∃ sourcePos P, sourceIndex2Pos tp !! sourceInd = Some sourcePos
    ∧ (sourcePos < n)%nat ∧ oks !! sourceInd = Some P ∧ P.
Proof.
  intros Hidx [?|(i & sp & P & Hi & Hsp & Hlt & HP & Hok)]; [done|].
  rewrite Nat.add_0_r, Hidx in Hi. injection Hi as <-. by exists sp, P.
Qed.

Lemma pos_error_inv tp n (errs : list Prop) p sourceInd :
  nonTermIndexMap tp !! p = Some sourceInd →
  pos_error tp n errs (p + 0) true →
  ∃ sourcePos P, sourceIndex2Pos tp !! sourceInd = Some sourcePos
    ∧ (sourcePos < n)%nat ∧ errs !! sourceInd = Some P ∧ P.
Proof.
  intros Hidx [_ [Hlen|(i & sp & P & Hi & Hsp & Hlt & HP & Hok)]].
  - apply lookup_lt_Some in Hidx. lia.
  - rewrite Nat.add_0_r, Hidx in Hi. injection Hi as <-. by exists sp, P.
Qed.

Lemma target_loop_spec tp subs n startTarget :
  Forall (λ sub, ∀ retAlign start,
            outcome_spec sub retAlign (OutputAlignmentNBest sub retAlign start))
    subs →
  ∀ words p st,
    length (ls_sourceOffsets st) = n → is_size_t (ls_total st) →
    loop_spec tp subs n words p st
      (target_loop tp (OutputAlignmentNBest <$> subs)
         ((λ sub, GetNumWordsCovered (d_khead_span sub)) <$> subs)
         startTarget words p st).
Proof.
  intros Hsubs. induction words as [|w words IH]; intros p st Hlen Htot.
  - simpl. repeat split; try done.
    by rewrite Z.add_0_r, to_size_t_small.
  - destruct w; cbn [target_loop].
    + case_decide as Hmap.
      { exists 0%nat, true. split; [done|]. split; [|lia].
        split; [done|]. left. lia. }
      destruct (nonTermIndexMap tp !! p) as [sourceInd|] eqn:Hidx.
      2:{ apply lookup_ge_None in Hidx. lia. }
      destruct (sourceIndex2Pos tp !! sourceInd) as [sourcePos|] eqn:Hsp.
      2:{ apply loop_spec_stuck; intros Hc;
            [apply (pos_ok_inv _ _ _ _ _ Hidx) in Hc
            |apply (pos_error_inv _ _ _ _ _ Hidx) in Hc];
            destruct Hc as (? & ? & ? & _); congruence. }
      rewrite !list_lookup_fmap.
      destruct (subs !! sourceInd) as [sub|] eqn:Hsub;
        cbn [fmap option_fmap option_map].
      2:{ apply loop_spec_stuck; intros Hc;
            [apply (pos_ok_inv _ _ _ _ _ Hidx) in Hc
            |apply (pos_error_inv _ _ _ _ _ Hidx) in Hc];
            destruct Hc as (? & ? & _ & _ & Hc & _);
            by rewrite list_lookup_fmap, Hsub in Hc. }
      case_decide as Hrange.
      2:{ apply loop_spec_stuck; intros Hc;
            [apply (pos_ok_inv _ _ _ _ _ Hidx) in Hc
            |apply (pos_error_inv _ _ _ _ _ Hidx) in Hc];
            destruct Hc as (? & ? & Hc & ? & _);
            rewrite Hsp in Hc; injection Hc as <-; lia. }
      pose proof (Forall_lookup_1 _ _ _ _ Hsubs Hsub (ls_align st)
                    (to_size_t (startTarget + ls_total st))) as Hspec.
      destruct (OutputAlignmentNBest sub _ _) as [[retAlign' m]|e|];
        simpl in Hspec.
      * destruct Hspec as (Hcons & -> & Halign).
        eapply loop_spec_cons; [| | | | |apply IH].
        -- right. exists sourceInd, sourcePos, (consistent sub).
           rewrite Nat.add_0_r, list_lookup_fmap, Hsub. by repeat split; try lia.
        -- simpl. rewrite to_size_t_add_r. unfold word_length.
           by rewrite Nat.add_0_r, Hidx; simpl; rewrite list_lookup_fmap, Hsub.
        -- done.
        -- simpl. by rewrite length_insert.
        -- simpl. by rewrite length_insert.
        -- simpl. by rewrite length_insert.
        -- apply to_size_t_range.
      * assert (Herr : inconsistent sub →
                  pos_error tp n (inconsistent <$> subs) (p + 0) true).
        { intros Hinc. split; [done|]. right.
          exists sourceInd, sourcePos, (inconsistent sub).
          rewrite Nat.add_0_r, list_lookup_fmap, Hsub. by repeat split; try lia. }
        destruct e; simpl; [| |done|done];
          (exists 0%nat, true; split; [done|]; split; [by apply Herr|lia]).
      * destruct Hspec as [Hncons Hninc].
        apply loop_spec_stuck; intros Hc;
          [apply (pos_ok_inv _ _ _ _ _ Hidx) in Hc
          |apply (pos_error_inv _ _ _ _ _ Hidx) in Hc];
          destruct Hc as (? & P & _ & _ & HP & HPok);
          rewrite list_lookup_fmap, Hsub in HP; simpl in HP;
          injection HP as <-; done.
    + eapply loop_spec_cons; [| | | | |apply IH]; try done.
      * by left.
      * apply to_size_t_range.
Qed.

Lemma insert_alignments_spec aiTerm sourceOffsets targetOffsets :
  ∀ retAlign,
    match insert_alignments aiTerm sourceOffsets targetOffsets retAlign with
    | Returned retAlign' =>
        retAlign ⊆ retAlign'
        ∧ ∀ relSource relTarget, (relSource, relTarget) ∈ aiTerm →
            (relSource < length sourceOffsets)%nat
            ∧ (relTarget < length targetOffsets)%nat
    | Thrown e => e = DuplicateAlignmentPoint
    | Undefined =>
        ∃ relSource relTarget, (relSource, relTarget) ∈ aiTerm
          ∧ ¬ ((relSource < length sourceOffsets)%nat
               ∧ (relTarget < length targetOffsets)%nat)
    end.
Proof.
  induction aiTerm as [|[rs rt] aiTerm IH]; intros retAlign; simpl.
  - split; [done|]. intros ? ? Hin. by apply elem_of_nil in Hin.
  - destruct (sourceOffsets !! rs) as [a|] eqn:Hs.
    2:{ exists rs, rt. split; [by left|]. apply lookup_ge_None in Hs. lia. }
    destruct (targetOffsets !! rt) as [b|] eqn:Ht.
    2:{ exists rs, rt. split; [by left|]. apply lookup_ge_None in Ht. lia. }
    case_decide as Hdup; [done|].
    specialize (IH ({[(a, b)]} ∪ retAlign)).
    destruct (insert_alignments _ _ _ _) as [retAlign'|e|].
    + destruct IH as [Hsub Hrange].
      split; [etrans; [apply union_subseteq_r|exact Hsub]|].
      intros rs' rt' Hin. apply elem_of_cons in Hin as [Heq|Hin].
      * injection Heq as -> ->. apply lookup_lt_Some in Hs, Ht. lia.
      * by apply Hrange.
    + done.
    + destruct IH as (rs' & rt' & Hin & Hbad). exists rs', rt'.
      split; [by right|done].
Qed.

Lemma OutputAlignmentNBest_spec d : ∀ retAlign startTarget,
  outcome_spec d retAlign (OutputAlignmentNBest d retAlign startTarget).
Proof.
  induction d as [hs ts tp ks subs IH] using Derivation_ind.
  intros retAlign startTarget.
  set (d := MkDerivation hs ts tp ks subs).
  set (n := Z.to_nat (CalcSourceSize d)).
  assert (Hexcl : Forall (λ sub, consistent sub → ¬ inconsistent sub) subs).
  { apply Forall_forall. intros sub _. apply consistent_not_inconsistent. }
  pose proof (target_loop_spec tp subs n startTarget IH (tp_words tp) 0%nat
                {| ls_align := retAlign;
                   ls_sourceOffsets := replicate n 0;
                   ls_targetOffsets := replicate (length (tp_words tp)) 0;
                   ls_total := 0 |}) as Hloop.
  simpl in Hloop. rewrite length_replicate in Hloop.
  specialize (Hloop eq_refl).
  assert (Hzero : is_size_t 0) by (split; [lia|reflexivity]).
  specialize (Hloop Hzero).
  unfold d at 2. cbn [OutputAlignmentNBest]. fold d. fold n.
  case_decide as Hsize; [done|].
  case_decide as Hcount; [by left|].
  assert (Hcount' : length (sourceIndex2Pos tp) = length subs)
    by (destruct (decide (length (sourceIndex2Pos tp) = length subs)); done).
  destruct (target_loop _ _ _ _ _ _ _) as [st|e|]; simpl in Hloop.
  - destruct Hloop as (Hpos & Htotal & Halign & Hso & Hto).
    rewrite length_replicate in Hso, Hto.
    pose proof (insert_alignments_spec (alignTerm tp)
                  (ShiftOffsets (ls_sourceOffsets st) (GetStartPos hs))
                  (ShiftOffsets (ls_targetOffsets st) startTarget)
                  (ls_align st)) as Hins.
    rewrite !ShiftOffsets_length, Hso, Hto in Hins.
    destruct (insert_alignments _ _ _ _) as [retAlign'|e|]; simpl.
    + destruct Hins as [Hsub Hrange]. split; [|split].
      * split; [done|]. split; [|done]. intros q w Hw. by apply (Hpos q w).
      * rewrite Htotal. f_equal.
      * by etrans.
    + by rewrite Hins.
    + destruct Hins as (rs & rt & Hin & Hbad). split.
      * intros (_ & _ & Hrange). by apply Hbad, Hrange.
      * intros [Hne|(q & w & Hw & Herr & _)]; [done|].
        by eapply pos_ok_not_error; [exact Hexcl|apply (Hpos q w)|].
  - destruct e; simpl; [| |done|done];
      destruct Hloop as (i & w & Hw & Herr & Hbefore);
      right; exists i, w; (split; [done|]); (split; [done|]); exact Hbefore.
  - destruct Hloop as (i & w & Hw & Hnok & Hnerr & Hbefore). split.
    + intros (_ & Hpos & _). by apply Hnok, (Hpos i w).
    + intros [Hne|(q & w' & Hw' & Herr & Hq)]; [done|].
      destruct (lt_eq_lt_dec q i) as [[Hlt| ->]|Hgt].
      * by eapply pos_ok_not_error; [exact Hexcl|apply (Hbefore q w')|].
      * rewrite Hw in Hw'. injection Hw' as <-. done.
      * by apply Hnok, (Hq i w).
Qed.

(** *** The sizes of the offset vectors *)





(** *** Points already in the set

    A call that returns from the set [retAlign] behaves in the same way from
    a larger set, unless one of the points it inserts is among the
    additional ones. *)





(** *** The number of points inserted *)

Lemma insert_alignments_count aiTerm sourceOffsets targetOffsets :
  ∀ retAlign retAlign',
    insert_alignments aiTerm sourceOffsets targetOffsets retAlign
    = Returned retAlign' →
    size retAlign' = (size retAlign + length aiTerm)%nat.
Proof.
  induction aiTerm as [|[relSource relTarget] aiTerm IH];
    intros A A'; simpl.
  - intros [= <-]. lia.
  - destruct (sourceOffsets !! relSource) as [absSource|]; [|done].
    destruct (targetOffsets !! relTarget) as [absTarget|]; [|done].
    case_decide as Hin; [done|]. intros Hrun.
    rewrite (IH _ _ Hrun), size_union, size_singleton; [lia|].
    by apply disjoint_singleton_l.
Qed.

Lemma target_loop_count tp subs startTarget :
  Forall (λ sub, ∀ A s A' n,
            OutputAlignmentNBest sub A s = Returned (A', n) →
            size A' = (size A + point_count sub)%nat) subs →
  ∀ words p st st',
    target_loop tp (OutputAlignmentNBest <$> subs)
      ((λ sub, GetNumWordsCovered (d_khead_span sub)) <$> subs)
      startTarget words p st = Returned st' →
    size (ls_align st')
    = (size (ls_align st)
       + foldr Nat.add 0
           (imap (λ i, word_points tp (point_count <$> subs) (p + i)) words))%nat.
Proof.
  intros Hsubs. induction words as [|w words IH]; intros p st st' Hrun.
  - simpl in Hrun. injection Hrun as <-. simpl. lia.
  - assert (Hshift :
      imap (λ i, word_points tp (point_count <$> subs) (p + i)) (w :: words)
      = word_points tp (point_count <$> subs) p w
        :: imap (λ i, word_points tp (point_count <$> subs) (S p + i)) words).
    { simpl. rewrite Nat.add_0_r. f_equal. apply imap_ext. intros i x _.
      simpl. by replace (p + S i)%nat with (S (p + i))%nat by lia. }
    rewrite Hshift. clear Hshift. cbn [foldr].
    destruct w; cbn [target_loop] in Hrun.
    + case_decide as Hmap; [done|].
      change (word_points tp (point_count <$> subs) p true)
        with (default 0%nat (sourceInd ← nonTermIndexMap tp !! p;
                             (point_count <$> subs) !! sourceInd)).
      destruct (nonTermIndexMap tp !! p) as [sourceInd|]; [|done].
      destruct (sourceIndex2Pos tp !! sourceInd) as [sourcePos|]; [|done].
      cbn [mbind option_bind].
      rewrite !list_lookup_fmap in Hrun. rewrite list_lookup_fmap.
      destruct (subs !! sourceInd) as [sub|] eqn:Hsub;
        cbn [fmap option_fmap option_map] in Hrun |- *; [|done].
      case_decide as Hrange; [|done].
      destruct (OutputAlignmentNBest sub (ls_align st) _)
        as [[A1 m]|e|] eqn:Hcall; [|done|done].
      rewrite (IH _ _ _ Hrun). cbn [ls_align default].
      rewrite (Forall_lookup_1 _ _ _ _ Hsubs Hsub _ _ _ _ Hcall).
      unfold id. lia.
    + rewrite (IH _ _ _ Hrun). simpl. lia.
Qed.

Lemma OutputAlignmentNBest_count d : ∀ A s A' n,
  OutputAlignmentNBest d A s = Returned (A', n) →
  size A' = (size A + point_count d)%nat.
Proof.
  induction d as [hs ts tp ks subs IH] using Derivation_ind.
  intros A s A' n Hrun. cbn [OutputAlignmentNBest] in Hrun.
  case_decide as Hsize; [done|].
  case_decide as Hcount; [done|].
  destruct (target_loop _ _ _ _ _ _ _) as [st1|e|] eqn:Hloop in Hrun;
    [|done|done].
  destruct (insert_alignments _ _ _ (ls_align st1)) as [A2|e|] eqn:Hins;
    [|done|done].
  injection Hrun as <- <-.
  rewrite (insert_alignments_count _ _ _ _ _ Hins).
  rewrite (target_loop_count tp subs s IH _ _ _ _ Hloop).
  cbn [point_count ls_align].
  assert (Hzero : ∀ words : list bool,
    imap (λ i, word_points tp (point_count <$> subs) (0 + i)) words
    = imap (word_points tp (point_count <$> subs)) words)
    by (intros words; by apply imap_ext).
  rewrite Hzero. lia.
Qed.

End AlignmentProperties.


(** X18. When [OutputAlignmentNBest] returns, the alignment set has grown
    by exactly one point for every terminal alignment of every rule the
    recursion visited: the points inserted are pairwise distinct and none of
    them was in the set before. *)
Theorem OutputAlignmentNBest_point_count `{OffsetShifter} `{VectorLimits}
    (d : Derivation) (retAlign retAlign' : gset (Z * Z)) (startTarget n : Z) :
  OutputAlignmentNBest d retAlign startTarget = Returned (retAlign', n) →
  size retAlign' = (size retAlign + point_count d)%nat
  ∧ size (retAlign' ∖ retAlign) = point_count d.
Proof.
  intros Hrun.
  pose proof (OutputAlignmentNBest_count d _ _ _ _ Hrun) as Hcount.
  split; [exact Hcount|].
  pose proof (OutputAlignmentNBest_spec d retAlign startTarget) as Hspec.
  rewrite Hrun in Hspec. destruct Hspec as (_ & _ & Hsub).
  rewrite size_difference by done. lia.
Qed.

(** ** Output *)

Section OutputProperties.
Context {Word : Type} `{Countable Word} `{OffsetShifter} `{VectorLimits}.
Variable Extract : SVertexStack → Z → list Derivation.
Variable GetOutputPhrase : Derivation → list Word.
Variables nBestFactor NBestSize : Z.
Variables DistinctNBest includeWordAlignment PrintNBestTrees : bool.
Variable OutputSurface : list Word → string.
Variable OutputAllFeatureScores : bool → Derivation → string.
Variable score_text : bool → Derivation → string.
Variable GetOutputTree : Derivation → string.
Variable DerivationWriter_Write : Heap → hptr → Z → string.

Abbreviation line := (nbest_line GetOutputPhrase includeWordAlignment
                        PrintNBestTrees OutputSurface OutputAllFeatureScores
                        score_text GetOutputTree).
Abbreviation lines := (nbest_lines GetOutputPhrase includeWordAlignment
                         PrintNBestTrees OutputSurface OutputAllFeatureScores
                         score_text GetOutputTree).
Abbreviation can_print := (printable GetOutputPhrase includeWordAlignment).

Lemma nbest_line_Completed fixed translationId d :
  (∃ text, line fixed translationId d = Completed text) ↔ can_print d.
Proof.
  unfold nbest_line, printable. case_decide as Hshort.
  { split; [by intros [? ?]|]. intros [Hlen _]. lia. }
  destruct includeWordAlignment.
  - destruct (OutputAlignmentNBest d ∅ 0) as [[align n]|e|].
    + split; [|by eauto]. intros _. split; [lia|]. by eauto.
    + split; [by intros [? ?]|]. intros [_ Hal].
      by destruct (Hal eq_refl) as [? ?].
    + split; [by intros [? ?]|]. intros [_ Hal].
      by destruct (Hal eq_refl) as [? ?].
  - split; [|by eauto]. intros _. split; [lia|done].
Qed.

Lemma nbest_line_short fixed translationId d :
  line fixed translationId d = Threw ShortOutputPhrase
  ↔ (length (GetOutputPhrase d) < 2)%nat.
Proof.
  unfold nbest_line. case_decide as Hshort; [done|].
  split; [|lia]. destruct includeWordAlignment; [|done].
  by destruct (OutputAlignmentNBest d ∅ 0) as [[align n]|e|].
Qed.

(** The loop stops at the first derivation whose line cannot be printed. *)
Lemma nbest_lines_stops fixed translationId nBestList e : ∀ out i d,
  nBestList !! i = Some d → Forall can_print (take i nBestList) →
  line fixed translationId d = Threw e →
  lines fixed translationId nBestList out = Threw e.
Proof.
  induction nBestList as [|d0 nBestList IH]; intros out [|i] d Hd Hbefore Hd';
    try done.
  - simpl in Hd. injection Hd as <-. simpl. by rewrite Hd'.
  - simpl in Hd, Hbefore. apply Forall_cons in Hbefore as [Hd0 Hbefore].
    apply (nbest_line_Completed fixed translationId) in Hd0 as [text Htext].
    simpl. rewrite Htext. by apply (IH _ i d).
Qed.

Lemma nbest_lines_outcome fixed translationId nBestList : ∀ out,
  match lines fixed translationId nBestList out with
  | Completed _ => Forall can_print nBestList
  | _ => ∃ i d, nBestList !! i = Some d
           ∧ Forall can_print (take i nBestList)
           ∧ line fixed translationId d
             = lines fixed translationId nBestList out
  end.
Proof.
  induction nBestList as [|d0 nBestList IH]; intros out; simpl; [done|].
  destruct (line fixed translationId d0) as [text|e|] eqn:Hline.
  - assert (Hd0 : can_print d0)
      by (apply (nbest_line_Completed fixed translationId); eauto).
    specialize (IH (out +:+ text)).
    destruct (lines fixed translationId nBestList (out +:+ text)) as [out'|e|].
    + by constructor.
    + destruct IH as (i & d & Hd & Hbefore & Hstop).
      exists (S i), d. split; [done|]. split; [by constructor|done].
    + destruct IH as (i & d & Hd & Hbefore & Hstop).
      exists (S i), d. split; [done|]. split; [by constructor|done].
  - exists 0%nat, d0. split; [done|]. split; [constructor|done].
  - exists 0%nat, d0. split; [done|]. split; [constructor|done].
Qed.

(** X19. [OutputNBestList] completes exactly when every derivation of the
    list has an output phrase of at least two words and, if word alignments
    are printed, an alignment that [OutputAlignmentNBest] returns; it then
    hands one record to the collector, under the translation id, after the
    records written before.  It throws for the output phrase exactly when
    some derivation has fewer than two words and all derivations before it
    can be printed, and it never throws for an alignment when alignments
    are not printed.  A null collector is read through before it is
    asserted. *)
Theorem OutputNBestList_outcomes (collector : OutputCollector)
    (nBestList : list Derivation) (translationId : Z) :
  let run := OutputNBestList GetOutputPhrase includeWordAlignment
               PrintNBestTrees OutputSurface OutputAllFeatureScores
               score_text GetOutputTree in
  ((∃ collector', run (Some collector) nBestList translationId
                  = Completed collector')
   ↔ Forall can_print nBestList)
  ∧ (∀ collector', run (Some collector) nBestList translationId
                   = Completed collector' →
       OutputIsCout collector' = OutputIsCout collector
       ∧ ∃ text, written collector'
                 = written collector ++ [(translationId, text)])
  ∧ (run (Some collector) nBestList translationId = Threw ShortOutputPhrase
     ↔ ∃ i d, nBestList !! i = Some d
         ∧ (length (GetOutputPhrase d) < 2)%nat
         ∧ Forall can_print (take i nBestList))
  ∧ (includeWordAlignment = false →
       ∀ e, run (Some collector) nBestList translationId
            ≠ Threw (AlignmentError e))
  ∧ run None nBestList translationId = Failed.
Proof.
  intros run. subst run. unfold OutputNBestList.
  pose proof (nbest_lines_outcome (OutputIsCout collector) translationId
                nBestList "") as Hout.
  split; [|split; [|split; [|split; [|done]]]].
  - destruct (lines _ _ _ _) as [out|e|] eqn:Hlines.
    + split; [done|by eauto].
    + split; [by intros [? ?]|]. intros Hall.
      destruct Hout as (i & d & Hd & _ & Hstop).
      eapply Forall_lookup_1 in Hall; [|exact Hd].
      apply (nbest_line_Completed (OutputIsCout collector) translationId)
        in Hall as [text Htext].
      congruence.
    + split; [by intros [? ?]|]. intros Hall.
      destruct Hout as (i & d & Hd & _ & Hstop).
      eapply Forall_lookup_1 in Hall; [|exact Hd].
      apply (nbest_line_Completed (OutputIsCout collector) translationId)
        in Hall as [text Htext].
      congruence.
  - intros collector'. destruct (lines _ _ _ _) as [out|e|]; [|done|done].
    intros [= <-]. split; [done|]. by exists out.
  - split.
    + destruct (lines _ _ _ _) as [out|e|] eqn:Hlines; [done| |done].
      intros [= ->]. destruct Hout as (i & d & Hd & Hbefore & Hstop).
      exists i, d. split; [done|]. split; [|done].
      by apply (nbest_line_short (OutputIsCout collector) translationId).
    + intros (i & d & Hd & Hshort & Hbefore).
      apply (nbest_line_short (OutputIsCout collector) translationId)
        in Hshort.
      by rewrite (nbest_lines_stops _ _ _ _ _ i d Hd Hbefore Hshort).
  - intros Hoff e.
    destruct (lines _ _ _ _) as [out|e'|] eqn:Hlines; [done| |done].
    intros [= ->]. destruct Hout as (i & d & _ & _ & Hstop).
    unfold nbest_line in Hstop. rewrite Hoff in Hstop.
    by case_decide.
Qed.

(** X20. On a manager whose root stack is missing or empty, as before
    [Decode] has visited the root, [OutputNBest] with a null collector
    completes without evaluating anything, while with a collector it fails
    the assertion of [ExtractKBest] as soon as derivations are requested
    for a sentence that is not empty; [OutputDetailedTranslationReport]
    fails the assertion of [GetBestSHyperedge] with or without a collector,
    because it tests the collector only afterwards. *)
Theorem Output_without_root_stack (m : Manager)
    (collector : OutputCollector) (translationId : Z) :
  root_stack m = None →
  OutputNBest Extract GetOutputPhrase nBestFactor NBestSize DistinctNBest
    includeWordAlignment PrintNBestTrees OutputSurface OutputAllFeatureScores
    score_text GetOutputTree m None translationId
  = Completed None
  ∧ (NBestSize ≠ 0 → m_source_size m ≠ 0 →
       OutputNBest Extract GetOutputPhrase nBestFactor NBestSize DistinctNBest
         includeWordAlignment PrintNBestTrees OutputSurface
         OutputAllFeatureScores score_text GetOutputTree m (Some collector)
         translationId
       = Failed)
  ∧ OutputDetailedTranslationReport DerivationWriter_Write m None
      translationId = None
  ∧ OutputDetailedTranslationReport DerivationWriter_Write m (Some collector)
      translationId = None.
Proof.
  intros Hroot. split; [done|]. split.
  - intros Hk Hsize. unfold OutputNBest, ExtractKBest.
    apply Z.eqb_neq in Hk, Hsize. by rewrite Hk, Hsize, Hroot.
  - unfold OutputDetailedTranslationReport, GetBestSHyperedge.
    by rewrite Hroot.
Qed.

(** X21. When no derivation is requested, or the source sentence is
    empty, [OutputNBest] with a collector still hands it one record under
    the translation id, with an empty text, whatever the stack map holds. *)
Theorem OutputNBest_nothing_requested (m : Manager)
    (collector : OutputCollector) (translationId : Z) :
  NBestSize = 0 ∨ m_source_size m = 0 →
  OutputNBest Extract GetOutputPhrase nBestFactor NBestSize DistinctNBest
    includeWordAlignment PrintNBestTrees OutputSurface OutputAllFeatureScores
    score_text GetOutputTree m (Some collector) translationId
  = Completed (Some (Write collector translationId "")).
Proof.
  intros Hnothing. unfold OutputNBest, ExtractKBest.
  assert (Hskip : (NBestSize =? 0) || (m_source_size m =? 0) = true).
  { apply orb_true_iff.
    destruct Hnothing as [Hk|Hs]; [left|right]; by apply Z.eqb_eq. }
  by rewrite Hskip.
Qed.

End OutputProperties.

(** ** Reference collaborators *)

Lemma lex_lt_irrefl x : lex_lt x x = false.
Proof. induction x as [|a x IH]; [done|]. simpl. by rewrite Z.ltb_irrefl. Qed.

Lemma lex_lt_trans x : ∀ y z,
  lex_lt x y = true → lex_lt y z = true → lex_lt x z = true.
Proof.
  induction x as [|a x IH]; intros [|b y] [|c z]; simpl; try done.
  destruct (Z.ltb_spec a b), (Z.ltb_spec b a), (Z.ltb_spec b c),
    (Z.ltb_spec c b), (Z.ltb_spec a c), (Z.ltb_spec c a);
    try done; try lia.
  apply IH.
Qed.

Lemma lex_lt_total x : ∀ y, lex_lt x y = false → lex_lt y x = false → x = y.
Proof.
  induction x as [|a x IH]; intros [|b y]; simpl; try done.
  destruct (Z.ltb_spec a b), (Z.ltb_spec b a); try done; try lia.
  intros Hxy Hyx. f_equal; [lia|by apply IH].
Qed.

#[global] Instance lex_orderer : RecombinationOrderer.
Proof.
  refine {| orderer := lex_lt |}.
  - apply lex_lt_irrefl.
  - apply lex_lt_trans.
  - intros x y z Hxy Hyx Hyz Hzy.
    rewrite (lex_lt_total _ _ Hxy Hyx). by split.
Defined.

Lemma sort_insert_perm {A} (cmp : A → A → bool) x l :
  sort_insert cmp x l ≡ₚ x :: l.
Proof.
  induction l as [|y l IH]; simpl; [done|].
  destruct (cmp x y); [done|]. rewrite IH. apply perm_swap.
Qed.

Lemma insertion_sort_perm {A} (cmp : A → A → bool) l :
  insertion_sort cmp l ≡ₚ l.
Proof.
  induction l as [|x l IH]; simpl; [done|].
  by rewrite sort_insert_perm, IH.
Qed.

Lemma sort_insert_sorted {A} (cmp : A → A → bool) x l :
  StrictWeakOrder cmp →
  StronglySorted (λ a b, cmp b a = false) l →
  StronglySorted (λ a b, cmp b a = false) (sort_insert cmp x l).
Proof.
  intros Hswo. induction 1 as [|y l Hl IH Hy]; simpl; [repeat constructor|].
  destruct (cmp x y) eqn:Hxy.
  - constructor; [by constructor|].
    assert (Hyx : cmp y x = false).
    { destruct (cmp y x) eqn:Hyx; [|done].
      pose proof (swo_trans _ Hswo _ _ _ Hxy Hyx) as Hc.
      by rewrite (swo_irrefl _ Hswo) in Hc. }
    constructor; [done|].
    eapply Forall_impl; [exact Hy|]. simpl. intros z Hzy.
    destruct (cmp z x) eqn:Hzx; [|done].
    pose proof (swo_trans _ Hswo _ _ _ Hzx Hxy). congruence.
  - constructor; [done|]. rewrite sort_insert_perm. by constructor.
Qed.

Lemma insertion_sort_sorted {A} (cmp : A → A → bool) l :
  StrictWeakOrder cmp →
  StronglySorted (λ a b, cmp b a = false) (insertion_sort cmp l).
Proof.
  intros Hswo. induction l as [|x l IH]; simpl; [constructor|].
  by apply sort_insert_sorted.
Qed.

#[global] Instance insertion_std_sort : StdSort :=
  {| std_sort := @insertion_sort;
     std_sort_perm := @insertion_sort_perm;
     std_sort_sorted := @insertion_sort_sorted |}.

Lemma shift_offsets_length offsets : ∀ shift,
  length (shift_offsets offsets shift) = length offsets.
Proof.
  induction offsets as [|o offsets IH]; intros shift; simpl; [done|].
  destruct (o =? 0); simpl; by rewrite IH.
Qed.

#[global] Instance reference_shifter : OffsetShifter :=
  {| ShiftOffsets := shift_offsets;
     ShiftOffsets_length := shift_offsets_length |}.

#[global] Instance depth_one_patterns : RulePatterns.
Proof.
  refine {| Pattern := nat * list nat;
            matches := depth_one_matches;
            glue_pattern := depth_one_pattern |}.
  intros nodes i node Hnode. unfold depth_one_matches, depth_one_pattern.
  rewrite Hnode. simpl. by rewrite decide_True.
Defined.

#[global] Instance list_queue : CubeQueueOps (list (Z * list Z)).
Proof.
  refine {| IsEmpty := λ q, bool_decide (q = []);
            Pop := list_queue_pop;
            remaining := length |}.
  - intros q. rewrite bool_decide_eq_true. by destruct q.
  - intros [|[s st] q] σ h q' σ' Hq; [done|]. simpl. by intros [= _ <- _].
  - intros [|[s st] q] σ h q' σ' Hq; [done|]. simpl. intros [= <- _ <-].
    eexists. simpl. rewrite lookup_insert_eq. split; [done|].
    simpl. rewrite lookup_insert_eq. eauto.
Defined.

(** The list queue only adds to the heap. *)
Lemma list_queue_adds (q : list (Z * list Z)) (σ : Heap) (h : hptr)
    (q' : list (Z * list Z)) (σ' : Heap) :
  IsEmpty q = false → Pop q σ = (h, q', σ') →
  (∀ v sv, vertices σ !! v = Some sv → vertices σ' !! v = Some sv)
  ∧ (∀ h0 e0, hyperedges σ !! h0 = Some e0 → hyperedges σ' !! h0 = Some e0).
Proof.
  destruct q as [|[s st] q]; [done|]. simpl. intros _ [= <- <- <-].
  split.
  - intros v sv Hv. simpl. rewrite lookup_insert_ne; [done|]. intros <-.
    by rewrite (proj1 (not_elem_of_dom (vertices σ) _)
                  (is_fresh (dom (vertices σ)))) in Hv.
  - intros h0 e0 He0. simpl. rewrite lookup_insert_ne; [done|]. intros <-.
    by rewrite (proj1 (not_elem_of_dom (hyperedges σ) _)
                  (is_fresh (dom (hyperedges σ)))) in He0.
Qed.

Lemma list_queue_creates : queue_creates (Q := list (Z * list Z)).
Proof.
  intros q σ h q' σ' Hempty Hpop.
  destruct (list_queue_adds _ _ _ _ _ Hempty Hpop) as [Hvs Hhs].
  split; [done|]. split; [done|].
  destruct q as [|[s st] q]; [done|]. simpl in Hpop.
  injection Hpop as <- <- <-. split.
  - apply not_elem_of_dom, is_fresh.
  - simpl. rewrite lookup_insert_eq. intros e [= <-]. simpl.
    apply not_elem_of_dom, is_fresh.
Qed.

(** * The manager on sample inputs *)

(** ** The manager on the sample data *)

(** The sample buffer recombines into two vertices: the vertex of state [1]
    keeps the better of its two hyperedges as [best] and the other as
    recombined, and comes first in the stack. *)
Example RecombineAndSort_sample :
  ∃ σ',
    RecombineAndSort Sample.popped Sample.buffer [] = Some (σ', [10; 11]%nat)
    ∧ vertices σ' !! 10%nat
      = Some {| best := Some 2%nat; recombined := [0%nat];
                pvertex := Some 2%nat; state := [1] |}
    ∧ vertices σ' !! 12%nat = None
    ∧ head <$> hyperedges σ' !! 2%nat = Some 10%nat.
Proof. eexists. split; [vm_compute; reflexivity|]. by vm_compute. Qed.

Ltac sample_entries :=
  split; [apply (bool_decide_unpack _); by vm_compute|];
  intros h Hh;
  repeat (apply elem_of_cons in Hh as [->|Hh]; [by eexists _, _|]);
  by apply elem_of_nil in Hh.

(** At a second visit the vertex of the earlier visit is released with the
    two hyperedges it owns, and the buffer is recombined as before. *)
Example RecombineAndSort_sample_revisited :
  ∃ σ',
    RecombineAndSort Sample.revisited Sample.buffer Sample.previous
    = Some (σ', [10; 11]%nat)
    ∧ vertices σ' !! 20%nat = None
    ∧ hyperedges σ' !! 7%nat = None ∧ hyperedges σ' !! 8%nat = None
    ∧ vertices σ' !! 10%nat
      = Some {| best := Some 2%nat; recombined := [0%nat];
                pvertex := Some 2%nat; state := [1] |}.
Proof. eexists. split; [vm_compute; reflexivity|]. by vm_compute. Qed.

Lemma sample_revisited_fresh :
  fresh_buffer Sample.revisited Sample.buffer.
Proof. sample_entries. Qed.

Lemma sample_previous_clearable :
  clearable Sample.revisited Sample.buffer Sample.previous.
Proof.
  split; [split; [|split; [|split]]|split].
  - apply (bool_decide_unpack _). by vm_compute.
  - intros v ->%list_elem_of_singleton. by eexists.
  - apply (bool_decide_unpack _). by vm_compute.
  - intros h Hh. vm_compute in Hh.
    repeat (apply elem_of_cons in Hh as [->|Hh]; [by eexists|]).
    by apply elem_of_nil in Hh.
  - intros v ->%list_elem_of_singleton (h & e & Hh & He & Hhead).
    unfold Sample.buffer in Hh.
    repeat (apply elem_of_cons in Hh as [->|Hh];
            [vm_compute in He; by injection He as <-|]).
    by apply elem_of_nil in Hh.
  - intros h Hh. apply (bool_decide_unpack _).
    vm_compute in Hh.
    repeat (apply elem_of_cons in Hh as [->|Hh]; [by vm_compute|]).
    by apply elem_of_nil in Hh.
Qed.

Lemma RecombineAndSort_recombines_witness :
  ∃ σ' stack,
    RecombineAndSort Sample.revisited Sample.buffer Sample.previous
    = Some (σ', stack)
    ∧ NoDup stack.
Proof.
  destruct (RecombineAndSort_recombines Sample.revisited Sample.buffer
              Sample.previous sample_revisited_fresh
              sample_previous_clearable)
    as (σ' & stack & Hrun & Hnd & _).
  by exists σ', stack.
Defined.

Lemma RecombineSortPrune_sorted_witness :
  ∃ σ' stack,
    RecombineSortPrune 1 Sample.revisited Sample.buffer Sample.previous
    = Some (σ', stack)
    ∧ sorted_by_score σ' stack
    ∧ length stack = 1%nat.
Proof.
  destruct (RecombineSortPrune_sorted 1 Sample.revisited Sample.buffer
              Sample.previous sample_revisited_fresh
              sample_previous_clearable)
    as (σ' & full & σ'' & stack & Hfull & Hrun & _ & _ & _ & _ & _ & Hsorted
        & _ & Hcut & _).
  exists σ'', stack. split; [exact Hrun|]. split; [exact Hsorted|].
  destruct Hcut as [_ Hlen]; [lia|]. rewrite Hlen.
  destruct RecombineAndSort_sample_revisited as (σ1 & Hrun1 & _).
  rewrite Hrun1 in Hfull. by injection Hfull as _ <-.
Defined.

(** With a stack limit of 1 the vertex of state [2] is dropped, and
    released with the hyperedge it owns. *)
Example RecombineSortPrune_sample :
  ∃ σ'',
    RecombineSortPrune 1 Sample.popped Sample.buffer [] = Some (σ'', [10%nat])
    ∧ vertices σ'' !! 11%nat = None ∧ hyperedges σ'' !! 1%nat = None
    ∧ is_Some (hyperedges σ'' !! 0%nat) ∧ is_Some (hyperedges σ'' !! 2%nat).
Proof.
  eexists. split; [vm_compute; reflexivity|].
  split; [done|]. split; [done|]. split; by eexists.
Qed.

Lemma RecombineAndSort_order_independent_witness :
  ∃ σ1 stack1 σ2 stack2,
    RecombineAndSort Sample.revisited Sample.buffer Sample.previous
    = Some (σ1, stack1)
    ∧ RecombineAndSort Sample.revisited (reverse Sample.buffer)
        Sample.previous
      = Some (σ2, stack2)
    ∧ best_score σ1 <$> stack1 = best_score σ2 <$> stack2.
Proof.
  assert (Hperm : Sample.buffer ≡ₚ reverse Sample.buffer)
    by (symmetry; apply reverse_Permutation).
  destruct (RecombineAndSort_order_independent Sample.revisited
              Sample.buffer (reverse Sample.buffer) Sample.previous
              sample_revisited_fresh Hperm sample_previous_clearable)
    as (σ1 & stack1 & σ2 & stack2 & Hrun1 & Hrun2 & Hscores & _).
  by exists σ1, stack1, σ2, stack2.
Defined.

(** Run in the reverse order, the sample buffer keeps vertex 12 for the
    class of state [1], with the same best hyperedge. *)
Example RecombineAndSort_sample_reversed :
  ∃ σ', RecombineAndSort Sample.popped (reverse Sample.buffer) []
        = Some (σ', [12; 11]%nat)
    ∧ vertices σ' !! 12%nat
      = Some {| best := Some 2%nat; recombined := [0%nat];
                pvertex := Some 2%nat; state := [1] |}.
Proof. eexists. split; [vm_compute; reflexivity|]. by vm_compute. Qed.

(** With a pop limit of two, the loop takes two of the three candidates. *)
Example pop_loop_sample :
  ∃ q' σ', pop_loop 2 Sample.candidates empty_heap 2%nat []
           = Some ([0; 1]%nat, q', σ')
    ∧ remaining q' = 1%nat.
Proof. eexists _, _. split; [vm_compute; reflexivity|]. done. Qed.

Lemma pop_loop_pvertex_witness :
  ∃ q' σ',
    pop_loop 2 Sample.candidates empty_heap 2%nat [] = Some ([0; 1]%nat, q', σ')
    ∧ ∃ e sv, hyperedges σ' !! 1%nat = Some e
        ∧ vertices σ' !! head e = Some sv ∧ pvertex sv = Some 2%nat.
Proof.
  destruct pop_loop_sample as (q' & σ' & Hrun & _).
  exists q', σ'. split; [exact Hrun|].
  apply (pop_loop_pvertex 2 Sample.candidates q' empty_heap σ' 2%nat
           [0; 1]%nat list_queue_adds Hrun).
  rewrite !elem_of_cons. auto.
Defined.

(** ** Alignment of the sample derivations *)


(** On [Sample.overfull] the source size has wrapped around to [2^64 - 1]:
    the construction of the source offsets throws, before the count of the
    sub-derivations, which does not fit either, is looked at. *)
Example OutputAlignmentNBest_overfull :
  CalcSourceSize Sample.overfull = 2 ^ 64 - 1
  ∧ length (sourceIndex2Pos (d_translation Sample.overfull))
    ≠ length (subderivations Sample.overfull)
  ∧ OutputAlignmentNBest Sample.overfull ∅ 0 = Thrown OffsetsLengthError.
Proof. split; [reflexivity|]. split; [discriminate|reflexivity]. Qed.


Lemma OutputAlignmentNBest_point_count_witness :
  size ({[ (0, 0); (1, 1); (2, 2) ]} : gset (Z * Z))
  = (size (∅ : gset (Z * Z)) + point_count Sample.a_X_b)%nat.
Proof.
  assert (Hrun : OutputAlignmentNBest Sample.a_X_b ∅ 0
                 = Returned ({[ (0, 0); (1, 1); (2, 2) ]}, 3))
    by (vm_compute; reflexivity).
  destruct (OutputAlignmentNBest_point_count Sample.a_X_b ∅ _ 0 3 Hrun)
    as [Hcount _].
  exact Hcount.
Defined.

(** ** The matching step on the sample tree *)

Lemma Decode_match_node_glue_witness :
  ∃ bundles glueRuleTrie',
    Decode_match_node 1 ∅ (λ _, 0) [] ∅ Sample.small_nodes 2
    = Some (bundles, glueRuleTrie')
    ∧ (1 ≤ length bundles)%nat.
Proof.
  assert (Hlimit : (0 < 1)%nat) by lia.
  assert (Hnode : Sample.small_nodes !! 2%nat = Some Sample.small_root)
    by reflexivity.
  destruct (Decode_match_node_glue 1 ∅ (λ _, 0) [] ∅ Sample.small_nodes 2
              Sample.small_root Hlimit Hnode)
    as (bundles & glueRuleTrie' & Hrun & Hsize & _).
  exists bundles, glueRuleTrie'. split; [exact Hrun|exact Hsize].
Defined.

(** With a rule limit of 1 and no grammar rule at all, the root of the
    sample tree gets the one bundle of its glue rule, over the stacks of its
    two children. *)
Example Decode_match_node_sample :
  ∃ glueRuleTrie',
    Decode_match_node 1 {[ 0%nat := [5%nat]; 1%nat := [6%nat] ]} (λ _, 0) [] ∅
      Sample.small_nodes 2
    = Some ([(0, {| b_stacks := [[5%nat]; [6%nat]];
                    b_translations := [ {| future_score := 0 |} ] |})],
            glueRuleTrie').
Proof. eexists. vm_compute. reflexivity. Qed.

(** C3. The code does not keep the guarantee at a rule limit of 0: the
    container then retains nothing, the rule matchers produce zero bundles
    for the root of the sample tree, and after the glue rule is synthesized
    and the glue matcher re-run the bundle count is still 0, where the claim
    and the assertion of [Decode] ("a glue rule that is guaranteed to
    match") both say 1: the assertion fails. *)
Lemma Decode_match_node_rule_limit_zero :
  length (EnumerateHyperedges 0 ∅ (λ _, 0)
            (SynthesizeRule ∅ Sample.small_nodes 2) Sample.small_nodes 2 [])
  = 0%nat
  ∧ Decode_match_node 0 ∅ (λ _, 0) [] ∅ Sample.small_nodes 2 = None.
Proof. split; reflexivity. Qed.


(** ** Recombination on the sample buffer, continued *)

Lemma RecombineAndSort_frame_witness :
  ∃ σ' stack,
    RecombineAndSort Sample.revisited Sample.buffer Sample.previous
    = Some (σ', stack)
    ∧ ∀ v, v ∈ Sample.previous → vertices σ' !! v = None.
Proof.
  destruct RecombineAndSort_sample_revisited as (σ' & Hrun & _).
  exists σ', [10; 11]%nat. split; [exact Hrun|].
  destruct (RecombineAndSort_frame Sample.revisited σ' Sample.buffer _ _
              Hrun)
    as (_ & _ & Hreleased & _).
  exact Hreleased.
Defined.

Lemma RecombineAndSort_size_witness :
  ∃ σ' stack,
    RecombineAndSort Sample.revisited Sample.buffer Sample.previous
    = Some (σ', stack)
    ∧ (length stack ≤ length Sample.buffer)%nat.
Proof.
  destruct RecombineAndSort_sample_revisited as (σ' & Hrun & _).
  exists σ', [10; 11]%nat. split; [exact Hrun|].
  destruct (RecombineAndSort_size Sample.revisited σ' Sample.buffer _ _ Hrun)
    as [Hlen _].
  exact Hlen.
Defined.

Lemma RecombineAndSort_heads_witness :
  ∃ σ' stack,
    RecombineAndSort Sample.revisited Sample.buffer Sample.previous
    = Some (σ', stack)
    ∧ ∃ e' sv', hyperedges σ' !! 2%nat = Some e' ∧ head e' ∈ stack
        ∧ vertices σ' !! head e' = Some sv'
        ∧ (best sv' = Some 2%nat ∨ 2%nat ∈ recombined sv').
Proof.
  destruct (RecombineAndSort_heads Sample.revisited Sample.buffer
              Sample.previous sample_revisited_fresh
              sample_previous_clearable)
    as (σ' & stack & Hrun & Hheads & _).
  exists σ', stack. split; [exact Hrun|].
  destruct (Hheads 2%nat) as (e' & sv' & He' & Hin & Hsv' & Hlisted & _).
  { unfold Sample.buffer. rewrite !elem_of_cons. auto. }
  exists e', sv'. split; [exact He'|]. split; [exact Hin|].
  split; [exact Hsv'|exact Hlisted].
Defined.

Lemma RecombineAndSort_repeated_hyperedge_witness :
  RecombineAndSort Sample.popped [0; 0]%nat [] = None.
Proof.
  apply (RecombineAndSort_repeated_hyperedge Sample.popped [0; 0]%nat []).
  intros Hnd. apply NoDup_cons in Hnd as [Hfirst _].
  apply Hfirst. by left.
Defined.

Lemma GetBestSHyperedge_best_popped_witness :
  ∃ m' hb,
    Decode_store_stack 1 Sample.popped_root 2 Sample.buffer = Some m'
    ∧ GetBestSHyperedge m' = Some (Some hb)
    ∧ edge_score Sample.popped hb = Some (-3).
Proof.
  assert (Htree : m_inputTree Sample.popped_root ≠ []) by discriminate.
  assert (Hbuffer : Sample.buffer ≠ []) by discriminate.
  assert (Hfresh : fresh_buffer (m_heap Sample.popped_root) Sample.buffer)
    by sample_entries.
  destruct (GetBestSHyperedge_best_popped 1 Sample.popped_root Sample.buffer
              Htree Hbuffer Hfresh (clearable_nil _ _))
    as (m' & hb & sb & Hrun & Hbest & Hin & Hscore & Hmax & _).
  exists m', hb. split; [exact Hrun|]. split; [exact Hbest|].
  change (edge_score Sample.popped hb = Some sb) in Hscore.
  rewrite Hscore. f_equal. apply Z.le_antisymm.
  - unfold Sample.buffer in Hin. rewrite !elem_of_cons in Hin.
    destruct Hin as [->|[->|[->|Hin]]];
      [| | |by apply elem_of_nil in Hin];
      vm_compute in Hscore; injection Hscore as <-; by vm_compute.
  - apply (Hmax 2%nat); [|reflexivity].
    unfold Sample.buffer. rewrite !elem_of_cons. auto.
Defined.

(** ** Decoding the sample tree *)

(** With one empty rule table, a pop limit of two and a stack limit of one,
    the root of the sample tree ends with a stack within both limits. *)
Lemma Decode_stacks_witness :
  ∃ m' rm' stack,
    Decode (Q := list (Z * list Z)) 2 1 1 (λ _, 0) (λ _, Sample.candidates)
      [Some (RuleTrieTable ∅)] Sample.small_tree no_matchers
      Sample.small_nodes
    = Some (m', rm')
    ∧ m_stackMap m' !! 2%nat = Some stack ∧ (length stack ≤ 2)%nat.
Proof.
  assert (Hsome : ∃ m' rm',
            Decode (Q := list (Z * list Z)) 2 1 1 (λ _, 0)
              (λ _, Sample.candidates) [Some (RuleTrieTable ∅)]
              Sample.small_tree no_matchers Sample.small_nodes
            = Some (m', rm'))
    by (eexists _, _; vm_compute; reflexivity).
  destruct Hsome as (m' & rm' & Hrun).
  destruct (Decode_stacks 2 1 1 (λ _, 0) (λ _, Sample.candidates) _ _ _ _ _ _
              Hrun) as (_ & _ & _ & _ & Hstacks).
  destruct (Hstacks 2%nat Sample.small_root eq_refl) as [_ Hinner].
  destruct Hinner as (stack & Hstack & Hlen & _); [discriminate|].
  exists m', rm', stack. split; [exact Hrun|]. split; [exact Hstack|exact Hlen].
Defined.

Lemma Decode_match_initialized_witness :
  Decode_match 1 (λ _, 0) [Some (RuleTrieTable ∅)] ∅
    (with_glue {| m_ruleMatchers := [TableTrie 0; GlueTrie];
                  m_glueRuleTrie := Some ∅;
                  m_glueRuleMatcher := Some 1%nat |} ∅)
    Sample.small_nodes 2
  = (λ found, (found.1,
               with_glue {| m_ruleMatchers := [TableTrie 0; GlueTrie];
                            m_glueRuleTrie := Some ∅;
                            m_glueRuleMatcher := Some 1%nat |} found.2))
      <$> Decode_match_node 1 ∅ (λ _, 0)
            (table_tries [Some (RuleTrieTable ∅)]) ∅ Sample.small_nodes 2.
Proof.
  apply (Decode_match_initialized 1 (λ _, 0) [Some (RuleTrieTable ∅)]).
  reflexivity.
Defined.

(** ** Output on the sample tree *)

Lemma Output_without_root_stack_witness :
  OutputDetailedTranslationReport (λ _ _ _, "") Sample.small_tree None 0
  = None.
Proof.
  assert (Hroot : root_stack Sample.small_tree = None) by reflexivity.
  destruct (Output_without_root_stack (Word := nat) Sample.extract_five
              (λ _, []) 0 1 true false false (λ _, "") (λ _ _, "")
              (λ _ _, "") (λ _, "") (λ _ _ _, "") Sample.small_tree
              {| OutputIsCout := false; written := [] |} 0 Hroot)
    as (_ & _ & Hreport & _).
  exact Hreport.
Defined.

Lemma OutputNBest_nothing_requested_witness :
  OutputNBest (Word := nat) Sample.extract_five (λ _, []) 0 0 true false false
    (λ _, "") (λ _ _, "") (λ _ _, "") (λ _, "") Sample.small_tree
    (Some {| OutputIsCout := false; written := [] |}) 7
  = Completed (Some {| OutputIsCout := false; written := [(7, "")] |}).
Proof.
  apply (OutputNBest_nothing_requested (Word := nat) Sample.extract_five
           (λ _, []) 0 0 true false false (λ _, "") (λ _ _, "") (λ _ _, "")
           (λ _, "") Sample.small_tree
           {| OutputIsCout := false; written := [] |} 7).
  left. reflexivity.
Defined.

Lemma RecombineAndSort_completes_witness :
  is_Some (RecombineAndSort Sample.revisited Sample.buffer Sample.previous).
Proof.
  destruct sample_revisited_fresh as [Hnd Hentries].
  apply (RecombineAndSort_completes Sample.revisited Sample.buffer
           Sample.previous Hnd sample_previous_clearable).
  exact Hentries.
Defined.

(** The visit of the root of the sample tree, with stacks for its two
    children in the stack map and the matchers of one empty rule table. *)
Lemma Decode_node_stack_witness :
  ∃ st' stack,
    Decode_node (Q := list (Z * list Z)) 2 1 1 (λ _, 0)
      (λ _, Sample.candidates) [Some (RuleTrieTable ∅)] Sample.small_nodes
      {| d_heap := empty_heap;
         d_stackMap := {[ 0%nat := [5%nat]; 1%nat := [6%nat] ]};
         d_matchers := {| m_ruleMatchers := [TableTrie 0; GlueTrie];
                          m_glueRuleTrie := Some ∅;
                          m_glueRuleMatcher := Some 1%nat |} |}
      (2%nat, Sample.small_root)
    = Some st'
    ∧ d_stackMap st' !! 2%nat = Some stack ∧ NoDup stack.
Proof.
  assert (Hsome : ∃ st',
            Decode_node (Q := list (Z * list Z)) 2 1 1 (λ _, 0)
              (λ _, Sample.candidates) [Some (RuleTrieTable ∅)]
              Sample.small_nodes
              {| d_heap := empty_heap;
                 d_stackMap := {[ 0%nat := [5%nat]; 1%nat := [6%nat] ]};
                 d_matchers := {| m_ruleMatchers := [TableTrie 0; GlueTrie];
                                  m_glueRuleTrie := Some ∅;
                                  m_glueRuleMatcher := Some 1%nat |} |}
              (2%nat, Sample.small_root)
            = Some st')
    by (eexists; vm_compute; reflexivity).
  destruct Hsome as (st' & Hrun).
  assert (Hch : children Sample.small_root ≠ []) by discriminate.
  assert (Hempty :
            default [] (({[ 0%nat := [5%nat]; 1%nat := [6%nat] ]}
                           : gmap nat (list nat)) !! 2%nat) = [])
    by (vm_compute; reflexivity).
  destruct (Decode_node_stack 2 1 1 (λ _, 0) (λ _, Sample.candidates) _ _
              {| d_heap := empty_heap;
                 d_stackMap := {[ 0%nat := [5%nat]; 1%nat := [6%nat] ]};
                 d_matchers := {| m_ruleMatchers := [TableTrie 0; GlueTrie];
                                  m_glueRuleTrie := Some ∅;
                                  m_glueRuleMatcher := Some 1%nat |} |}
              _ 2%nat _ list_queue_adds
              (λ q σ h q' σ' He Hp,
                 proj1 (proj2 (proj2 (list_queue_creates q σ h q' σ' He Hp))))
              Hch Hempty Hrun)
    as (stack & Hstack & Hnd & _).
  exists st', stack. split; [exact Hrun|]. split; [exact Hstack|exact Hnd].
Defined.

Lemma Decode_chart_witness :
  ∃ m' rm' stack,
    Decode (Q := list (Z * list Z)) 2 1 1 (λ _, 0) (λ _, Sample.candidates)
      [Some (RuleTrieTable ∅)] Sample.small_tree no_matchers
      Sample.small_nodes
    = Some (m', rm')
    ∧ m_stackMap m' !! 2%nat = Some stack
    ∧ sorted_by_score (m_heap m') stack.
Proof.
  assert (Hsome : ∃ m' rm',
            Decode (Q := list (Z * list Z)) 2 1 1 (λ _, 0)
              (λ _, Sample.candidates) [Some (RuleTrieTable ∅)]
              Sample.small_tree no_matchers Sample.small_nodes
            = Some (m', rm'))
    by (eexists _, _; vm_compute; reflexivity).
  destruct Hsome as (m' & rm' & Hrun).
  assert (Hempty : m_stackMap Sample.small_tree = ∅) by reflexivity.
  assert (Hch : children Sample.small_root ≠ []) by discriminate.
  destruct (Decode_chart 2 1 1 (λ _, 0) (λ _, Sample.candidates) _ _ _ _ _ _
              list_queue_creates Hempty Hrun 2%nat Sample.small_root eq_refl)
    as [_ Hinner].
  destruct (Hinner Hch) as (stack & Hstack & _ & Hsorted & _).
  exists m', rm', stack. split; [exact Hrun|].
  split; [exact Hstack|exact Hsorted].
Defined.

Lemma Decode_pop_limit_zero_witness :
  ∃ m' rm',
    Decode (Q := list (Z * list Z)) 0 1 1 (λ _, 0) (λ _, Sample.candidates)
      [Some (RuleTrieTable ∅)] Sample.small_tree no_matchers
      Sample.small_nodes
    = Some (m', rm')
    ∧ GetBestSHyperedge m' = None.
Proof.
  assert (Hsome : ∃ m' rm',
            Decode (Q := list (Z * list Z)) 0 1 1 (λ _, 0)
              (λ _, Sample.candidates) [Some (RuleTrieTable ∅)]
              Sample.small_tree no_matchers Sample.small_nodes
            = Some (m', rm'))
    by (eexists _, _; vm_compute; reflexivity).
  destruct Hsome as (m' & rm' & Hrun).
  assert (Hch : children Sample.small_root ≠ []) by discriminate.
  destruct (Decode_pop_limit_zero 0 1 1 (λ _, 0) (λ _, Sample.candidates)
              _ _ _ _ _ _ eq_refl Hrun) as [_ Hbest].
  exists m', rm'. split; [exact Hrun|].
  exact (Hbest Sample.small_root eq_refl Hch).
Defined.
